(** * kivy-shmup: the sprite-atlas particle kernel of [shmup/app.py]

    A shallow embedding of [load_atlas], [PSWidget], [Particle] and its five
    subclasses, and [Game], followed by the properties the specification
    states about them.

    Conventions of the embedding.
    - Numbers.  The program computes with Python 3 numbers ([/] is true
      division).  They are modelled by the canonical rationals [Qc]: every
      operation is the exact one, so that equality of values is Leibniz
      equality.  Rounding of IEEE doubles is not modelled.
      [math.hypot(a, b) < r] with [r >= 0] is modelled by [a*a + b*b < r*r].
    - Exceptions.  Code that can raise returns [result A]; [Raise e] is the
      Python exception [e] leaving the function.
    - Objects.  Particles live in the pool [particles] of the widget; an
      object reference is its position in that pool (particles are never
      removed).  [bullets], which the program builds as [particles[-25:]],
      is therefore a list of pool positions: it aliases the pool.
    - Randomness.  The module-level generator of [random] is a cursor into
      a fixed sequence of draws, kept in the widget state. *)

From Stdlib Require Import QArith Qcanon.
From stdpp Require Import base numbers option list strings gmap.

Local Open Scope Qc_scope.

(** ** Numbers *)

Definition num (z : Z) : Qc := Qc_of_Z z.
Definition frac (n : Z) (d : positive) : Qc := Q2Qc (n # d).

(** ** Exceptions *)

Inductive exn :=
  | KeyError
  | ZeroDivisionError
  | AttributeError
  | BadReference.   (* no Python exception: see [deref] below *)

Inductive result (A : Type) :=
  | Ok (a : A)
  | Raise (e : exn).
Arguments Ok {A} a.
Arguments Raise {A} e.

#[global] Instance result_ret : MRet result := @Ok.
#[global] Instance result_bind : MBind result := λ A B f m,
  match m with
  | Ok a => f a
  | Raise e => Raise e
  end.

(** [a / b] of Python: division by zero raises. *)
Definition py_div (a b : Qc) : result Qc :=
  if decide (b = 0) then Raise ZeroDivisionError else Ok (a / b).

(** ** [UVMapping] *)

Record UVMapping := mkUV {
  u0 : Qc; v0 : Qc;
  u1 : Qc; v1 : Qc;
  su : Qc; sv : Qc
}.

(** ** [load_atlas] *)

(** A sprite rectangle [[x0, y0, w, h]] of the manifest. *)
Definition rect : Type := Qc * Qc * Qc * Qc.

(** A decoded JSON object is a Python [dict]: its items in insertion order. *)
Definition sprite_dict : Type := list (string * rect).
Definition atlas_dict : Type := list (string * sprite_dict).

(** The texture provider, [Image(path).texture]: only its size is used. *)
Record Texture := mkTexture {
  tex_path : string;
  tex_size : Qc * Qc
}.

(** [dict.popitem()]: removes and returns the last inserted item. *)
Definition popitem {V : Type} (d : list (string * V))
  : result ((string * V) * list (string * V)) :=
  match reverse d with
  | [] => Raise KeyError
  | kv :: rest => Ok (kv, reverse rest)
  end.

(** The body of the loop over [mapping.items()], for one item. *)
Definition uv_of_rect (val : rect) (tex_width tex_height : Qc)
  : result UVMapping :=
  let '(x0, y0, w, h) := val in
  let x1 := x0 + w in
  let y1 := y0 + h in
  a ← py_div x0 tex_width;
  b ← py_div y1 tex_height;
  c ← py_div x1 tex_width;
  d ← py_div y0 tex_height;
  Ok (mkUV a (1 - b) c (1 - d) (frac 5 10 * w) (frac 5 10 * h)).

Fixpoint load_items (items : sprite_dict) (tex_width tex_height : Qc)
    (uvmap : gmap string UVMapping) : result (gmap string UVMapping) :=
  match items with
  | [] => Ok uvmap
  | (name, val) :: items' =>
      uv ← uv_of_rect val tex_width tex_height;
      load_items items' tex_width tex_height (<[name := uv]> uvmap)
  end.

Definition load_atlas (atlas : atlas_dict) (Image : string → Texture)
  : result (Texture * gmap string UVMapping) :=
  '(item, _) ← popitem atlas;
  let '(tex_name, mapping) := item in
  let tex := Image ("assets/images/" +:+ tex_name) in
  let '(tex_width, tex_height) := tex_size tex in
  uvmap ← load_items mapping tex_width tex_height ∅;
  Ok (tex, uvmap).

(** ** The vertex format of [PSWidget] *)

Definition vfmt : list (string * nat * string) :=
  [("vCenter", 2%nat, "float"); ("vScale", 1%nat, "float");
   ("vPosition", 2%nat, "float"); ("vTexCoords0", 2%nat, "float")]%string.

(** [self.vsize = sum(attr[1] for attr in self.vfmt)], that is 7. *)
Definition vsize : nat := Eval cbv in sum_list ((λ attr, attr.1.2) <$> vfmt).

(** ** Particles *)

(** The classes that [make_particles] is called with. *)
Inductive Cls := CStar | CTrail | CPlayer | CBullet | CEnemy.

Definition tex_name (c : Cls) : string :=
  match c with
  | CStar => "star"
  | CTrail => "trail"
  | CPlayer => "player"
  | CBullet => "bullet"
  | CEnemy => "ufo"
  end.

(** The attributes a subclass adds to [Particle]. *)
Inductive subtype :=
  | Star (plane : Z)
  | Trail
  | Player
  | Bullet (active : bool)
  | Enemy (active : bool) (v : Z).

Definition class_of (s : subtype) : Cls :=
  match s with
  | Star _ => CStar
  | Trail => CTrail
  | Player => CPlayer
  | Bullet _ => CBullet
  | Enemy _ _ => CEnemy
  end.

(** The class attributes: [plane = 1], [active = False], [v = 0]. *)
Definition class_defaults (c : Cls) : subtype :=
  match c with
  | CStar => Star 1
  | CTrail => Trail
  | CPlayer => Player
  | CBullet => Bullet false
  | CEnemy => Enemy false 0
  end.

Record Particle := mkParticle {
  base_i : nat;
  x : Qc;
  y : Qc;
  size : Qc;
  sub : subtype
}.

Definition set_x (a : Qc) (p : Particle) : Particle :=
  mkParticle (base_i p) a (y p) (size p) (sub p).
Definition set_y (a : Qc) (p : Particle) : Particle :=
  mkParticle (base_i p) (x p) a (size p) (sub p).
Definition set_size (a : Qc) (p : Particle) : Particle :=
  mkParticle (base_i p) (x p) (y p) a (sub p).
Definition set_sub (s : subtype) (p : Particle) : Particle :=
  mkParticle (base_i p) (x p) (y p) (size p) s.

(** [self.active]: only [Bullet] and [Enemy] have the attribute. *)
Definition get_active (p : Particle) : result bool :=
  match sub p with
  | Bullet a => Ok a
  | Enemy a _ => Ok a
  | _ => Raise AttributeError
  end.

(** [self.active = a], on an instance of [Bullet] or [Enemy]. *)
Definition set_active (a : bool) (p : Particle) : Particle :=
  match sub p with
  | Bullet _ => set_sub (Bullet a) p
  | Enemy _ v => set_sub (Enemy a v) p
  | _ => p
  end.

(** [self.v] and [self.v = w], on an instance of [Enemy]. *)
Definition get_v (p : Particle) : Z :=
  match sub p with
  | Enemy _ v => v
  | _ => 0
  end.
Definition set_v (w : Z) (p : Particle) : Particle :=
  match sub p with
  | Enemy a _ => set_sub (Enemy a w) p
  | _ => p
  end.

(** [self.plane] and [self.plane = n], on an instance of [Star]. *)
Definition get_plane (p : Particle) : Z :=
  match sub p with
  | Star n => n
  | _ => 1
  end.
Definition set_plane (n : Z) (p : Particle) : Particle :=
  match sub p with
  | Star _ => set_sub (Star n) p
  | _ => p
  end.

(** ** The widget: [PSWidget] and its subclass [Game] *)

Record Game := mkGame {
  width : Qc;
  height : Qc;
  uvmap : gmap string UVMapping;
  indices : list nat;
  vertices : list Qc;
  particles : list Particle;
  bullets : list nat;
  player_x : Qc;
  player_y : Qc;
  firing : bool;
  fire_delay : Qc;
  spawn_delay : Qc;
  draws : nat → N;
  cursor : nat
}.

Definition set_indices (l : list nat) (g : Game) : Game :=
  mkGame (width g) (height g) (uvmap g) l (vertices g) (particles g)
    (bullets g) (player_x g) (player_y g) (firing g) (fire_delay g)
    (spawn_delay g) (draws g) (cursor g).
Definition set_vertices (l : list Qc) (g : Game) : Game :=
  mkGame (width g) (height g) (uvmap g) (indices g) l (particles g)
    (bullets g) (player_x g) (player_y g) (firing g) (fire_delay g)
    (spawn_delay g) (draws g) (cursor g).
Definition set_particles (l : list Particle) (g : Game) : Game :=
  mkGame (width g) (height g) (uvmap g) (indices g) (vertices g) l
    (bullets g) (player_x g) (player_y g) (firing g) (fire_delay g)
    (spawn_delay g) (draws g) (cursor g).
Definition set_bullets (l : list nat) (g : Game) : Game :=
  mkGame (width g) (height g) (uvmap g) (indices g) (vertices g)
    (particles g) l (player_x g) (player_y g) (firing g) (fire_delay g)
    (spawn_delay g) (draws g) (cursor g).
Definition set_player (px py : Qc) (g : Game) : Game :=
  mkGame (width g) (height g) (uvmap g) (indices g) (vertices g)
    (particles g) (bullets g) px py (firing g) (fire_delay g)
    (spawn_delay g) (draws g) (cursor g).
Definition set_firing (b : bool) (g : Game) : Game :=
  mkGame (width g) (height g) (uvmap g) (indices g) (vertices g)
    (particles g) (bullets g) (player_x g) (player_y g) b (fire_delay g)
    (spawn_delay g) (draws g) (cursor g).
Definition set_fire_delay (d : Qc) (g : Game) : Game :=
  mkGame (width g) (height g) (uvmap g) (indices g) (vertices g)
    (particles g) (bullets g) (player_x g) (player_y g) (firing g) d
    (spawn_delay g) (draws g) (cursor g).
Definition set_spawn_delay (d : Qc) (g : Game) : Game :=
  mkGame (width g) (height g) (uvmap g) (indices g) (vertices g)
    (particles g) (bullets g) (player_x g) (player_y g) (firing g)
    (fire_delay g) d (draws g) (cursor g).
Definition set_cursor (n : nat) (g : Game) : Game :=
  mkGame (width g) (height g) (uvmap g) (indices g) (vertices g)
    (particles g) (bullets g) (player_x g) (player_y g) (firing g)
    (fire_delay g) (spawn_delay g) (draws g) n.

(** Reading the object behind a reference.  The program has no reference
    to an object outside the pool; for such a position the model stops
    with [BadReference]. *)
Definition deref (i : nat) (g : Game) : result Particle :=
  match particles g !! i with
  | Some p => Ok p
  | None => Raise BadReference
  end.

(** Writing back the attributes of the object at position [i]. *)
Definition store (i : nat) (p : Particle) (g : Game) : Game :=
  set_particles (<[i := p]> (particles g)) g.

(** ** The generator of module [random] *)

Definition next_draw (g : Game) : N * Game :=
  (draws g (cursor g), set_cursor (S (cursor g)) g).

(** [random()]: 53 random bits scaled into [0, 1). *)
Definition random (g : Game) : Qc * Game :=
  let '(d, g) := next_draw g in
  (Q2Qc (Z.of_N (d `mod` 2 ^ 53) # 2 ^ 53), g).

(** [randint(a, b)], for [a <= b]: an integer of [a .. b]. *)
Definition randint (a b : Z) (g : Game) : Z * Game :=
  let '(d, g) := next_draw g in
  ((a + Z.of_N d `mod` (b - a + 1))%Z, g).

(** [math.hypot(a, b) < r], for [r >= 0]. *)
Definition hypot_lt (a b r : Qc) : bool :=
  bool_decide (a * a + b * b < r * r).

(** ** The subclasses of [Particle]

    A method of a class takes [self] as the attributes [p] of the instance
    and the parent widget [g], and returns both as the method leaves them;
    the caller writes [p] back to the pool.  Methods of a class are applied
    to instances of that class (see [reset] and [advance]). *)

Definition Star_reset (created : bool) (p : Particle) (g : Game)
  : Particle * Game :=
  let '(n, g) := randint 1 3 g in
  let p := set_plane n p in
  let '(p, g) :=
    if created then
      let '(r, g) := random g in (set_x (r * width g) p, g)
    else (set_x (width g) p, g) in
  let '(r, g) := random g in
  let p := set_y (r * height g) p in
  (set_size (frac 1 10 * num (get_plane p)) p, g).

Definition Star_advance (nap : Qc) (p : Particle) (g : Game)
  : Particle * Game :=
  let p := set_x (x p - num (20 * get_plane p) * nap) p in
  if decide (x p < 0) then Star_reset false p g else (p, g).

Definition Trail_reset (created : bool) (p : Particle) (g : Game)
  : Particle * Game :=
  let '(n, g) := randint (-30) (-20) g in
  let p := set_x (player_x g + num n) p in
  let '(n, g) := randint (-10) 10 g in
  let p := set_y (player_y g + num n) p in
  if created then (set_size 0 p, g)
  else let '(r, g) := random g in (set_size (r + frac 6 10) p, g).

Definition Trail_advance (nap : Qc) (p : Particle) (g : Game)
  : Particle * Game :=
  let p := set_size (size p - nap) p in
  if decide (size p ≤ frac 1 10) then Trail_reset false p g
  else (set_x (x p - num 120 * nap) p, g).

Definition Player_reset (created : bool) (p : Particle) (g : Game)
  : Particle * Game :=
  let p := set_x (player_x g) p in
  let p := set_y (player_y g) p in
  (p, g).

(** [advance = reset]: [nap] arrives as the argument [created]. *)
Definition Player_advance (nap : Qc) (p : Particle) (g : Game)
  : Particle * Game :=
  Player_reset (bool_decide (nap ≠ 0)) p g.

Definition Bullet_reset (created : bool) (p : Particle) (g : Game)
  : Particle * Game :=
  let p := set_active false p in
  let p := set_x (num (-100)) p in
  let p := set_y (num (-100)) p in
  (p, g).

Definition Bullet_advance (nap : Qc) (p : Particle) (g : Game)
  : result (Particle * Game) :=
  a ← get_active p;
  if a : bool then
    let p := set_x (x p + num 250 * nap) p in
    if decide (width g < x p) then Ok (Bullet_reset false p g)
    else Ok (p, g)
  else if firing g && bool_decide (fire_delay g ≤ 0) then
    let p := set_active true p in
    let p := set_x (player_x g + num 40) p in
    let p := set_y (player_y g) p in
    Ok (p, set_fire_delay (fire_delay g + frac 3333 10000) g)
  else Ok (p, g).

(** The last statement, [v = 0], binds a local name of the method. *)
Definition Enemy_reset (created : bool) (p : Particle) (g : Game)
  : Particle * Game :=
  let p := set_active false p in
  let p := set_x (num (-100)) p in
  let p := set_y (num (-100)) p in
  let v := 0%Z in
  (p, g).

(** [p.reset(created)], dispatched on the class of [p]. *)
Definition reset (created : bool) (p : Particle) (g : Game)
  : Particle * Game :=
  match class_of (sub p) with
  | CStar => Star_reset created p g
  | CTrail => Trail_reset created p g
  | CPlayer => Player_reset created p g
  | CBullet => Bullet_reset created p g
  | CEnemy => Enemy_reset created p g
  end.

(** The loop of [check_hit] over [self.parent.bullets]. *)
Fixpoint scan_bullets (p : Particle) (bs : list nat) (g : Game)
  : result (bool * Game) :=
  match bs with
  | [] => Ok (false, g)
  | b :: bs' =>
      bp ← deref b g;
      a ← get_active bp;
      if negb a then scan_bullets p bs' g
      else if hypot_lt (x bp - x p) (y bp - y p) (num 30) then
        let '(bp, g) := reset false bp g in
        Ok (true, store b bp g)
      else scan_bullets p bs' g
  end.

Definition Enemy_check_hit (p : Particle) (g : Game) : result (bool * Game) :=
  if hypot_lt (player_x g - x p) (player_y g - y p) (num 60)
  then Ok (true, g)
  else scan_bullets p (bullets g) g.

Definition Enemy_advance (nap : Qc) (p : Particle) (g : Game)
  : result (Particle * Game) :=
  a ← get_active p;
  if a : bool then
    '(hit, g) ← Enemy_check_hit p g;
    if hit : bool then Ok (Enemy_reset false p g)
    else
      let p := set_x (x p - num 200 * nap) p in
      if decide (x p < num (-50)) then Ok (Enemy_reset false p g)
      else
        let p := set_y (y p + num (get_v p) * nap) p in
        if decide (y p ≤ 0) then Ok (set_v (Z.abs (get_v p)) p, g)
        else if decide (height g < y p)
             then Ok (set_v (- Z.abs (get_v p)) p, g)
             else Ok (p, g)
  else if decide (spawn_delay g ≤ 0) then
    let p := set_active true p in
    let p := set_x (width g + num 50) p in
    let '(r, g) := random g in
    let p := set_y (height g * r) p in
    let '(n, g) := randint (-100) 100 g in
    let p := set_v n p in
    Ok (p, set_spawn_delay (spawn_delay g + 1) g)
  else Ok (p, g).

(** [p.advance(nap)], dispatched on the class of [p]. *)
Definition advance (nap : Qc) (p : Particle) (g : Game)
  : result (Particle * Game) :=
  match class_of (sub p) with
  | CStar => Ok (Star_advance nap p g)
  | CTrail => Ok (Trail_advance nap p g)
  | CPlayer => Ok (Player_advance nap p g)
  | CBullet => Bullet_advance nap p g
  | CEnemy => Enemy_advance nap p g
  end.

(** ** [Particle.update] *)

(** [l[i:j] = t] for [i <= j]; positions beyond the end are clipped, so an
    assignment past the end appends. *)
Definition slice_assign (i j : nat) (t l : list Qc) : list Qc :=
  take i l ++ t ++ drop j l.

(** [range(start, stop, step)] for [step > 0]. *)
Definition py_range (start stop step : nat) : list nat :=
  (λ k, start + k * step)%nat
    <$> seq 0 ((stop - start + step - 1) `div` step)%nat.

Definition update (p : Particle) (g : Game) : Game :=
  set_vertices
    (foldl (λ vs i, slice_assign i (i + 3) [x p; y p; size p] vs)
           (vertices g)
           (py_range (base_i p) (base_i p + 4 * vsize) vsize))
    g.

(** ** [PSWidget.make_particles] and [Particle.__init__] *)

Definition Particle_init (c : Cls) (i : nat) (g : Game) : Particle * Game :=
  let p := mkParticle (4 * i * vsize) 0 0 1 (class_defaults c) in
  reset true p g.

(** The four vertex records that [make_particles] appends for one quad. *)
Definition quad_vertices (uv : UVMapping) : list Qc :=
  [ 0; 0; 1; - su uv; - sv uv; u0 uv; v1 uv;
    0; 0; 1;   su uv; - sv uv; u1 uv; v1 uv;
    0; 0; 1;   su uv;   sv uv; u1 uv; v0 uv;
    0; 0; 1; - su uv;   sv uv; u0 uv; v0 uv ].

Definition quad_indices (j : nat) : list nat :=
  [j; j + 1; j + 2; j + 2; j + 3; j]%nat.

(** One iteration of the loop of [make_particles]. *)
Definition make_particle (c : Cls) (uv : UVMapping) (g : Game) (i : nat)
  : Game :=
  let j := (4 * i)%nat in
  let g := set_indices (indices g ++ quad_indices j) g in
  let g := set_vertices (vertices g ++ quad_vertices uv) g in
  let '(p, g) := Particle_init c i g in
  set_particles (particles g ++ [p]) g.

Definition make_particles (c : Cls) (num : nat) (g : Game) : result Game :=
  let count := length (particles g) in
  match uvmap g !! tex_name c with
  | None => Raise KeyError
  | Some uv => Ok (foldl (make_particle c uv) g (seq count num))
  end.

(** ** [update_glsl] *)

(** The loop of [PSWidget.update_glsl] over the pool, by position. *)
Fixpoint pass (nap : Qc) (todo : list nat) (g : Game) : result Game :=
  match todo with
  | [] => Ok g
  | i :: todo' =>
      p ← deref i g;
      '(p, g) ← advance nap p g;
      let g := store i p g in
      pass nap todo' (update p g)
  end.

Definition PSWidget_update_glsl (nap : Qc) (g : Game) : result Game :=
  pass nap (seq 0 (length (particles g))) g.

(** ** [Game] *)

(** The lists that the body of class [PSWidget] creates: [indices = []],
    [vertices = []], [particles = []]. *)
Definition PSWidget_class : list nat * list Qc * list Particle :=
  ([], [], []).

(** [Game()].  [PSWidget.__init__] loads the atlas and assigns none of
    [indices], [vertices] and [particles]: a widget has the lists of the
    class, which all widgets of a process share and [make_particles]
    extends in place.  [shared] is what these lists hold when the widget
    is made, [PSWidget_class] for the first widget of a process.
    [firing], [fire_delay] and [spawn_delay] are the class attributes of
    [Game], and [player_x], [player_y] the [Window.mouse_pos] that the
    class body reads. *)
Definition Game_new (atlas : atlas_dict) (Image : string → Texture)
    (size mouse_pos : Qc * Qc) (rnd : nat → N)
    (shared : list nat * list Qc * list Particle) : result Game :=
  '(_, uvmap) ← load_atlas atlas Image;
  let '(indices, vertices, particles) := shared in
  Ok (mkGame size.1 size.2 uvmap indices vertices particles []
        mouse_pos.1 mouse_pos.2 false 0 1 rnd 0).

Definition on_touch_down (g : Game) : Game :=
  set_fire_delay 0 (set_firing true g).

Definition on_touch_up (g : Game) : Game :=
  set_firing false g.

(** [l[-n:]] as positions of [l]. *)
Definition last_positions (n len : nat) : list nat :=
  seq (len - n) (len - (len - n)).

Definition initialize (g : Game) : result Game :=
  g ← make_particles CStar 300 g;
  g ← make_particles CTrail 200 g;
  g ← make_particles CPlayer 1 g;
  g ← make_particles CEnemy 25 g;
  g ← make_particles CBullet 25 g;
  Ok (set_bullets (last_positions 25 (length (particles g))) g).

Definition Game_update_glsl (nap : Qc) (mouse_pos : Qc * Qc) (g : Game)
  : result Game :=
  let g := set_player mouse_pos.1 mouse_pos.2 g in
  let g := if firing g then set_fire_delay (fire_delay g - nap) g else g in
  let g := set_spawn_delay (spawn_delay g - nap) g in
  PSWidget_update_glsl nap g.

(** ** Executions of the application

    [GameApp.on_start] calls [initialize] once; afterwards the clock calls
    [update_glsl] and the window delivers touch events. *)

Inductive event :=
  | Tick (nap : Qc) (mouse_pos : Qc * Qc)
  | TouchDown
  | TouchUp.

Definition step (ev : event) (g : Game) : result Game :=
  match ev with
  | Tick nap mouse_pos => Game_update_glsl nap mouse_pos g
  | TouchDown => Ok (on_touch_down g)
  | TouchUp => Ok (on_touch_up g)
  end.

Fixpoint run (evs : list event) (g : Game) : result Game :=
  match evs with
  | [] => Ok g
  | ev :: evs' => g ← step ev g; run evs' g
  end.

(** ** The variant of the program whose [Enemy.reset] assigns [self.v = 0]

    Everything that calls [Enemy.reset], directly or not, is repeated with
    the variant; the other methods are the ones above. *)

Module FixedReset.

Definition Enemy_reset (created : bool) (p : Particle) (g : Game)
  : Particle * Game :=
  let p := set_active false p in
  let p := set_x (num (-100)) p in
  let p := set_y (num (-100)) p in
  let p := set_v 0 p in
  (p, g).

Definition reset (created : bool) (p : Particle) (g : Game)
  : Particle * Game :=
  match class_of (sub p) with
  | CStar => Star_reset created p g
  | CTrail => Trail_reset created p g
  | CPlayer => Player_reset created p g
  | CBullet => Bullet_reset created p g
  | CEnemy => Enemy_reset created p g
  end.

Fixpoint scan_bullets (p : Particle) (bs : list nat) (g : Game)
  : result (bool * Game) :=
  match bs with
  | [] => Ok (false, g)
  | b :: bs' =>
      bp ← deref b g;
      a ← get_active bp;
      if negb a then scan_bullets p bs' g
      else if hypot_lt (x bp - x p) (y bp - y p) (num 30) then
        let '(bp, g) := reset false bp g in
        Ok (true, store b bp g)
      else scan_bullets p bs' g
  end.

Definition Enemy_check_hit (p : Particle) (g : Game)
  : result (bool * Game) :=
  if hypot_lt (player_x g - x p) (player_y g - y p) (num 60)
  then Ok (true, g)
  else scan_bullets p (bullets g) g.

Definition Enemy_advance (nap : Qc) (p : Particle) (g : Game)
  : result (Particle * Game) :=
  a ← get_active p;
  if a : bool then
    '(hit, g) ← Enemy_check_hit p g;
    if hit : bool then Ok (Enemy_reset false p g)
    else
      let p := set_x (x p - num 200 * nap) p in
      if decide (x p < num (-50)) then Ok (Enemy_reset false p g)
      else
        let p := set_y (y p + num (get_v p) * nap) p in
        if decide (y p ≤ 0) then Ok (set_v (Z.abs (get_v p)) p, g)
        else if decide (height g < y p)
             then Ok (set_v (- Z.abs (get_v p)) p, g)
             else Ok (p, g)
  else if decide (spawn_delay g ≤ 0) then
    let p := set_active true p in
    let p := set_x (width g + num 50) p in
    let '(r, g) := random g in
    let p := set_y (height g * r) p in
    let '(n, g) := randint (-100) 100 g in
    let p := set_v n p in
    Ok (p, set_spawn_delay (spawn_delay g + 1) g)
  else Ok (p, g).

Definition advance (nap : Qc) (p : Particle) (g : Game)
  : result (Particle * Game) :=
  match class_of (sub p) with
  | CStar => Ok (Star_advance nap p g)
  | CTrail => Ok (Trail_advance nap p g)
  | CPlayer => Ok (Player_advance nap p g)
  | CBullet => Bullet_advance nap p g
  | CEnemy => Enemy_advance nap p g
  end.

Definition Particle_init (c : Cls) (i : nat) (g : Game)
  : Particle * Game :=
  let p := mkParticle (4 * i * vsize) 0 0 1 (class_defaults c) in
  reset true p g.

Definition make_particle (c : Cls) (uv : UVMapping) (g : Game) (i : nat)
  : Game :=
  let j := (4 * i)%nat in
  let g := set_indices (indices g ++ quad_indices j) g in
  let g := set_vertices (vertices g ++ quad_vertices uv) g in
  let '(p, g) := Particle_init c i g in
  set_particles (particles g ++ [p]) g.

Definition make_particles (c : Cls) (num : nat) (g : Game) : result Game :=
  let count := length (particles g) in
  match uvmap g !! tex_name c with
  | None => Raise KeyError
  | Some uv => Ok (foldl (make_particle c uv) g (seq count num))
  end.

Fixpoint pass (nap : Qc) (todo : list nat) (g : Game) : result Game :=
  match todo with
  | [] => Ok g
  | i :: todo' =>
      p ← deref i g;
      '(p, g) ← advance nap p g;
      let g := store i p g in
      pass nap todo' (update p g)
  end.

Definition PSWidget_update_glsl (nap : Qc) (g : Game) : result Game :=
  pass nap (seq 0 (length (particles g))) g.

Definition initialize (g : Game) : result Game :=
  g ← make_particles CStar 300 g;
  g ← make_particles CTrail 200 g;
  g ← make_particles CPlayer 1 g;
  g ← make_particles CEnemy 25 g;
  g ← make_particles CBullet 25 g;
  Ok (set_bullets (last_positions 25 (length (particles g))) g).

Definition Game_update_glsl (nap : Qc) (mouse_pos : Qc * Qc) (g : Game)
  : result Game :=
  let g := set_player mouse_pos.1 mouse_pos.2 g in
  let g := if firing g then set_fire_delay (fire_delay g - nap) g else g in
  let g := set_spawn_delay (spawn_delay g - nap) g in
  PSWidget_update_glsl nap g.

Definition step (ev : event) (g : Game) : result Game :=
  match ev with
  | Tick nap mouse_pos => Game_update_glsl nap mouse_pos g
  | TouchDown => Ok (on_touch_down g)
  | TouchUp => Ok (on_touch_up g)
  end.

Fixpoint run (evs : list event) (g : Game) : result Game :=
  match evs with
  | [] => Ok g
  | ev :: evs' => g ← step ev g; run evs' g
  end.

End FixedReset.

(** ** Predicates of the statements *)

(** The layout that [make_particles] builds: four vertex records of
    [vsize] scalars per pooled particle, the particle at position [i]
    owning the records from [4 * i * vsize] on. *)
Definition pool_layout (g : Game) : Prop :=
  length (vertices g) = (4 * vsize * length (particles g))%nat
  ∧ ∀ (i : nat) p,
      particles g !! i = Some p → base_i p = (4 * i * vsize)%nat.

(** [bullets] refers to instances of [Bullet], each of them later in the
    pool than every [Enemy]: the order in which [initialize] populates. *)
Definition bullets_after_enemies (g : Game) : Prop :=
  ∀ b : nat, b ∈ bullets g →
    (∃ p, particles g !! b = Some p ∧ class_of (sub p) = CBullet)
    ∧ ∀ (i : nat) p,
        particles g !! i = Some p → class_of (sub p) = CEnemy → (i < b)%nat.

Definition well_formed (g : Game) : Prop :=
  pool_layout g ∧ bullets_after_enemies g.

(** The slice of particle [p] holds its [(x, y, size)] in each record. *)
Definition slice_synced (p : Particle) (vs : list Qc) : Prop :=
  ∀ k : nat, (k < 4)%nat →
    vs !! (base_i p + k * vsize)%nat = Some (x p)
    ∧ vs !! (base_i p + k * vsize + 1)%nat = Some (y p)
    ∧ vs !! (base_i p + k * vsize + 2)%nat = Some (size p).

Definition buffer_synced (g : Game) : Prop :=
  ∀ (i : nat) p, particles g !! i = Some p → slice_synced p (vertices g).

(** Two particles that differ at most in the [v] of an inactive [Enemy]. *)
Definition sub_sim (s t : subtype) : Prop :=
  s = t ∨ ∃ v w, s = Enemy false v ∧ t = Enemy false w.

Definition particle_sim (p q : Particle) : Prop :=
  base_i p = base_i q ∧ x p = x q ∧ y p = y q ∧ size p = size q
  ∧ sub_sim (sub p) (sub q).

(** Two widgets that differ at most in such particles. *)
Definition game_sim (g h : Game) : Prop :=
  h = set_particles (particles h) g
  ∧ Forall2 particle_sim (particles g) (particles h).

(** What an observer of positions and of the renderer's input sees. *)
Definition observation (g : Game)
  : list Qc * list nat * list (Qc * Qc * Qc * result bool) :=
  (vertices g, indices g,
   (λ p, (x p, y p, size p, get_active p)) <$> particles g).

(** What a method may change of a particle: nothing of its slice or class. *)
Definition same_class (p q : Particle) : Prop :=
  base_i q = base_i p ∧ class_of (sub q) = class_of (sub p).

(** What [advance] may change of the widget: the pool, the cooldowns and
    the cursor of the generator. *)
Definition frame (g g' : Game) : Prop :=
  g' = set_particles (particles g')
         (set_cursor (cursor g')
            (set_fire_delay (fire_delay g')
               (set_spawn_delay (spawn_delay g') g))).

(** Two runs that end alike: related results, or the same exception. *)
Definition result_rel {A B : Type} (R : A → B → Prop)
    (r : result A) (s : result B) : Prop :=
  match r, s with
  | Ok a, Ok b => R a b
  | Raise e, Raise e' => e = e'
  | _, _ => False
  end.

(** The scalar that [update] writes at position [j] of the vertex array
    for particle [p], if any. *)
Definition slot_value (p : Particle) (j : nat) : option Qc :=
  if decide (base_i p ≤ j < base_i p + 4 * vsize)%nat then
    match ((j - base_i p) `mod` vsize)%nat with
    | 0%nat => Some (x p)
    | 1%nat => Some (y p)
    | 2%nat => Some (size p)
    | _ => None
    end
  else None.

(** An inactive bullet or enemy waits at the off-screen position. *)
Definition off_screen (p : Particle) : Prop :=
  get_active p = Ok false → x p = num (-100) ∧ y p = num (-100).

(** A star is on one of the three planes and has the size of its plane. *)
Definition star_ok (p : Particle) : Prop :=
  ∀ n, sub p = Star n → (1 ≤ n ≤ 3)%Z ∧ size p = frac 1 10 * num n.

(** A bullet of the pool that [check_hit] passes over: inactive, or not
    within 30 of the enemy. *)
Definition bullet_missed (p : Particle) (g : Game) (b : nat) : Prop :=
  ∃ bp a, particles g !! b = Some bp ∧ get_active bp = Ok a
          ∧ (a = false
             ∨ hypot_lt (x bp - x p) (y bp - y p) (num 30) = false).

(** The vertical speed of an enemy is one that [randint(-100, 100)] gives,
    or the class attribute [v = 0]. *)
Definition speed_ok (p : Particle) : Prop :=
  ∀ a v, sub p = Enemy a v → (-100 ≤ v ≤ 100)%Z.

(** A trail, bullet or enemy as its constructor leaves it. *)
Definition dormant (p : Particle) : Prop :=
  match sub p with
  | Trail => size p = 0
  | Bullet a => a = false ∧ x p = num (-100) ∧ y p = num (-100)
  | Enemy a v => a = false ∧ v = 0%Z ∧ x p = num (-100) ∧ y p = num (-100)
  | _ => True
  end.

(** ** [demos/glslatlas.py]

    The demo has a [load_atlas] of its own, which opens the image under the
    name the manifest gives, and a widget that draws two sprites. *)

Module Demo.

Definition load_atlas (atlas : atlas_dict) (Image : string → Texture)
  : result (Texture * gmap string UVMapping) :=
  '(item, _) ← popitem atlas;
  let '(tex_name, mapping) := item in
  let tex := Image tex_name in
  let '(tex_width, tex_height) := tex_size tex in
  uvmap ← load_items mapping tex_width tex_height ∅;
  Ok (tex, uvmap).

Definition fmt : list (string * nat * string) :=
  [("vCenter", 2%nat, "float"); ("vPosition", 2%nat, "float");
   ("vTexCoords0", 2%nat, "float")]%string.

(** [uvmap[name]] *)
Definition getitem (uvmap : gmap string UVMapping) (name : string)
  : result UVMapping :=
  match uvmap !! name with
  | Some uv => Ok uv
  | None => Raise KeyError
  end.

(** The arguments of the [Mesh] instruction. *)
Record Mesh := mkMesh {
  mesh_fmt : list (string * nat * string);
  mesh_vertices : list Qc;
  mesh_indices : list nat;
  mesh_texture : Texture
}.

(** [GlslAtlas.__init__], with the decoded [icons.atlas]. *)
Definition GlslAtlas_init (atlas : atlas_dict) (Image : string → Texture)
  : result Mesh :=
  '(texture, uvmap) ← load_atlas atlas Image;
  a ← getitem uvmap "clock_icon";
  let vertices :=
    [ num 128; num 128; - su a; - sv a; u0 a; v1 a;
      num 128; num 128;   su a; - sv a; u1 a; v1 a;
      num 128; num 128;   su a;   sv a; u1 a; v0 a;
      num 128; num 128; - su a;   sv a; u0 a; v0 a ] in
  let indices := [0; 1; 2; 2; 3; 0]%nat in
  b ← getitem uvmap "pencil_icon";
  let vertices :=
    vertices ++
    [ num 256; num 256; - su b; - sv b; u0 b; v1 b;
      num 256; num 256;   su b; - sv b; u1 b; v1 b;
      num 256; num 256;   su b;   sv b; u1 b; v0 b;
      num 256; num 256; - su b;   sv b; u0 b; v0 b ] in
  let indices := indices ++ [4; 5; 6; 6; 7; 4]%nat in
  Ok (mkMesh fmt vertices indices texture).

End Demo.

(** * Properties *)

(** ** Tactics and arithmetic of [Qc] *)

Ltac qc_eq := apply Qc_is_canon; reflexivity.

(** Closed comparisons of rationals, by evaluation. *)
Ltac qc_cmp := vm_compute; first [reflexivity | discriminate].
Ltac qc_neq :=
  let H := fresh in
  intros H; apply (f_equal this) in H; vm_compute in H; discriminate H.

Lemma frac_half (w : Qc) : frac 5 10 * w = w / 2.
Proof.
  replace (frac 5 10) with (/ 2) by qc_eq.
  unfold Qcdiv. apply Qcmult_comm.
Qed.

Lemma Qc_pos_ne_0 (a : Qc) : 0 < a → a ≠ 0.
Proof. intros Ha ->. by apply (Qclt_not_eq 0 0). Qed.

(** ** [load_atlas] *)

Lemma py_div_ok (a b : Qc) : b ≠ 0 → py_div a b = Ok (a / b).
Proof. intros Hb. unfold py_div. by rewrite decide_False. Qed.

Lemma uv_of_rect_ok (x0 y0 w h W H : Qc) :
  W ≠ 0 → H ≠ 0 →
  uv_of_rect (x0, y0, w, h) W H
  = Ok (mkUV (x0 / W) (1 - (y0 + h) / H) ((x0 + w) / W) (1 - y0 / H)
             (w / 2) (h / 2)).
Proof.
  intros HW HH. unfold uv_of_rect.
  rewrite !py_div_ok by done. simpl. by rewrite !frac_half.
Qed.

Lemma uv_of_rect_raise (val : rect) (W H : Qc) :
  W = 0 ∨ H = 0 → uv_of_rect val W H = Raise ZeroDivisionError.
Proof.
  destruct val as [[[x0 y0] w] h]. unfold uv_of_rect, py_div.
  intros HWH.
  destruct (decide (W = 0)); simpl; [done|].
  destruct (decide (H = 0)); simpl; [done|]. by destruct HWH.
Qed.

Lemma load_items_keys (items : sprite_dict) (W H : Qc)
    (m m' : gmap string UVMapping) :
  load_items items W H m = Ok m' →
  ∀ name, is_Some (m' !! name) ↔ name ∈ items.*1 ∨ is_Some (m !! name).
Proof.
  revert m. induction items as [|[n val] items IH]; intros m Hl name.
  - simpl in Hl. injection Hl as <-. rewrite fmap_nil, elem_of_nil. tauto.
  - simpl in Hl. destruct (uv_of_rect val W H) as [uv|e]; [|done].
    simpl in Hl. rewrite (IH _ Hl name), fmap_cons, elem_of_cons. simpl.
    rewrite lookup_insert. case_decide; subst.
    + split; [intros _; by left; left | intros _; right; by eexists].
    + split; [intros [?|?]; [left; by right | by right]|].
      intros [[?|?]|?]; [done | by left | by right].
Qed.

Lemma load_items_other (items : sprite_dict) (W H : Qc)
    (m m' : gmap string UVMapping) (name : string) :
  load_items items W H m = Ok m' → name ∉ items.*1 → m' !! name = m !! name.
Proof.
  revert m. induction items as [|[n val] items IH]; intros m Hl Hn.
  - simpl in Hl. by injection Hl as <-.
  - simpl in Hl. destruct (uv_of_rect val W H) as [uv|e]; [|done].
    simpl in Hl. rewrite fmap_cons, not_elem_of_cons in Hn.
    destruct Hn as [Hne Hn]. rewrite (IH _ Hl Hn).
    by rewrite lookup_insert_ne.
Qed.

Lemma load_items_total (items : sprite_dict) (W H : Qc)
    (m : gmap string UVMapping) :
  W ≠ 0 → H ≠ 0 → ∃ m', load_items items W H m = Ok m'.
Proof.
  intros HW HH. revert m.
  induction items as [|[n [[[x0 y0] w] h]] items IH]; intros m.
  - by eexists.
  - cbn [load_items]. rewrite uv_of_rect_ok by done. simpl. apply IH.
Qed.

Lemma load_items_lookup (items : sprite_dict) (W H : Qc)
    (m m' : gmap string UVMapping) (name : string) (x0 y0 w h : Qc) :
  W ≠ 0 → H ≠ 0 →
  NoDup items.*1 →
  (name, (x0, y0, w, h)) ∈ items →
  load_items items W H m = Ok m' →
  m' !! name
  = Some (mkUV (x0 / W) (1 - (y0 + h) / H) ((x0 + w) / W) (1 - y0 / H)
               (w / 2) (h / 2)).
Proof.
  intros HW HH. revert m.
  induction items as [|[n val] items IH]; intros m Hnd Hin Hl.
  - by apply elem_of_nil in Hin.
  - rewrite fmap_cons, NoDup_cons in Hnd. destruct Hnd as [Hfresh Hnd].
    simpl in Hfresh. apply elem_of_cons in Hin as [Heq | Hin].
    + injection Heq as <- <-. cbn [load_items] in Hl.
      rewrite uv_of_rect_ok in Hl by done. simpl in Hl.
      rewrite (load_items_other _ _ _ _ _ _ Hl Hfresh).
      by rewrite lookup_insert_eq.
    + simpl in Hl. destruct (uv_of_rect val W H) as [uv|e]; [|done].
      simpl in Hl. by apply (IH _ Hnd Hin Hl).
Qed.

Lemma popitem_snoc {V : Type} (d : list (string * V)) (kv : string * V) :
  popitem (d ++ [kv]) = Ok (kv, d).
Proof.
  unfold popitem. rewrite reverse_snoc. by rewrite reverse_involutive.
Qed.

Lemma popitem_nil {V : Type} : popitem ([] : list (string * V)) = Raise KeyError.
Proof. done. Qed.

(** C1.  For a manifest whose (last inserted) top-level entry maps sprite
    names to rectangles and a texture of size [(W, H)] with [W, H > 0],
    [load_atlas] returns a table that maps every sprite [(x0, y0, w, h)] to
    [u0 = x0/W], [u1 = (x0+w)/W], [v0 = 1-(y0+h)/H], [v1 = 1-y0/H],
    [su = w/2], [sv = h/2]; and the manifest
    [{"tex.png": {"star": [0,0,10,10]}}] with a 100 x 100 texture gives
    [UVMapping(0, 0.9, 0.1, 1, 5, 5)]. *)
Theorem load_atlas_uvmapping :
  (∀ (rest : atlas_dict) (tex : string) (mapping : sprite_dict)
     (Image : string → Texture) (name : string) (x0 y0 w h W H : Qc),
     NoDup mapping.*1 →
     tex_size (Image ("assets/images/" +:+ tex)) = (W, H) →
     0 < W → 0 < H →
     (name, (x0, y0, w, h)) ∈ mapping →
     ∃ uvmap,
       load_atlas (rest ++ [(tex, mapping)]) Image
       = Ok (Image ("assets/images/" +:+ tex), uvmap)
       ∧ uvmap !! name
         = Some (mkUV (x0 / W) (1 - (y0 + h) / H)
                      ((x0 + w) / W) (1 - y0 / H) (w / 2) (h / 2)))
  ∧ (∃ tex uvmap,
       load_atlas [("tex.png", [("star", (0, 0, num 10, num 10))])]%string
                  (λ path, mkTexture path (num 100, num 100))
       = Ok (tex, uvmap)
       ∧ uvmap !! "star"%string
         = Some (mkUV 0 (frac 9 10) (frac 1 10) 1 (num 5) (num 5))).
Proof.
  split.
  - intros rest tex mapping Image name x0 y0 w h W H Hnd Hsz HW HH Hin.
    apply Qc_pos_ne_0 in HW, HH.
    destruct (load_items_total mapping W H ∅ HW HH) as [m' Hm'].
    exists m'. split.
    + unfold load_atlas. rewrite popitem_snoc. simpl.
      rewrite Hsz, Hm'. done.
    + by apply (load_items_lookup mapping W H ∅ m' name).
  - eexists _, _. split; [reflexivity|].
    vm_compute. do 2 f_equal; qc_eq.
Qed.

(** The theorem above at the manifest of the scenario. *)
Lemma load_atlas_uvmapping_witness :
  ∃ uvmap,
    load_atlas [("tex.png", [("star", (0, 0, num 10, num 10))])]%string
               (λ path, mkTexture path (num 100, num 100))
    = Ok (mkTexture "assets/images/tex.png" (num 100, num 100), uvmap)
    ∧ uvmap !! "star"%string
      = Some (mkUV (0 / num 100) (1 - (0 + num 10) / num 100)
                   ((0 + num 10) / num 100) (1 - 0 / num 100)
                   (num 10 / 2) (num 10 / 2)).
Proof.
  apply (proj1 load_atlas_uvmapping []
           "tex.png"%string [("star"%string, (0, 0, num 10, num 10))]
           (λ path, mkTexture path (num 100, num 100))).
  - simpl. apply NoDup_singleton.
  - reflexivity.
  - reflexivity.
  - reflexivity.
  - apply list_elem_of_singleton. reflexivity.
Defined.




(** ** The methods of the subclasses *)

(** C7 at the code: [Enemy.reset] deactivates the instance and moves it to
    [(-100, -100)], but leaves [self.v] as it was; an [Enemy] with [v = 50]
    still has [v = 50] after [reset]. *)
Theorem Enemy_reset_keeps_v :
  (∀ created b px py s a w g,
     Enemy_reset created (mkParticle b px py s (Enemy a w)) g
     = (mkParticle b (num (-100)) (num (-100)) s (Enemy false w), g)
     ∧ reset created (mkParticle b px py s (Enemy a w)) g
       = (mkParticle b (num (-100)) (num (-100)) s (Enemy false w), g))
  ∧ ∀ g, get_v (reset false (mkParticle 0 (num 100) (num 50) 1
                               (Enemy true 50)) g).1 = 50%Z.
Proof. split; [intros; split|]; reflexivity. Qed.

(** C8, as the code has it.  Activation adds the constant to the cooldown:
    an inactive [Bullet] that activates leaves [fire_delay + 0.3333], an
    inactive [Enemy] that activates leaves [spawn_delay + 1]. *)
Theorem activation_adds_to_cooldown :
  (∀ nap p g,
     sub p = Bullet false → firing g = true → fire_delay g ≤ 0 →
     ∃ p', Bullet_advance nap p g
           = Ok (p', set_fire_delay (fire_delay g + frac 3333 10000) g)
           ∧ sub p' = Bullet true)
  ∧ (∀ nap p g w,
       sub p = Enemy false w → spawn_delay g ≤ 0 →
       ∃ p' g', Enemy_advance nap p g = Ok (p', g')
                ∧ get_active p' = Ok true
                ∧ spawn_delay g' = spawn_delay g + 1).
Proof.
  split.
  - intros nap p g Hs Hf Hd. unfold Bullet_advance, get_active.
    rewrite Hs. simpl. rewrite Hf, bool_decide_true by done. simpl.
    eexists. split; [reflexivity|]. unfold set_active. by rewrite Hs.
  - intros nap p g w Hs Hd. unfold Enemy_advance, get_active.
    rewrite Hs. simpl. rewrite decide_True by done.
    eexists _, _. split; [reflexivity|]. unfold set_active, set_v.
    rewrite Hs. simpl. done.
Qed.

Lemma activation_adds_to_cooldown_witness :
  let g := mkGame (num 800) (num 600) ∅ [] [] [] [] 0 0 true
                  (frac (-1) 10) (frac (-1) 4) (λ _, 7%N) 0 in
  (∃ p', Bullet_advance (frac 1 60) (mkParticle 28 0 0 1 (Bullet false)) g
         = Ok (p', set_fire_delay (fire_delay g + frac 3333 10000) g)
         ∧ sub p' = Bullet true)
  ∧ (∃ p' g', Enemy_advance (frac 1 60)
                (mkParticle 0 0 0 1 (Enemy false 0)) g = Ok (p', g')
              ∧ get_active p' = Ok true
              ∧ spawn_delay g' = spawn_delay g + 1).
Proof.
  split.
  - apply (proj1 activation_adds_to_cooldown); [reflexivity ..|qc_cmp].
  - apply (proj2 activation_adds_to_cooldown _ _ _ 0%Z);
      [reflexivity|qc_cmp].
Defined.

(** C8 fails on the code: a [Bullet] that activates at [fire_delay = -0.1]
    leaves a [fire_delay] below [0.3333], and an [Enemy] that activates at
    [spawn_delay = -0.25] leaves a [spawn_delay] below [1]. *)
Lemma cooldown_not_the_constant :
  let g := mkGame (num 800) (num 600) ∅ [] [] [] [] 0 0 true
                  (frac (-1) 10) (frac (-1) 4) (λ _, 7%N) 0 in
  (∃ p' g', Bullet_advance (frac 1 60) (mkParticle 28 0 0 1 (Bullet false)) g
            = Ok (p', g')
            ∧ sub p' = Bullet true
            ∧ fire_delay g' < frac 3333 10000
            ∧ fire_delay g' ≠ frac 3333 10000)
  ∧ (∃ p' g', Enemy_advance (frac 1 60)
                (mkParticle 0 0 0 1 (Enemy false 0)) g = Ok (p', g')
              ∧ get_active p' = Ok true
              ∧ spawn_delay g' < 1
              ∧ spawn_delay g' ≠ 1).
Proof.
  split; eexists _, _; (split; [reflexivity|]); (split; [reflexivity|]);
    (split; [qc_cmp|]); qc_neq.
Qed.

Lemma num_pos (n : Z) : (0 < n)%Z → 0 < num n.
Proof.
  intros Hn. unfold num.
  pose proof (proj1 (Z2Qc_inj_lt 0 n) Hn) as H. by rewrite Z2Qc_inj_0 in H.
Qed.

Lemma Qc_zero_minus_neg (a : Qc) : 0 < a → 0 - a < 0.
Proof.
  intros Ha. apply Qclt_minus_iff.
  by replace (0 + - (0 - a)) with a by ring.
Qed.

Lemma Star_reset_respawn (p : Particle) (g : Game) :
  x (Star_reset false p g).1 = width g.
Proof. reflexivity. Qed.

(** C9.  A [Star] (its [plane] is one of 1, 2, 3) with [x = 0] is reset by
    the next [advance(nap)], for every [nap > 0]: [advance] first subtracts
    [20 * plane * nap] and then calls [reset()] because the new [x] is
    below 0; that reset puts the star at [x = width].  The guard is
    strict: a star whose new [x] is exactly 0 is not reset. *)
Theorem Star_advance_at_zero :
  (∀ nap b py s plane g,
     (1 ≤ plane ≤ 3)%Z → 0 < nap →
     let p := mkParticle b 0 py s (Star plane) in
     advance nap p g
     = Ok (Star_reset false (set_x (0 - num (20 * plane) * nap) p) g)
     ∧ ∃ p' g', advance nap p g = Ok (p', g') ∧ x p' = width g)
  ∧ (∀ nap b px py s plane g,
       px - num (20 * plane) * nap = 0 →
       advance nap (mkParticle b px py s (Star plane)) g
       = Ok (mkParticle b 0 py s (Star plane), g)).
Proof.
  split.
  - intros nap b py s plane g Hpl Hnap p.
    assert (Hlt : 0 - num (20 * plane) * nap < 0).
    { apply Qc_zero_minus_neg, Qcmult_pos_pos; [apply num_pos; lia | done]. }
    assert (Hadv : advance nap p g
      = Ok (Star_reset false (set_x (0 - num (20 * plane) * nap) p) g)).
    { unfold advance, Star_advance. simpl. by rewrite decide_True. }
    split; [done|]. rewrite Hadv.
    destruct (Star_reset false (set_x (0 - num (20 * plane) * nap) p) g)
      as [p' g'] eqn:Hr.
    exists p', g'. split; [done|].
    change p' with (p', g').1. rewrite <-Hr. apply Star_reset_respawn.
  - intros nap b px py s plane g Hx. unfold advance, Star_advance.
    cbn [class_of sub x set_x get_plane base_i y size].
    rewrite Hx. rewrite decide_False; [done|].
    intros Hlt. by apply (Qclt_not_eq 0 0).
Qed.

Lemma Star_advance_at_zero_witness :
  let g := mkGame (num 800) (num 600) ∅ [] [] [] [] 0 0 false 0 1
                  (λ _, 7%N) 0 in
  let p := mkParticle 0 0 (num 10) (frac 1 5) (Star 2) in
  advance (frac 1 60) p g
  = Ok (Star_reset false (set_x (0 - num (20 * 2) * frac 1 60) p) g)
  ∧ ∃ p' g', advance (frac 1 60) p g = Ok (p', g') ∧ x p' = width g.
Proof.
  apply (proj1 Star_advance_at_zero (frac 1 60) 0%nat (num 10) (frac 1 5) 2%Z).
  - lia.
  - reflexivity.
Defined.

(** ** [Enemy.check_hit] *)

Lemma deref_lookup (i : nat) (p : Particle) (g : Game) :
  particles g !! i = Some p → deref i g = Ok p.
Proof. unfold deref. by intros ->. Qed.

(** C6, as the code has it.  The pool starts with an active [Enemy] at
    [(100, 50)] with [v = 50] and an active [Bullet] at [(100, 50)], and
    [bullets] refers to that bullet.  If the player is within 60 of the
    enemy, [advance(0.01)] on the enemy resets the enemy and changes
    nothing else: [check_hit] returns on the body collision before it
    looks at the bullets, so the bullet stays active where it is.  If the
    player is not within 60, the enemy is reset and that bullet is reset
    too.  In both cases no other particle of the pool changes. *)
Theorem Enemy_advance_collision :
  ∀ g be se bb sb rest,
    let e := mkParticle be (num 100) (num 50) se (Enemy true 50) in
    let b := mkParticle bb (num 100) (num 50) sb (Bullet true) in
    let e' := mkParticle be (num (-100)) (num (-100)) se (Enemy false 50) in
    let b' := mkParticle bb (num (-100)) (num (-100)) sb (Bullet false) in
    particles g = e :: b :: rest →
    bullets g = [1%nat] →
    (hypot_lt (player_x g - num 100) (player_y g - num 50) (num 60) = true →
     advance (frac 1 100) e g = Ok (e', g)
     ∧ particles (store 0 e' g) = e' :: b :: rest)
    ∧ (hypot_lt (player_x g - num 100) (player_y g - num 50) (num 60) = false →
       ∃ g', advance (frac 1 100) e g = Ok (e', g')
             ∧ particles (store 0 e' g') = e' :: b' :: rest
             ∧ g' = set_particles (e :: b' :: rest) g).
Proof.
  intros g be se bb sb rest e b e' b' Hpool Hbul. subst e b e' b'.
  assert (Hnear : hypot_lt (num 100 - num 100) (num 50 - num 50) (num 30)
                  = true) by (vm_compute; reflexivity).
  split; intros Hplayer.
  - unfold advance, Enemy_advance, Enemy_check_hit.
    cbn [class_of sub get_active x y mbind result_bind].
    rewrite Hplayer. cbn [mbind result_bind]. split; [done|].
    unfold store. by rewrite Hpool.
  - unfold advance, Enemy_advance, Enemy_check_hit.
    cbn [class_of sub get_active x y mbind result_bind].
    rewrite Hplayer, Hbul. cbn [scan_bullets].
    erewrite (deref_lookup 1) by (by rewrite Hpool).
    cbn [mbind result_bind get_active sub negb x y].
    rewrite Hnear. cbn [reset Bullet_reset class_of sub mbind result_bind].
    eexists. split; [reflexivity|]. unfold store. cbn [particles set_particles].
    rewrite Hpool. by destruct g.
Qed.

Lemma Enemy_advance_collision_witness :
  let e := mkParticle 0 (num 100) (num 50) 1 (Enemy true 50) in
  let b := mkParticle 28 (num 100) (num 50) 1 (Bullet true) in
  let e' := mkParticle 0 (num (-100)) (num (-100)) 1 (Enemy false 50) in
  let b' := mkParticle 28 (num (-100)) (num (-100)) 1 (Bullet false) in
  let star := mkParticle 56 (num 7) (num 9) (frac 1 5) (Star 2) in
  let near := mkGame (num 800) (num 600) ∅ [] [] [e; b; star] [1%nat]
                     (num 100) (num 50) false 0 1 (λ _, 7%N) 0 in
  let far := mkGame (num 800) (num 600) ∅ [] [] [e; b; star] [1%nat]
                    (num 500) (num 500) false 0 1 (λ _, 7%N) 0 in
  (advance (frac 1 100) e near = Ok (e', near)
   ∧ particles (store 0 e' near) = [e'; b; star])
  ∧ (∃ g', advance (frac 1 100) e far = Ok (e', g')
           ∧ particles (store 0 e' g') = [e'; b'; star]
           ∧ g' = set_particles [e; b'; star] far).
Proof.
  intros e b e' b' star near far. split.
  - apply (proj1 (Enemy_advance_collision near 0%nat 1 28%nat 1 [star]
                    eq_refl eq_refl)).
    vm_compute. reflexivity.
  - apply (proj2 (Enemy_advance_collision far 0%nat 1 28%nat 1 [star]
                    eq_refl eq_refl)).
    vm_compute. reflexivity.
Defined.

(** C6 fails on the code: with the player on the enemy (distance 0), the
    enemy is reset but the colliding bullet is still active at
    [(100, 50)] after the call. *)
Lemma body_collision_keeps_bullet :
  let e := mkParticle 0 (num 100) (num 50) 1 (Enemy true 50) in
  let b := mkParticle 28 (num 100) (num 50) 1 (Bullet true) in
  let g := mkGame (num 800) (num 600) ∅ [] [] [e; b] [1%nat]
                  (num 100) (num 50) false 0 1 (λ _, 7%N) 0 in
  ∃ e' g', advance (frac 1 100) e g = Ok (e', g')
           ∧ get_active e' = Ok false
           ∧ particles (store 0 e' g') !! 1%nat = Some b
           ∧ get_active b = Ok true.
Proof. eexists _, _. repeat split; reflexivity. Qed.

(** ** [Particle.update] and the vertex array *)

Lemma slice_assign_length (i : nat) (a b c : Qc) (l : list Qc) :
  (i + 3 ≤ length l)%nat →
  length (slice_assign i (i + 3) [a; b; c] l) = length l.
Proof.
  intros Hi. unfold slice_assign.
  rewrite !length_app, length_take, length_drop. simpl. lia.
Qed.

Lemma slice_assign_lookup (i : nat) (a b c : Qc) (l : list Qc) (j : nat) :
  (i + 3 ≤ length l)%nat →
  slice_assign i (i + 3) [a; b; c] l !! j
  = if decide (j = i) then Some a
    else if decide (j = i + 1)%nat then Some b
    else if decide (j = i + 2)%nat then Some c
    else l !! j.
Proof.
  intros Hi. unfold slice_assign.
  assert (Hlen : length (take i l) = i) by (rewrite length_take; lia).
  destruct (decide (j < i)%nat) as [Hlt | Hge].
  - rewrite lookup_app_l by lia. rewrite lookup_take_lt by done.
    repeat case_decide; try lia; done.
  - rewrite lookup_app_r by lia. rewrite Hlen.
    destruct (j - i)%nat as [|[|[|k]]] eqn:Hk; simpl.
    + repeat case_decide; try lia; done.
    + repeat case_decide; try lia; done.
    + repeat case_decide; try lia; done.
    + rewrite lookup_drop. repeat case_decide; try lia.
      f_equal. lia.
Qed.

Lemma py_range_quad (b : nat) :
  py_range b (b + 4 * vsize) vsize
  = [b; b + vsize; b + 2 * vsize; b + 3 * vsize]%nat.
Proof.
  unfold py_range, vsize.
  replace (b + 4 * 7 - b + 7 - 1)%nat with 34%nat by lia.
  simpl. repeat f_equal; lia.
Qed.

(** The twelve scalars that [update] writes, latest write first. *)
Lemma update_lookup (p : Particle) (g : Game) (j : nat) :
  (base_i p + 4 * vsize ≤ length (vertices g))%nat →
  vertices (update p g) !! j
  = if decide (j = base_i p + 3 * vsize)%nat then Some (x p)
    else if decide (j = base_i p + 3 * vsize + 1)%nat then Some (y p)
    else if decide (j = base_i p + 3 * vsize + 2)%nat then Some (size p)
    else if decide (j = base_i p + 2 * vsize)%nat then Some (x p)
    else if decide (j = base_i p + 2 * vsize + 1)%nat then Some (y p)
    else if decide (j = base_i p + 2 * vsize + 2)%nat then Some (size p)
    else if decide (j = base_i p + vsize)%nat then Some (x p)
    else if decide (j = base_i p + vsize + 1)%nat then Some (y p)
    else if decide (j = base_i p + vsize + 2)%nat then Some (size p)
    else if decide (j = base_i p) then Some (x p)
    else if decide (j = base_i p + 1)%nat then Some (y p)
    else if decide (j = base_i p + 2)%nat then Some (size p)
    else vertices g !! j.
Proof.
  intros Hlen. unfold update. rewrite py_range_quad.
  unfold vsize in *. cbn [foldl vertices set_vertices].
  set (b := base_i p) in *.
  set (l1 := slice_assign b (b + 3) [x p; y p; size p] (vertices g)).
  assert (H1 : length l1 = length (vertices g))
    by (apply slice_assign_length; lia).
  set (l2 := slice_assign (b + 7) (b + 7 + 3) [x p; y p; size p] l1).
  assert (H2 : length l2 = length (vertices g))
    by (unfold l2; rewrite slice_assign_length; lia).
  set (l3 := slice_assign (b + 2 * 7) (b + 2 * 7 + 3) [x p; y p; size p] l2).
  assert (H3 : length l3 = length (vertices g))
    by (unfold l3; rewrite slice_assign_length; lia).
  rewrite slice_assign_lookup by lia.
  unfold l3. rewrite slice_assign_lookup by lia.
  unfold l2. rewrite slice_assign_lookup by lia.
  unfold l1. rewrite slice_assign_lookup by lia.
  done.
Qed.

Lemma update_length (p : Particle) (g : Game) :
  (base_i p + 4 * vsize ≤ length (vertices g))%nat →
  length (vertices (update p g)) = length (vertices g).
Proof.
  intros Hlen. unfold update. rewrite py_range_quad.
  unfold vsize in *. cbn [foldl vertices set_vertices].
  set (b := base_i p) in *.
  set (l1 := slice_assign b (b + 3) [x p; y p; size p] (vertices g)).
  assert (H1 : length l1 = length (vertices g))
    by (apply slice_assign_length; lia).
  set (l2 := slice_assign (b + 7) (b + 7 + 3) [x p; y p; size p] l1).
  assert (H2 : length l2 = length (vertices g))
    by (unfold l2; rewrite slice_assign_length; lia).
  set (l3 := slice_assign (b + 2 * 7) (b + 2 * 7 + 3) [x p; y p; size p] l2).
  assert (H3 : length l3 = length (vertices g))
    by (unfold l3; rewrite slice_assign_length; lia).
  rewrite slice_assign_length; lia.
Qed.

Lemma update_rest (p : Particle) (g : Game) :
  update p g = set_vertices (vertices (update p g)) g.
Proof. reflexivity. Qed.

(** [update] leaves alone every scalar outside the slice, and the
    local-offset and uv fields inside it. *)
Lemma update_other (p : Particle) (g : Game) (j : nat) :
  (base_i p + 4 * vsize ≤ length (vertices g))%nat →
  (j < base_i p ∨ base_i p + 4 * vsize ≤ j
   ∨ 3 ≤ (j - base_i p) `mod` vsize)%nat →
  vertices (update p g) !! j = vertices g !! j.
Proof.
  intros Hlen Hj. rewrite update_lookup by done. unfold vsize in *.
  repeat case_decide; try done; exfalso; subst j;
    destruct Hj as [Hj | [Hj | Hj]]; try lia.
  all: revert Hj;
    match goal with
    | |- (3 ≤ (?a - ?b) `mod` 7)%nat → _ =>
        let k := fresh "k" in
        remember (a - b)%nat as k eqn:Hk;
        assert (k < 28)%nat by lia;
        do 28 (destruct k as [|k]; [simpl; lia|]); lia
    end.
Qed.

Lemma update_synced (p : Particle) (g : Game) :
  (base_i p + 4 * vsize ≤ length (vertices g))%nat →
  slice_synced p (vertices (update p g)).
Proof.
  intros Hlen k Hk. rewrite !update_lookup by done. unfold vsize in *.
  destruct k as [|[|[|[|k]]]]; [| | | |lia];
    repeat split; repeat case_decide; try lia; done.
Qed.

(** ** What [reset] and [advance] change *)

Lemma same_class_refl (p : Particle) : same_class p p.
Proof. by split. Qed.

Lemma same_class_trans (p q r : Particle) :
  same_class p q → same_class q r → same_class p r.
Proof. intros [? ?] [? ?]. split; congruence. Qed.

Lemma frame_refl (g : Game) : frame g g.
Proof. by destruct g. Qed.

Lemma frame_trans (g1 g2 g3 : Game) : frame g1 g2 → frame g2 g3 → frame g1 g3.
Proof.
  unfold frame. intros H12 H23. rewrite H23, H12. by destruct g1.
Qed.

Lemma frame_fields (g g' : Game) :
  frame g g' →
  vertices g' = vertices g ∧ indices g' = indices g
  ∧ bullets g' = bullets g ∧ uvmap g' = uvmap g.
Proof. intros ->. by destruct g. Qed.

Lemma frame_store (i : nat) (p : Particle) (g : Game) : frame g (store i p g).
Proof. by destruct g. Qed.

Lemma reset_effect (created : bool) (p : Particle) (g : Game) :
  same_class p (reset created p g).1
  ∧ (reset created p g).2 = set_cursor (cursor (reset created p g).2) g.
Proof.
  destruct p as [b px py s [pl| | |a|a w]], created, g; by split.
Qed.

Lemma reset_active_effect (p : Particle) (g : Game) (a : bool) :
  get_active p = Ok a →
  same_class p (reset false p g).1 ∧ (reset false p g).2 = g.
Proof.
  destruct p as [b px py s [pl| | |a'|a' w]]; intros [=]; by split.
Qed.

Lemma scan_bullets_effect (p : Particle) (bs : list nat) (g : Game)
    (hit : bool) (g' : Game) :
  scan_bullets p bs g = Ok (hit, g') →
  (hit = false ∧ g' = g)
  ∨ (hit = true
     ∧ ∃ b bp bp', b ∈ bs ∧ particles g !! b = Some bp
                   ∧ same_class bp bp' ∧ g' = store b bp' g).
Proof.
  induction bs as [|b bs IH]; cbn [scan_bullets].
  - intros [= <- <-]. by left.
  - unfold deref. destruct (particles g !! b) as [bp|] eqn:Hb; [|done].
    cbn [mbind result_bind].
    destruct (get_active bp) as [a|] eqn:Ha; [|done].
    cbn [mbind result_bind].
    assert (Hrec : scan_bullets p bs g = Ok (hit, g') →
      (hit = false ∧ g' = g)
      ∨ (hit = true
         ∧ ∃ b0 bp0 bp', b0 ∈ b :: bs ∧ particles g !! b0 = Some bp0
                         ∧ same_class bp0 bp' ∧ g' = store b0 bp' g)).
    { intros Hs. destruct (IH Hs) as [?|(? & b0 & bp0 & bp' & ? & ?)];
        [by left|]. right. split; [done|]. exists b0, bp0, bp'.
      split; [by apply elem_of_cons; right | done]. }
    destruct a; cbn [negb]; [|done].
    destruct (hypot_lt _ _ _); [|done].
    destruct (reset_active_effect bp g true Ha) as [Hcl Hg].
    destruct (reset false bp g) as [bp' g1]. cbn [fst snd] in *. subst g1.
    intros [= <- <-]. right. split; [done|]. exists b, bp, bp'.
    split; [by apply elem_of_cons; left | done].
Qed.

Lemma advance_effect (nap : Qc) (p : Particle) (g : Game)
    (p' : Particle) (g' : Game) :
  advance nap p g = Ok (p', g') →
  same_class p p' ∧ frame g g'
  ∧ (particles g' = particles g
     ∨ (class_of (sub p) = CEnemy
        ∧ ∃ b bp bp', b ∈ bullets g ∧ particles g !! b = Some bp
                      ∧ same_class bp bp'
                      ∧ particles g' = <[b := bp']> (particles g))).
Proof.
  unfold advance.
  destruct p as [b px py s [pl| | |a|a w]]; cbn [class_of sub].
  - intros [= Hadv]. revert Hadv. unfold Star_advance.
    cbn [x set_x get_plane sub base_i y size].
    case_decide; intros [= <- <-]; destruct g; repeat split; by left.
  - intros [= Hadv]. revert Hadv. unfold Trail_advance.
    cbn [x set_x get_plane sub base_i y size set_size].
    case_decide; intros [= <- <-]; destruct g; repeat split; by left.
  - intros [= <- <-]. destruct g; repeat split; by left.
  - unfold Bullet_advance. cbn [get_active sub mbind result_bind].
    destruct a.
    + cbn [x set_x sub base_i y size].
      case_decide; intros [= <- <-]; destruct g; repeat split; by left.
    + destruct (firing g && bool_decide (fire_delay g ≤ 0));
        intros [= <- <-]; destruct g; repeat split; by left.
  - unfold Enemy_advance. cbn [get_active sub mbind result_bind].
    destruct a.
    + unfold Enemy_check_hit. cbn [x y].
      destruct (hypot_lt (player_x g - px) (player_y g - py) (num 60)).
      { cbn [mbind result_bind]. intros [= <- <-].
        split; [done|]. split; [apply frame_refl | by left]. }
      destruct (scan_bullets _ (bullets g) g) as [[hit g1]|] eqn:Hscan;
        [|done].
      cbn [mbind result_bind].
      apply scan_bullets_effect in Hscan
        as [[-> ->] | (-> & b0 & bp0 & bp' & Hin & Hbp & Hcl & ->)].
      * cbn [x set_x sub base_i y size set_y get_v set_v].
        repeat case_decide; intros [= <- <-];
          (split; [done|]); (split; [apply frame_refl | by left]).
      * intros [= <- <-]. split; [done|]. split; [apply frame_store|].
        right. split; [done|]. by exists b0, bp0, bp'.
    + case_decide; intros [= <- <-]; destruct g; repeat split; by left.
Qed.

Lemma scan_bullets_total (p : Particle) (bs : list nat) (g : Game) :
  (∀ b, b ∈ bs →
     ∃ bp, particles g !! b = Some bp ∧ class_of (sub bp) = CBullet) →
  ∃ r, scan_bullets p bs g = Ok r.
Proof.
  induction bs as [|b bs IH]; intros Hbs; cbn [scan_bullets].
  - by eexists.
  - destruct (Hbs b) as (bp & Hb & Hcl); [by apply elem_of_cons; left|].
    rewrite (deref_lookup _ _ _ Hb). cbn [mbind result_bind].
    destruct bp as [bb bx by_ bsz [pl| | |a|a w]]; try done.
    cbn [get_active sub mbind result_bind].
    assert (Hrec : ∃ r, scan_bullets p bs g = Ok r).
    { apply IH. intros b0 Hb0. apply Hbs. by apply elem_of_cons; right. }
    destruct a; cbn [negb]; [|done].
    destruct (hypot_lt _ _ _); [|done]. by eexists.
Qed.

Lemma advance_total (nap : Qc) (p : Particle) (g : Game) :
  (∀ b, b ∈ bullets g →
     ∃ bp, particles g !! b = Some bp ∧ class_of (sub bp) = CBullet) →
  ∃ p' g', advance nap p g = Ok (p', g').
Proof.
  intros Hbs. unfold advance.
  destruct p as [b px py s [pl| | |a|a w]]; cbn [class_of sub].
  - destruct (Star_advance _ _ _); by eexists _, _.
  - destruct (Trail_advance _ _ _); by eexists _, _.
  - destruct (Player_advance _ _ _); by eexists _, _.
  - unfold Bullet_advance. cbn [get_active sub mbind result_bind].
    destruct a.
    + case_decide; [destruct (Bullet_reset _ _ _)|]; by eexists _, _.
    + destruct (_ && _); by eexists _, _.
  - unfold Enemy_advance. cbn [get_active sub mbind result_bind].
    destruct a.
    + unfold Enemy_check_hit. destruct (hypot_lt _ _ _).
      { cbn [mbind result_bind]. by eexists _, _. }
      destruct (scan_bullets_total
                  (mkParticle b px py s (Enemy true w)) (bullets g) g Hbs)
        as [[hit g1] ->].
      cbn [mbind result_bind]. destruct hit; [by eexists _, _|].
      repeat case_decide; by eexists _, _.
    + case_decide; [|by eexists _, _].
      cbn [set_active sub]. destruct (random g) as [r g1].
      destruct (randint _ _ g1) as [n g2]. by eexists _, _.
Qed.

(** ** The pass of [update_glsl] over the pool *)

Lemma Forall2_same_class_refl (ps : list Particle) : Forall2 same_class ps ps.
Proof.
  apply Forall2_same_length_lookup. split; [done|].
  intros i p q Hp Hq. rewrite Hp in Hq. injection Hq as <-.
  apply same_class_refl.
Qed.

Lemma Forall2_same_class_insert (ps qs : list Particle) (i : nat)
    (q q' : Particle) :
  Forall2 same_class ps qs → qs !! i = Some q → same_class q q' →
  Forall2 same_class ps (<[i := q']> qs).
Proof.
  intros HF Hq Hcl. apply Forall2_same_length_lookup in HF as [Hlen HF].
  apply Forall2_same_length_lookup. split; [by rewrite length_insert|].
  intros j p r Hp Hr. destruct (decide (i = j)) as [<- | Hne].
  - rewrite list_lookup_insert_eq in Hr by (by eapply lookup_lt_Some).
    injection Hr as <-. by eapply same_class_trans; [eapply HF|].
  - rewrite list_lookup_insert_ne in Hr by done. by eapply HF.
Qed.

Lemma well_formed_preserved (g g' : Game) :
  well_formed g →
  Forall2 same_class (particles g) (particles g') →
  bullets g' = bullets g →
  length (vertices g') = length (vertices g) →
  well_formed g'.
Proof.
  intros [[Hlen Hbase] Hbul] HF Hb Hv.
  pose proof (Forall2_length _ _ _ HF) as Hpl.
  split; [split|].
  - by rewrite Hv, <-Hpl.
  - intros i q Hq.
    destruct (Forall2_lookup_r _ _ _ _ _ HF Hq) as (p & Hp & Hb' & _).
    rewrite Hb'. by apply Hbase.
  - intros b Hin. rewrite Hb in Hin. destruct (Hbul b Hin) as [Hcls Hord].
    split.
    + destruct Hcls as (p & Hp & Hc).
      destruct (Forall2_lookup_l _ _ _ _ _ HF Hp) as (q & Hq & _ & Hc').
      exists q. split; [done | congruence].
    + intros i q Hq Hc.
      destruct (Forall2_lookup_r _ _ _ _ _ HF Hq) as (p & Hp & _ & Hc').
      apply (Hord i p Hp). congruence.
Qed.

Lemma well_formed_slice (g : Game) (i : nat) (p : Particle) :
  well_formed g → particles g !! i = Some p →
  base_i p = (4 * i * vsize)%nat
  ∧ (base_i p + 4 * vsize ≤ length (vertices g))%nat.
Proof.
  intros [[Hlen Hbase] _] Hp. pose proof (lookup_lt_Some _ _ _ Hp).
  rewrite (Hbase i p Hp), Hlen. unfold vsize. split; lia.
Qed.

Lemma well_formed_bullets (g : Game) :
  well_formed g →
  ∀ b, b ∈ bullets g →
    ∃ bp, particles g !! b = Some bp ∧ class_of (sub bp) = CBullet.
Proof. intros [_ Hbul] b Hin. by destruct (Hbul b Hin). Qed.

(** One iteration of the loop, for the particle at position [k]. *)
Lemma pass_step (nap : Qc) (k : nat) (p p' : Particle) (g g1 : Game) :
  well_formed g →
  particles g !! k = Some p →
  advance nap p g = Ok (p', g1) →
  let g2 := update p' (store k p' g1) in
  well_formed g2
  ∧ Forall2 same_class (particles g) (particles g2)
  ∧ bullets g2 = bullets g ∧ indices g2 = indices g
  ∧ length (vertices g2) = length (vertices g)
  ∧ particles g2 !! k = Some p'
  ∧ slice_synced p' (vertices g2)
  ∧ (∀ i, (i < k)%nat → particles g2 !! i = particles g !! i)
  ∧ (∀ j, (j < base_i p' ∨ base_i p' + 4 * vsize ≤ j)%nat →
          vertices g2 !! j = vertices g !! j).
Proof.
  intros Hwf Hp Hadv g2.
  destruct (advance_effect _ _ _ _ _ Hadv) as (Hcl & Hfr & Hpool).
  destruct (frame_fields _ _ Hfr) as (Hv & Hi & Hb & _).
  destruct (well_formed_slice _ _ _ Hwf Hp) as [Hbase Hfit].
  assert (Hbase' : base_i p' = base_i p) by apply Hcl.
  assert (Hv2 : vertices (store k p' g1) = vertices g) by done.
  assert (Hfit' : (base_i p' + 4 * vsize
                   ≤ length (vertices (store k p' g1)))%nat)
    by (rewrite Hv2, Hbase'; done).
  assert (HF1 : Forall2 same_class (particles g) (particles g1)).
  { destruct Hpool as [-> | (_ & b & bp & bp' & _ & Hbp & Hbcl & ->)].
    - apply Forall2_same_class_refl.
    - eapply Forall2_same_class_insert;
        [apply Forall2_same_class_refl | done..]. }
  assert (Hk1 : ∃ p1, particles g1 !! k = Some p1 ∧ same_class p1 p').
  { destruct (Forall2_lookup_l _ _ _ _ _ HF1 Hp) as (p1 & Hp1 & Hc1).
    exists p1. split; [done|]. destruct Hc1, Hcl. split; congruence. }
  destruct Hk1 as (p1 & Hp1 & Hc1).
  assert (HF2 : Forall2 same_class (particles g) (particles g2)).
  { change (particles g2) with (<[k := p']> (particles g1)).
    by eapply Forall2_same_class_insert. }
  assert (Hlen2 : length (vertices g2) = length (vertices g)).
  { unfold g2. rewrite update_length by done. by rewrite Hv2. }
  assert (Hlow : ∀ i, (i < k)%nat → particles g2 !! i = particles g !! i).
  { intros i Hik. change (particles g2) with (<[k := p']> (particles g1)).
    rewrite list_lookup_insert_ne by lia.
    destruct Hpool as [-> | (Hen & b & bp & bp' & Hin & Hbp & Hbcl & ->)];
      [done|].
    destruct Hwf as [_ Hbul]. destruct (Hbul b Hin) as [_ Hord].
    pose proof (Hord k p Hp Hen). rewrite list_lookup_insert_ne by lia.
    done. }
  split; [by apply (well_formed_preserved g)|].
  split; [done|]. split; [done|]. split; [done|]. split; [done|].
  split.
  { change (particles g2) with (<[k := p']> (particles g1)).
    apply list_lookup_insert_eq. by eapply lookup_lt_Some. }
  split; [by apply update_synced|]. split; [done|].
  intros j Hj. unfold g2. rewrite update_other by tauto. by rewrite Hv2.
Qed.

Lemma slice_synced_ext (p : Particle) (vs vs' : list Qc) :
  (∀ j, (base_i p ≤ j < base_i p + 4 * vsize)%nat → vs' !! j = vs !! j) →
  slice_synced p vs → slice_synced p vs'.
Proof.
  intros Hext Hs k Hk. destruct (Hs k Hk) as (H0 & H1 & H2).
  unfold vsize in *. rewrite !Hext by lia. done.
Qed.

Lemma pass_spec (nap : Qc) (n : nat) :
  ∀ (k : nat) (g : Game),
    well_formed g →
    (k + n)%nat = length (particles g) →
    (∀ i p, (i < k)%nat → particles g !! i = Some p →
            slice_synced p (vertices g)) →
    ∃ g', pass nap (seq k n) g = Ok g'
          ∧ well_formed g' ∧ buffer_synced g'
          ∧ Forall2 same_class (particles g) (particles g')
          ∧ bullets g' = bullets g ∧ indices g' = indices g
          ∧ length (vertices g') = length (vertices g).
Proof.
  induction n as [|n IH]; intros k g Hwf Hlen Hsync.
  - exists g. cbn [seq pass]. split; [done|]. split; [done|].
    split; [|by split; [apply Forall2_same_class_refl|]].
    intros i p Hp. apply (Hsync i p); [|done].
    apply lookup_lt_Some in Hp. lia.
  - cbn [seq pass].
    destruct (lookup_lt_is_Some_2 (particles g) k) as [p Hp]; [lia|].
    rewrite (deref_lookup _ _ _ Hp). cbn [mbind result_bind].
    destruct (advance_total nap p g (well_formed_bullets g Hwf))
      as (p' & g1 & Hadv).
    rewrite Hadv. cbn [mbind result_bind].
    destruct (pass_step nap k p p' g g1 Hwf Hp Hadv)
      as (Hwf2 & HF2 & Hb2 & Hi2 & Hv2 & Hk2 & Hs2 & Hlow & Hout).
    set (g2 := update p' (store k p' g1)) in *.
    destruct (well_formed_slice _ _ _ Hwf2 Hk2) as [Hbase' _].
    destruct (IH (S k) g2) as (g' & Hpass & Hwf' & Hsync' & HF' & Hb' & Hi' & Hv').
    + done.
    + rewrite <-(Forall2_length _ _ _ HF2). lia.
    + intros i q Hik Hq. destruct (decide (i = k)) as [-> | Hne].
      * rewrite Hk2 in Hq. by injection Hq as <-.
      * assert (Hik' : (i < k)%nat) by lia. rewrite (Hlow i Hik') in Hq.
        apply (slice_synced_ext q (vertices g)); [|by apply (Hsync i)].
        intros j Hj. apply Hout.
        destruct (well_formed_slice _ _ _ Hwf Hq) as [Hbq _].
        rewrite Hbase'. rewrite Hbq in Hj. unfold vsize in *. lia.
    + exists g'. split; [done|]. split; [done|]. split; [done|].
      split.
      { apply Forall2_same_length_lookup. split.
        - rewrite (Forall2_length _ _ _ HF2). by apply Forall2_length in HF'.
        - intros i a c Ha Hc.
          destruct (Forall2_lookup_l _ _ _ _ _ HF2 Ha) as (b & Hb & Hab).
          pose proof (Forall2_lookup_lr _ _ _ _ _ _ HF' Hb Hc) as Hbc.
          by eapply same_class_trans. }
      split; [congruence|]. split; congruence.
Qed.

(** ** [make_particles] *)

Lemma make_particle_effect (c : Cls) (uv : UVMapping) (g : Game) (i : nat) :
  let g' := make_particle c uv g i in
  indices g' = indices g ++ quad_indices (4 * i)
  ∧ vertices g' = vertices g ++ quad_vertices uv
  ∧ (∃ p, particles g' = particles g ++ [p]
          ∧ base_i p = (4 * i * vsize)%nat ∧ class_of (sub p) = c)
  ∧ bullets g' = bullets g ∧ uvmap g' = uvmap g.
Proof.
  unfold make_particle, Particle_init.
  set (g0 := set_vertices _ _).
  set (p0 := mkParticle _ _ _ _ _).
  destruct (reset_effect true p0 g0) as [[Hb Hc] Hg].
  destruct (reset true p0 g0) as [p g1]. cbn [fst snd] in *.
  rewrite Hg. cbn. repeat split.
  exists p. repeat split; [done|]. rewrite Hc. by destruct c.
Qed.

Lemma make_particles_loop (c : Cls) (uv : UVMapping) (n : nat) :
  ∀ (count : nat) (g : Game),
    let g' := foldl (make_particle c uv) g (seq count n) in
    indices g'
    = indices g ++ concat ((λ i, quad_indices (4 * i)) <$> seq count n)
    ∧ vertices g' = vertices g ++ concat (replicate n (quad_vertices uv))
    ∧ (∃ ps, particles g' = particles g ++ ps ∧ length ps = n
             ∧ ∀ k p, ps !! k = Some p →
                 base_i p = (4 * (count + k) * vsize)%nat
                 ∧ class_of (sub p) = c)
    ∧ bullets g' = bullets g ∧ uvmap g' = uvmap g.
Proof.
  induction n as [|n IH]; intros count g; cbn [seq foldl].
  - rewrite !app_nil_r. split; [done|]. split; [done|].
    split; [|done]. exists []. rewrite app_nil_r.
    split; [done|]. split; [done|]. intros k p Hk. done.
  - destruct (make_particle_effect c uv g count)
      as (Hi & Hv & (p & Hp & Hpb & Hpc) & Hb & Hu).
    destruct (IH (S count) (make_particle c uv g count))
      as (Hi' & Hv' & (ps & Hps & Hlen & Hall) & Hb' & Hu').
    cbn zeta in *. rewrite Hi', Hv', Hps, Hi, Hv, Hp, Hb', Hu'.
    rewrite <-!app_assoc. cbn [replicate concat fmap list_fmap].
    split; [done|]. split; [done|]. split; [|done].
    exists (p :: ps). split; [done|]. split; [by rewrite <-Hlen|].
    intros k q Hq. destruct k as [|k]; cbn in Hq.
    + injection Hq as <-. split; [|done]. rewrite Hpb. f_equal. lia.
    + destruct (Hall k q Hq) as [-> ?]. split; [|done]. f_equal. lia.
Qed.

Lemma quad_indices_range (count n idx : nat) :
  idx ∈ concat ((λ i, quad_indices (4 * i)) <$> seq count n) →
  (4 * count ≤ idx < 4 * (count + n))%nat.
Proof.
  revert count. induction n as [|n IH]; intros count; cbn.
  - by intros ?%elem_of_nil.
  - rewrite !elem_of_cons. intros [->|[->|[->|[->|[->|[->|Hin]]]]]]; try lia.
    apply IH in Hin. lia.
Qed.

Lemma length_concat_replicate {A : Type} (n : nat) (l : list A) :
  length (concat (replicate n l)) = (n * length l)%nat.
Proof.
  induction n as [|n IH]; [done|]. cbn. rewrite length_app, IH. done.
Qed.

Lemma length_quad_indices (count n : nat) :
  length (concat ((λ i, quad_indices (4 * i)) <$> seq count n)) = (6 * n)%nat.
Proof.
  revert count. induction n as [|n IH]; intros count; [done|].
  cbn. rewrite IH. lia.
Qed.

Lemma lookup_concat_replicate {A : Type} (n q r : nat) (l : list A) :
  (q < n)%nat → (r < length l)%nat →
  concat (replicate n l) !! (q * length l + r)%nat = l !! r.
Proof.
  revert q. induction n as [|n IH]; intros q Hq Hr; [lia|].
  cbn. destruct q as [|q].
  - rewrite lookup_app_l by done. done.
  - rewrite lookup_app_r by lia.
    replace (S q * length l + r - length l)%nat
      with (q * length l + r)%nat by lia.
    apply IH; lia.
Qed.

(** C2, as the code has it.  In a widget whose vertex array holds four
    records per pooled particle, [make_particles(Cls, n)] appends exactly
    [4 n] vertex records of 7 scalars and [6 n] indices, and [n] particles.
    Each new quad is the four records top-left, top-right, bottom-right,
    bottom-left with offsets [(-su,-sv), (su,-sv), (su,sv), (-su,sv)] and
    the uv of the sprite; its center is [(0, 0)] and its scale is [1].
    The indices of the quad with base vertex [j] are
    [j, j+1, j+2, j+2, j+3, j], and all new indices refer to new
    vertices. *)
Theorem make_particles_appends_quads :
  ∀ (c : Cls) (uv : UVMapping) (n : nat) (g : Game),
    uvmap g !! tex_name c = Some uv →
    pool_layout g →
    ∃ g',
      make_particles c n g = Ok g'
      ∧ vertices g' = vertices g ++ concat (replicate n (quad_vertices uv))
      ∧ length (vertices g') = (length (vertices g) + 4 * n * vsize)%nat
      ∧ quad_vertices uv
        = [ 0; 0; 1; - su uv; - sv uv; u0 uv; v1 uv;
            0; 0; 1;   su uv; - sv uv; u1 uv; v1 uv;
            0; 0; 1;   su uv;   sv uv; u1 uv; v0 uv;
            0; 0; 1; - su uv;   sv uv; u0 uv; v0 uv ]
      ∧ (∀ q r, (q < n)%nat → (r < 4 * vsize)%nat →
           vertices g' !! (length (vertices g) + q * (4 * vsize) + r)%nat
           = quad_vertices uv !! r)
      ∧ indices g'
        = indices g
          ++ concat ((λ i, let j := (4 * i)%nat in
                           [j; j + 1; j + 2; j + 2; j + 3; j]%nat)
                       <$> seq (length (particles g)) n)
      ∧ length (indices g') = (length (indices g) + 6 * n)%nat
      ∧ (∀ idx, idx ∈ drop (length (indices g)) (indices g') →
           (length (vertices g) `div` vsize ≤ idx
            < length (vertices g') `div` vsize)%nat)
      ∧ length (particles g') = (length (particles g) + n)%nat
      ∧ pool_layout g'.
Proof.
  intros c uv n g Huv [Hlen Hbase]. unfold make_particles. rewrite Huv.
  eexists. split; [reflexivity|].
  destruct (make_particles_loop c uv n (length (particles g)) g)
    as (Hi & Hv & (ps & Hps & Hpl & Hall) & Hb & Hu).
  cbn zeta in *. set (g' := foldl _ _ _) in *.
  assert (Hvl : length (vertices g')
                = (length (vertices g) + 4 * n * vsize)%nat).
  { rewrite Hv, length_app, length_concat_replicate. cbn. unfold vsize. lia. }
  split; [done|]. split; [done|]. split; [done|]. split.
  { intros q r Hq Hr. rewrite Hv. rewrite lookup_app_r by lia.
    replace (length (vertices g) + q * (4 * vsize) + r - length (vertices g))%nat
      with (q * length (quad_vertices uv) + r)%nat by (cbn; unfold vsize; lia).
    apply lookup_concat_replicate; [done|]. cbn. unfold vsize in Hr. lia. }
  split; [done|]. split.
  { rewrite Hi, length_app, length_quad_indices. done. }
  split.
  { intros idx. rewrite Hi, drop_app_length. intros Hin.
    apply quad_indices_range in Hin. rewrite Hvl, Hlen. unfold vsize.
    replace (4 * 7 * length (particles g))%nat
      with ((4 * length (particles g)) * 7)%nat by lia.
    replace (4 * length (particles g) * 7 + 4 * n * 7)%nat
      with ((4 * (length (particles g) + n)) * 7)%nat by lia.
    rewrite !Nat.div_mul by done. done. }
  split; [rewrite Hps, length_app; lia|].
  split.
  - rewrite Hvl, Hlen, Hps, length_app, Hpl. unfold vsize. lia.
  - intros i p. rewrite Hps. intros Hp.
    apply lookup_app_Some in Hp as [Hp | [Hge Hp]]; [by apply Hbase|].
    destruct (Hall _ _ Hp) as [-> _]. f_equal. lia.
Qed.

Lemma make_particles_appends_quads_witness :
  let uv := mkUV 0 (frac 9 10) (frac 1 10) 1 (num 5) (num 5) in
  let p0 := mkParticle 0 (num 3) (num 4) (frac 1 5) (Star 2) in
  let g := mkGame (num 800) (num 600) {[ "star"%string := uv ]}
                  (quad_indices 0) (quad_vertices uv) [p0] []
                  0 0 false 0 1 (λ _, 7%N) 0 in
  ∃ g',
    make_particles CStar 2 g = Ok g'
    ∧ vertices g' = vertices g ++ concat (replicate 2 (quad_vertices uv))
    ∧ length (vertices g') = (length (vertices g) + 4 * 2 * vsize)%nat
    ∧ quad_vertices uv
      = [ 0; 0; 1; - su uv; - sv uv; u0 uv; v1 uv;
          0; 0; 1;   su uv; - sv uv; u1 uv; v1 uv;
          0; 0; 1;   su uv;   sv uv; u1 uv; v0 uv;
          0; 0; 1; - su uv;   sv uv; u0 uv; v0 uv ]
    ∧ (∀ q r, (q < 2)%nat → (r < 4 * vsize)%nat →
         vertices g' !! (length (vertices g) + q * (4 * vsize) + r)%nat
         = quad_vertices uv !! r)
    ∧ indices g'
      = indices g
        ++ concat ((λ i, let j := (4 * i)%nat in
                         [j; j + 1; j + 2; j + 2; j + 3; j]%nat)
                     <$> seq (length (particles g)) 2)
    ∧ length (indices g') = (length (indices g) + 6 * 2)%nat
    ∧ (∀ idx, idx ∈ drop (length (indices g)) (indices g') →
         (length (vertices g) `div` vsize ≤ idx
          < length (vertices g') `div` vsize)%nat)
    ∧ length (particles g') = (length (particles g) + 2)%nat
    ∧ pool_layout g'.
Proof.
  intros uv p0 g. apply (make_particles_appends_quads CStar uv 2 g).
  - reflexivity.
  - split; [reflexivity|].
    intros [|i] p Hp; [injection Hp as <-; reflexivity | discriminate Hp].
Defined.

(** C2 fails on the code: the scale field of a new vertex record is 1. *)
Lemma new_quad_scale_is_one :
  let uv := mkUV 0 (frac 9 10) (frac 1 10) 1 (num 5) (num 5) in
  let g := mkGame (num 800) (num 600) {[ "star"%string := uv ]}
                  [] [] [] [] 0 0 false 0 1 (λ _, 7%N) 0 in
  ∃ g', make_particles CStar 1 g = Ok g'
        ∧ vertices g' !! 0%nat = Some 0
        ∧ vertices g' !! 1%nat = Some 0
        ∧ vertices g' !! 2%nat = Some 1
        ∧ (1 : Qc) ≠ 0.
Proof.
  eexists. split; [reflexivity|]. repeat split. qc_neq.
Qed.

(** ** [initialize] and the executions of the application *)

Lemma make_particles_pool (c : Cls) (n : nat) (g g' : Game) :
  make_particles c n g = Ok g' →
  pool_layout g →
  pool_layout g' ∧ uvmap g' = uvmap g
  ∧ ∃ ps, particles g' = particles g ++ ps ∧ length ps = n
          ∧ ∀ k p, ps !! k = Some p → class_of (sub p) = c.
Proof.
  intros Hm [Hlen Hbase]. unfold make_particles in Hm.
  destruct (uvmap g !! tex_name c) as [uv|] eqn:Huv; [|done].
  injection Hm as <-.
  destruct (make_particles_loop c uv n (length (particles g)) g)
    as (_ & Hv & (ps & Hps & Hpl & Hall) & _ & Hu).
  cbn zeta in *. set (g' := foldl _ _ _) in *.
  split; [split|].
  - rewrite Hv, length_app, length_concat_replicate, Hlen, Hps, length_app, Hpl.
    cbn. unfold vsize. lia.
  - intros i p. rewrite Hps. intros Hp.
    apply lookup_app_Some in Hp as [Hp | [Hge Hp]]; [by apply Hbase|].
    destruct (Hall _ _ Hp) as [-> _]. f_equal. lia.
  - split; [done|]. exists ps. split; [done|]. split; [done|].
    intros k p Hp. by destruct (Hall k p Hp).
Qed.

Lemma make_particles_total (c : Cls) (n : nat) (g : Game) :
  is_Some (uvmap g !! tex_name c) → ∃ g', make_particles c n g = Ok g'.
Proof. intros [uv Huv]. unfold make_particles. rewrite Huv. by eexists. Qed.

Lemma initialize_total (g : Game) :
  (∀ c, is_Some (uvmap g !! tex_name c)) →
  pool_layout g →
  ∃ g', initialize g = Ok g'.
Proof.
  intros Huv Hl. unfold initialize.
  destruct (make_particles_total CStar 300 g (Huv _)) as [g1 H1].
  destruct (make_particles_pool _ _ _ _ H1 Hl) as (Hl1 & Hu1 & _).
  rewrite H1. cbn [mbind result_bind].
  destruct (make_particles_total CTrail 200 g1) as [g2 H2];
    [rewrite Hu1; apply Huv|].
  destruct (make_particles_pool _ _ _ _ H2 Hl1) as (Hl2 & Hu2 & _).
  rewrite H2. cbn [mbind result_bind].
  destruct (make_particles_total CPlayer 1 g2) as [g3 H3];
    [rewrite Hu2, Hu1; apply Huv|].
  destruct (make_particles_pool _ _ _ _ H3 Hl2) as (Hl3 & Hu3 & _).
  rewrite H3. cbn [mbind result_bind].
  destruct (make_particles_total CEnemy 25 g3) as [g4 H4];
    [rewrite Hu3, Hu2, Hu1; apply Huv|].
  destruct (make_particles_pool _ _ _ _ H4 Hl3) as (Hl4 & Hu4 & _).
  rewrite H4. cbn [mbind result_bind].
  destruct (make_particles_total CBullet 25 g4) as [g5 H5];
    [rewrite Hu4, Hu3, Hu2, Hu1; apply Huv|].
  rewrite H5. cbn [mbind result_bind]. by eexists.
Qed.

Lemma initialize_well_formed (g g' : Game) :
  pool_layout g → initialize g = Ok g' → well_formed g'.
Proof.
  intros Hl. unfold initialize.
  destruct (make_particles CStar 300 g) as [g1|] eqn:H1; [|done].
  destruct (make_particles_pool _ _ _ _ H1 Hl) as (Hl1 & _).
  cbn [mbind result_bind].
  destruct (make_particles CTrail 200 g1) as [g2|] eqn:H2; [|done].
  destruct (make_particles_pool _ _ _ _ H2 Hl1) as (Hl2 & _).
  cbn [mbind result_bind].
  destruct (make_particles CPlayer 1 g2) as [g3|] eqn:H3; [|done].
  destruct (make_particles_pool _ _ _ _ H3 Hl2) as (Hl3 & _).
  cbn [mbind result_bind].
  destruct (make_particles CEnemy 25 g3) as [g4|] eqn:H4; [|done].
  destruct (make_particles_pool _ _ _ _ H4 Hl3) as (Hl4 & _).
  cbn [mbind result_bind].
  destruct (make_particles CBullet 25 g4) as [g5|] eqn:H5; [|done].
  destruct (make_particles_pool _ _ _ _ H5 Hl4)
    as (Hl5 & _ & ps & Hps & Hlen & Hall).
  cbn [mbind result_bind]. intros [= <-].
  split; [exact Hl5|]. intros b. cbn [bullets set_bullets particles].
  unfold last_positions. rewrite Hps, length_app, Hlen.
  rewrite elem_of_seq. intros Hb.
  assert (Hin : ∃ p, ps !! (b - length (particles g4))%nat = Some p).
  { apply lookup_lt_is_Some_2. lia. }
  destruct Hin as [p Hp]. split.
  - exists p. split; [|by eapply Hall].
    rewrite lookup_app_r by lia. done.
  - intros i q Hq Hc.
    destruct (decide (i < length (particles g4))%nat) as [Hlt|Hge]; [lia|].
    rewrite lookup_app_r in Hq by lia.
    rewrite (Hall _ _ Hq) in Hc. done.
Qed.

Lemma Game_update_glsl_spec (nap : Qc) (mouse_pos : Qc * Qc) (g : Game) :
  well_formed g →
  ∃ g', Game_update_glsl nap mouse_pos g = Ok g'
        ∧ well_formed g' ∧ buffer_synced g'
        ∧ Forall2 same_class (particles g) (particles g')
        ∧ bullets g' = bullets g ∧ indices g' = indices g
        ∧ length (vertices g') = length (vertices g).
Proof.
  intros Hwf. unfold Game_update_glsl, PSWidget_update_glsl.
  set (g0 := set_spawn_delay _ _).
  assert (Hp0 : particles g0 = particles g) by (unfold g0; by destruct (firing _)).
  assert (Hv0 : vertices g0 = vertices g) by (unfold g0; by destruct (firing _)).
  assert (Hb0 : bullets g0 = bullets g) by (unfold g0; by destruct (firing _)).
  assert (Hi0 : indices g0 = indices g) by (unfold g0; by destruct (firing _)).
  assert (Hwf0 : well_formed g0).
  { apply (well_formed_preserved g); [done| |done|by rewrite Hv0].
    rewrite Hp0. apply Forall2_same_class_refl. }
  destruct (pass_spec nap (length (particles g0)) 0 g0 Hwf0)
    as (g' & Hpass & Hwf' & Hs' & HF' & Hb' & Hi' & Hv'); [done|lia|].
  exists g'. rewrite <-Hp0, <-Hb0, <-Hi0, <-Hv0. done.
Qed.

Lemma step_well_formed (ev : event) (g : Game) :
  well_formed g → ∃ g', step ev g = Ok g' ∧ well_formed g'.
Proof.
  intros Hwf. destruct ev as [nap mouse_pos| |]; cbn [step].
  - destruct (Game_update_glsl_spec nap mouse_pos g Hwf) as (g' & ? & ? & _).
    by exists g'.
  - eexists. split; [done|].
    apply (well_formed_preserved g); [done| |done|done].
    apply Forall2_same_class_refl.
  - eexists. split; [done|].
    apply (well_formed_preserved g); [done| |done|done].
    apply Forall2_same_class_refl.
Qed.

Lemma run_well_formed (evs : list event) :
  ∀ g, well_formed g → ∃ g', run evs g = Ok g' ∧ well_formed g'.
Proof.
  induction evs as [|ev evs IH]; intros g Hwf; cbn [run].
  - by exists g.
  - destruct (step_well_formed ev g Hwf) as (g1 & -> & Hwf1).
    cbn [mbind result_bind]. by apply IH.
Qed.

(** C3.  In a well-formed widget (the vertex array holds the slices of
    the pool, and [bullets] refers to bullets that come after every enemy,
    as [initialize] arranges), a complete [update_glsl(nap)] returns, and
    afterwards the first three scalars of each of the four records of
    every particle are its current [(x, y, size)]; this includes the
    bullets that an enemy's [check_hit] reset during the pass.  Every
    widget that [initialize] builds is well formed and remains so along
    every execution, so this holds after every pass of the application. *)
Theorem update_glsl_buffer_synced :
  (∀ nap mouse_pos g,
     well_formed g →
     ∃ g', Game_update_glsl nap mouse_pos g = Ok g'
           ∧ buffer_synced g' ∧ well_formed g')
  ∧ (∀ g0,
       (∀ c, is_Some (uvmap g0 !! tex_name c)) →
       pool_layout g0 →
       ∃ g1, initialize g0 = Ok g1
             ∧ ∀ evs nap mouse_pos,
                 ∃ g2 g3, run evs g1 = Ok g2
                          ∧ Game_update_glsl nap mouse_pos g2 = Ok g3
                          ∧ buffer_synced g3).
Proof.
  split.
  - intros nap mouse_pos g Hwf.
    destruct (Game_update_glsl_spec nap mouse_pos g Hwf)
      as (g' & ? & ? & ? & _).
    by exists g'.
  - intros g0 Huv Hl. destruct (initialize_total g0 Huv Hl) as [g1 Hinit].
    exists g1. split; [done|]. intros evs nap mouse_pos.
    pose proof (initialize_well_formed g0 g1 Hl Hinit) as Hwf1.
    destruct (run_well_formed evs g1 Hwf1) as (g2 & Hrun & Hwf2).
    destruct (Game_update_glsl_spec nap mouse_pos g2 Hwf2)
      as (g3 & ? & ? & ? & _).
    by exists g2, g3.
Qed.

(** A pass in which the enemy at position 0 consumes the bullet at
    position 1, over a vertex array that is stale before the pass. *)
Lemma update_glsl_buffer_synced_witness :
  let e := mkParticle 0 (num 100) (num 50) 1 (Enemy true 50) in
  let b := mkParticle 28 (num 100) (num 50) 1 (Bullet true) in
  let g := mkGame (num 800) (num 600) ∅ [] (replicate 56 0) [e; b] [1%nat]
                  (num 500) (num 500) false 0 1 (λ _, 7%N) 0 in
  ∃ g', Game_update_glsl (frac 1 100) (num 500, num 500) g = Ok g'
        ∧ buffer_synced g' ∧ well_formed g'.
Proof.
  intros e b g. apply (proj1 update_glsl_buffer_synced).
  split; [split|].
  - reflexivity.
  - intros [|[|i]] p Hp; [injection Hp as <-; reflexivity..|discriminate Hp].
  - intros n Hn. apply list_elem_of_singleton in Hn. subst n. split.
    + exists b. split; reflexivity.
    + intros [|[|i]] p Hp Hc; [lia| |discriminate Hp].
      injection Hp as <-. discriminate Hc.
Defined.

(** C4.  [Particle.update] on a particle whose slice lies in the vertex
    array changes nothing of the widget but the vertex array, keeps its
    length, and leaves every scalar outside the slice and every
    local-offset and uv field inside it as it was; in a well-formed
    widget the slices of the other particles are therefore unchanged.
    A complete [update_glsl] pass keeps the lengths of the vertex array,
    of the pool and the whole index array. *)
Theorem update_writes_center_and_scale :
  (∀ p g,
     (base_i p + 4 * vsize ≤ length (vertices g))%nat →
     update p g = set_vertices (vertices (update p g)) g
     ∧ length (vertices (update p g)) = length (vertices g)
     ∧ (∀ j, (j < base_i p ∨ base_i p + 4 * vsize ≤ j
              ∨ 3 ≤ (j - base_i p) `mod` vsize)%nat →
             vertices (update p g) !! j = vertices g !! j))
  ∧ (∀ g (k i : nat) p q,
       well_formed g →
       particles g !! k = Some p → particles g !! i = Some q → i ≠ k →
       ∀ j, (base_i q ≤ j < base_i q + 4 * vsize)%nat →
            vertices (update p g) !! j = vertices g !! j)
  ∧ (∀ nap mouse_pos g,
       well_formed g →
       ∃ g', Game_update_glsl nap mouse_pos g = Ok g'
             ∧ length (vertices g') = length (vertices g)
             ∧ indices g' = indices g
             ∧ length (particles g') = length (particles g)).
Proof.
  split; [|split].
  - intros p g Hfit. split; [apply update_rest|].
    split; [by apply update_length|].
    intros j Hj. by apply update_other.
  - intros g k i p q Hwf Hp Hq Hne j Hj.
    destruct (well_formed_slice _ _ _ Hwf Hp) as [Hbp Hfit].
    destruct (well_formed_slice _ _ _ Hwf Hq) as [Hbq _].
    apply update_other; [done|]. rewrite Hbp. rewrite Hbq in Hj.
    unfold vsize in *. lia.
  - intros nap mouse_pos g Hwf.
    destruct (Game_update_glsl_spec nap mouse_pos g Hwf)
      as (g' & ? & ? & ? & HF & ? & ? & ?).
    exists g'. split; [done|]. split; [done|]. split; [done|].
    symmetry. by eapply Forall2_length.
Qed.

Lemma update_writes_center_and_scale_witness :
  let e := mkParticle 0 (num 100) (num 50) 1 (Enemy true 50) in
  let b := mkParticle 28 (num 100) (num 50) 1 (Bullet true) in
  let g := mkGame (num 800) (num 600) ∅ [] (replicate 56 0) [e; b] [1%nat]
                  (num 500) (num 500) false 0 1 (λ _, 7%N) 0 in
  (update b g = set_vertices (vertices (update b g)) g
   ∧ length (vertices (update b g)) = length (vertices g)
   ∧ (∀ j, (j < base_i b ∨ base_i b + 4 * vsize ≤ j
            ∨ 3 ≤ (j - base_i b) `mod` vsize)%nat →
           vertices (update b g) !! j = vertices g !! j))
  ∧ (∃ g', Game_update_glsl (frac 1 100) (num 500, num 500) g = Ok g'
           ∧ length (vertices g') = length (vertices g)
           ∧ indices g' = indices g
           ∧ length (particles g') = length (particles g)).
Proof.
  intros e b g. split.
  - apply (proj1 update_writes_center_and_scale b g). vm_compute. lia.
  - apply (proj2 (proj2 update_writes_center_and_scale)).
    split; [split|].
    + reflexivity.
    + intros [|[|i]] p Hp;
        [injection Hp as <-; reflexivity..|discriminate Hp].
    + intros n Hn. apply list_elem_of_singleton in Hn. subst n. split.
      * exists b. split; reflexivity.
      * intros [|[|i]] p Hp Hc; [lia| |discriminate Hp].
        injection Hp as <-. discriminate Hc.
Defined.

(** ** The variant with [self.v = 0] in [Enemy.reset] *)

Lemma result_rel_bind {A B A' B' : Type} (R : A → B → Prop)
    (S : A' → B' → Prop) (r : result A) (s : result B)
    (f : A → result A') (f' : B → result B') :
  result_rel R r s →
  (∀ a b, R a b → result_rel S (f a) (f' b)) →
  result_rel S (r ≫= f) (s ≫= f').
Proof.
  destruct r as [a|e], s as [b|e']; cbn; try done. intros HR Hf. by apply Hf.
Qed.

Lemma sub_sim_refl (s : subtype) : sub_sim s s.
Proof. by left. Qed.

Lemma particle_sim_refl (p : Particle) : particle_sim p p.
Proof. repeat split. apply sub_sim_refl. Qed.

Lemma Forall2_particle_sim_refl (ps : list Particle) :
  Forall2 particle_sim ps ps.
Proof. induction ps; constructor; [apply particle_sim_refl | done]. Qed.

Lemma game_sim_refl (g : Game) : game_sim g g.
Proof. split; [by destruct g | apply Forall2_particle_sim_refl]. Qed.

(** Related particles are the same object unless both are inactive
    enemies. *)
Lemma particle_sim_cases (p q : Particle) :
  particle_sim p q →
  q = p ∨ ∃ w w', sub p = Enemy false w ∧ q = set_v w' p.
Proof.
  destruct p as [b px py s sp], q as [b' qx qy s' sq].
  intros (Hb & Hx & Hy & Hs & Hsub). cbn in *. subst b' qx qy s'.
  destruct Hsub as [-> | (w & w' & -> & ->)]; [by left|].
  right. by exists w, w'.
Qed.

Lemma particle_sim_active (p q : Particle) :
  particle_sim p q → get_active q = get_active p.
Proof.
  intros [-> | (w & w' & Hs & ->)]%particle_sim_cases; [done|].
  unfold get_active, set_v. by rewrite Hs.
Qed.

Lemma game_sim_deref (i : nat) (g h : Game) :
  game_sim g h →
  result_rel particle_sim (deref i g) (deref i h).
Proof.
  intros [_ HF]. unfold deref.
  destruct (particles g !! i) as [p|] eqn:Hp.
  - destruct (Forall2_lookup_l _ _ _ _ _ HF Hp) as (q & -> & Hpq). done.
  - apply lookup_ge_None in Hp. rewrite (Forall2_length _ _ _ HF) in Hp.
    apply lookup_ge_None in Hp. by rewrite Hp.
Qed.

Lemma game_sim_store (i : nat) (p q : Particle) (g h : Game) :
  particle_sim p q → game_sim g h → game_sim (store i p g) (store i q h).
Proof.
  intros Hpq [Hh HF]. split.
  - rewrite Hh. by destruct g.
  - by apply Forall2_insert.
Qed.

Lemma game_sim_update (p q : Particle) (g h : Game) :
  particle_sim p q → game_sim g h → game_sim (update p g) (update q h).
Proof.
  intros (Hb & Hx & Hy & Hs & _) [Hh HF]. split.
  - rewrite Hh. unfold update. rewrite Hb, Hx, Hy, Hs. by destruct g.
  - done.
Qed.

(** [reset] on an object that has [active]: a bullet or an enemy. *)
Lemma reset_sim (p q : Particle) (g h : Game) (a : bool) :
  particle_sim p q → game_sim g h → get_active p = Ok a →
  particle_sim (reset false p g).1 (FixedReset.reset false q h).1
  ∧ (reset false p g).2 = g ∧ (FixedReset.reset false q h).2 = h.
Proof.
  intros Hpq Hgh Ha.
  destruct (particle_sim_cases p q Hpq) as [-> | (w & w' & Hs & ->)].
  - destruct p as [b px py s [pl| | |a'|a' w]]; try done.
    + repeat split. apply sub_sim_refl.
    + repeat split. right. by exists w, 0%Z.
  - destruct p as [b px py s sp]. cbn in Hs. subst sp.
    repeat split. right. by exists w, 0%Z.
Qed.

Lemma scan_bullets_sim (p : Particle) (bs : list nat) (g h : Game) :
  game_sim g h →
  result_rel (λ r s, r.1 = s.1 ∧ game_sim r.2 s.2)
             (scan_bullets p bs g) (FixedReset.scan_bullets p bs h).
Proof.
  intros Hgh. induction bs as [|b bs IH];
    cbn [scan_bullets FixedReset.scan_bullets].
  - by split.
  - eapply result_rel_bind; [by apply game_sim_deref|].
    intros bp bq Hbpq. cbn beta.
    rewrite (particle_sim_active bp bq Hbpq).
    destruct (get_active bp) as [a|e] eqn:Ha; [|done].
    cbn [mbind result_bind]. destruct a; cbn [negb]; [|done].
    destruct Hbpq as (Hb & Hx & Hy & Hs & Hsub) eqn:Hbpq'. rewrite <-Hx, <-Hy.
    destruct (hypot_lt _ _ _); [|done].
    destruct (reset_sim bp bq g h true) as (Hr & Hg & Hh);
      [by repeat split| done | done |].
    destruct (reset false bp g) as [bp' g1].
    destruct (FixedReset.reset false bq h) as [bq' h1].
    cbn [fst snd] in *. subst g1 h1. cbn. split; [done|].
    by apply game_sim_store.
Qed.

(** In a widget of related pools, a method that does not read the pool
    runs alike. *)
Lemma game_sim_inv (g h : Game) :
  game_sim g h → ∃ ps, h = set_particles ps g ∧ Forall2 particle_sim (particles g) ps.
Proof. intros [Hh HF]. by exists (particles h). Qed.

Lemma advance_sim (nap : Qc) (p q : Particle) (g h : Game) :
  particle_sim p q → game_sim g h →
  result_rel (λ r s, particle_sim r.1 s.1 ∧ game_sim r.2 s.2)
             (advance nap p g) (FixedReset.advance nap q h).
Proof.
  intros Hpq Hgh.
  destruct (game_sim_inv g h Hgh) as (ps & Hh & HF).
  unfold advance, FixedReset.advance.
  destruct (particle_sim_cases p q Hpq) as [-> | (w & w' & Hs & ->)].
  - destruct p as [b px py s [pl| | |a|a w]]; cbn [class_of sub].
    + subst h. unfold Star_advance. cbn [x set_x get_plane sub base_i y size].
      case_decide; destruct g; cbn; (split; [apply particle_sim_refl|]);
        by split.
    + subst h. unfold Trail_advance.
      cbn [x set_x get_plane sub base_i y size set_size].
      case_decide; destruct g; cbn; (split; [apply particle_sim_refl|]);
        by split.
    + subst h. destruct g; cbn. split; [apply particle_sim_refl|]. by split.
    + subst h. unfold Bullet_advance. cbn [get_active sub mbind result_bind].
      destruct a.
      * cbn [x set_x sub base_i y size].
        case_decide; destruct g; cbn in *;
          (rewrite ?decide_True by done; rewrite ?decide_False by done);
          (split; [apply particle_sim_refl|]); by split.
      * destruct g; cbn.
        destruct (_ && _); cbn; (split; [apply particle_sim_refl|]); by split.
    + unfold Enemy_advance, FixedReset.Enemy_advance.
      cbn [get_active sub mbind result_bind]. destruct a.
      * unfold Enemy_check_hit, FixedReset.Enemy_check_hit.
        assert (Hpl : player_x h = player_x g ∧ player_y h = player_y g
                      ∧ bullets h = bullets g)
          by (subst h; by destruct g).
        destruct Hpl as (-> & -> & ->).
        destruct (hypot_lt _ _ _).
        { cbn. split; [|done]. repeat split. right. by exists w, 0%Z. }
        eapply result_rel_bind; [by apply scan_bullets_sim|].
        intros [hit g1] [hit' h1] [Hhit Hsim]. cbn in Hhit, Hsim. subst hit'.
        assert (Hht : height h1 = height g1).
        { destruct Hsim as [-> _]. by destruct g1. }
        destruct hit.
        { cbn. split; [|done]. repeat split. right. by exists w, 0%Z. }
        cbn [x set_x sub base_i y size set_y get_v set_v].
        case_decide.
        { cbn. split; [|done]. repeat split. right. by exists w, 0%Z. }
        case_decide; [cbn; by split; [apply particle_sim_refl|]|].
        rewrite Hht.
        case_decide; cbn; by split; [apply particle_sim_refl|].
      * subst h. destruct g; cbn.
        case_decide; cbn; (split; [apply particle_sim_refl|]); by split.
  - destruct p as [b px py s sp]. cbn in Hs. subst sp.
    cbn [class_of sub set_v set_sub base_i x y size].
    unfold Enemy_advance, FixedReset.Enemy_advance.
    cbn [get_active sub mbind result_bind]. subst h. destruct g; cbn.
    case_decide; cbn.
    + split; [apply particle_sim_refl | by split].
    + split; [|by split]. repeat split. right. by exists w, w'.
Qed.

(** The variant is a different program: on an enemy with [v = 50] the two
    [reset] methods leave different instances. *)
Lemma FixedReset_differs :
  ∀ g, let p := mkParticle 0 (num 100) (num 50) 1 (Enemy true 50) in
       get_v (Enemy_reset false p g).1 = 50%Z
       ∧ get_v (FixedReset.Enemy_reset false p g).1 = 0%Z.
Proof. by split. Qed.

Lemma pass_sim (nap : Qc) (todo : list nat) :
  ∀ g h, game_sim g h →
    result_rel game_sim (pass nap todo g) (FixedReset.pass nap todo h).
Proof.
  induction todo as [|i todo IH]; intros g h Hgh;
    cbn [pass FixedReset.pass]; [done|].
  eapply result_rel_bind; [by apply game_sim_deref|].
  intros p q Hpq. cbn beta.
  eapply result_rel_bind; [by apply advance_sim|].
  intros [p' g'] [q' h'] [Hpq' Hgh']. cbn in Hpq', Hgh' |- *.
  apply IH. apply game_sim_update; [done|]. by apply game_sim_store.
Qed.

Lemma Game_update_glsl_sim (nap : Qc) (mouse_pos : Qc * Qc) (g h : Game) :
  game_sim g h →
  result_rel game_sim (Game_update_glsl nap mouse_pos g)
             (FixedReset.Game_update_glsl nap mouse_pos h).
Proof.
  intros Hgh. unfold Game_update_glsl, FixedReset.Game_update_glsl,
    PSWidget_update_glsl, FixedReset.PSWidget_update_glsl.
  set (g0 := set_spawn_delay _ _). set (h0 := set_spawn_delay _ _).
  assert (Hsim0 : game_sim g0 h0).
  { destruct Hgh as [Hh HF]. unfold g0, h0. rewrite Hh.
    destruct g as [? ? ? ? ? ? ? ? ? fr ? ? ? ?]; cbn. by destruct fr. }
  rewrite <-(Forall2_length _ _ _ (proj2 Hsim0)). by apply pass_sim.
Qed.

Lemma make_particle_sim (c : Cls) (uv : UVMapping) (g h : Game) (i : nat) :
  game_sim g h →
  game_sim (make_particle c uv g i) (FixedReset.make_particle c uv h i).
Proof.
  intros [Hh HF]. rewrite Hh.
  unfold make_particle, FixedReset.make_particle, Particle_init,
    FixedReset.Particle_init.
  destruct g, c; cbn in *;
    (split; [reflexivity|]);
    (apply Forall2_app; [done|]); repeat constructor.
  all: apply sub_sim_refl.
Qed.

Lemma make_particles_sim (c : Cls) (n : nat) (g h : Game) :
  game_sim g h →
  result_rel game_sim (make_particles c n g) (FixedReset.make_particles c n h).
Proof.
  intros Hgh. unfold make_particles, FixedReset.make_particles.
  assert (Hu : uvmap h = uvmap g).
  { destruct Hgh as [-> _]. by destruct g. }
  rewrite Hu, <-(Forall2_length _ _ _ (proj2 Hgh)).
  destruct (uvmap g !! tex_name c) as [uv|]; [|done]. cbn.
  generalize (length (particles g)). intros count.
  revert count g h Hgh Hu. induction n as [|n IH]; intros count g h Hgh Hu;
    cbn [seq foldl]; [done|].
  apply IH; [by apply make_particle_sim|].
  pose proof (make_particle_sim c uv g h count Hgh) as [-> _].
  by destruct (make_particle c uv g count).
Qed.

Lemma initialize_sim (g h : Game) :
  game_sim g h →
  result_rel game_sim (initialize g) (FixedReset.initialize h).
Proof.
  intros Hgh. unfold initialize, FixedReset.initialize.
  eapply result_rel_bind; [by apply make_particles_sim|]. intros g1 h1 H1.
  eapply result_rel_bind; [by apply make_particles_sim|]. intros g2 h2 H2.
  eapply result_rel_bind; [by apply make_particles_sim|]. intros g3 h3 H3.
  eapply result_rel_bind; [by apply make_particles_sim|]. intros g4 h4 H4.
  eapply result_rel_bind; [by apply make_particles_sim|]. intros g5 h5 H5.
  destruct (game_sim_inv g5 h5 H5) as (ps & -> & HF).
  cbn. rewrite <-(Forall2_length _ _ _ HF). split; [by destruct g5 | done].
Qed.

Lemma step_sim (ev : event) (g h : Game) :
  game_sim g h → result_rel game_sim (step ev g) (FixedReset.step ev h).
Proof.
  intros Hgh. destruct ev as [nap mouse_pos| |]; cbn [step FixedReset.step].
  - by apply Game_update_glsl_sim.
  - destruct Hgh as [Hh HF]. cbn. split; [|done]. rewrite Hh. by destruct g.
  - destruct Hgh as [Hh HF]. cbn. split; [|done]. rewrite Hh. by destruct g.
Qed.

Lemma run_sim (evs : list event) :
  ∀ g h, game_sim g h → result_rel game_sim (run evs g) (FixedReset.run evs h).
Proof.
  induction evs as [|ev evs IH]; intros g h Hgh; cbn [run FixedReset.run].
  - done.
  - eapply result_rel_bind; [by apply step_sim|]. intros g1 h1 H1. by apply IH.
Qed.

Lemma game_sim_observation (g h : Game) :
  game_sim g h → observation h = observation g.
Proof.
  intros [Hh HF]. unfold observation. f_equal; [f_equal|].
  - rewrite Hh. by destruct g.
  - rewrite Hh. by destruct g.
  - clear Hh. induction HF as [|p q ps qs Hpq HF IH]; [done|].
    cbn. rewrite IH. f_equal.
    rewrite (particle_sim_active p q Hpq).
    destruct Hpq as (_ & -> & -> & -> & _). done.
Qed.

(** C10.  Take the program and the variant whose [Enemy.reset] assigns
    [self.v = 0].  From the same widget, with the same events and the same
    draws of the generator, [initialize] followed by any sequence of
    clock ticks and touch events ends alike in both: with the same
    exception, or in two widgets with the same vertex array, the same
    index array and, particle by particle, the same [x], [y], [size] and
    [active]; the widgets differ at most in the [v] of inactive enemies.
    As this holds after every prefix of the events, the trajectories are
    the same. *)
Theorem Enemy_reset_v_unobservable :
  ∀ (g : Game) (evs : list event),
    result_rel (λ g' h', observation h' = observation g' ∧ game_sim g' h')
      (g1 ← initialize g; run evs g1)
      (h1 ← FixedReset.initialize g; FixedReset.run evs h1).
Proof.
  intros g evs.
  assert (Hrel : result_rel game_sim (g1 ← initialize g; run evs g1)
                   (h1 ← FixedReset.initialize g; FixedReset.run evs h1)).
  { eapply result_rel_bind; [apply initialize_sim, game_sim_refl|].
    intros g1 h1 H1. by apply run_sim. }
  destruct (initialize g ≫= _) as [g'|e], (FixedReset.initialize g ≫= _)
    as [h'|e']; try done.
  cbn in *. split; [by apply game_sim_observation | done].
Qed.

(** * Further properties of the code *)

(** ** The generator *)

Lemma random_range (g : Game) : 0 ≤ (random g).1 ∧ (random g).1 < 1.
Proof.
  unfold random, next_draw. cbn [fst].
  set (d := draws g (cursor g)).
  assert (Hd : (0 ≤ Z.of_N (d `mod` 2 ^ 53) < Z.pos (2 ^ 53))%Z).
  { assert (Hub : (d `mod` 2 ^ 53 < 2 ^ 53)%N)
      by (by apply N.mod_upper_bound).
    change (Z.pos (2 ^ 53)) with (Z.of_N (2 ^ 53)%N).
    generalize dependent (d `mod` 2 ^ 53)%N. intros m Hm.
    change (2 ^ 53)%N with 9007199254740992%N in *. lia. }
  generalize dependent (Z.of_N (d `mod` 2 ^ 53)). intros m Hm.
  split.
  - unfold Qcle. cbn [this Q2Qc]. rewrite !Qred_correct.
    unfold Qle. cbn [Qnum Qden]. lia.
  - unfold Qclt. cbn [this Q2Qc]. rewrite !Qred_correct.
    unfold Qlt. cbn [Qnum Qden]. lia.
Qed.

Lemma randint_range (a b : Z) (g : Game) :
  (a ≤ b)%Z → (a ≤ (randint a b g).1 ≤ b)%Z.
Proof.
  intros Hab. unfold randint, next_draw. cbn [fst].
  pose proof (Z.mod_pos_bound (Z.of_N (draws g (cursor g))) (b - a + 1)).
  lia.
Qed.

Lemma num_le (m n : Z) : (m ≤ n)%Z → num m ≤ num n.
Proof. intros H. exact (proj1 (Z2Qc_inj_le m n) H). Qed.

Lemma num_add (m n : Z) : num (m + n) = num m + num n.
Proof. apply Z2Qc_inj_add. Qed.

Lemma Qc_scale_range (r w : Qc) :
  0 ≤ r → r < 1 → 0 < w → 0 ≤ r * w ∧ r * w < w.
Proof.
  intros H0 H1 Hw. split.
  - apply Qcmult_nonneg_nonneg; [done | by apply Qclt_le_weak].
  - rewrite <-(Qcmult_1_l w) at 2. by apply Qcmult_lt_compat_r.
Qed.

Lemma random_state (g : Game) : (random g).2 = set_cursor (S (cursor g)) g.
Proof. reflexivity. Qed.

Lemma randint_state (a b : Z) (g : Game) :
  (randint a b g).2 = set_cursor (S (cursor g)) g.
Proof. reflexivity. Qed.

Lemma set_cursor_twice (m n : nat) (g : Game) :
  set_cursor m (set_cursor n g) = set_cursor m g.
Proof. by destruct g. Qed.

(** ** [Star.reset] *)

(** X1.  A star that [reset] leaves has a plane of 1, 2 or 3, the size
    [0.1 * plane], a height within the widget, and an abscissa within the
    widget when created, on the right edge otherwise. *)
Theorem Star_reset_ranges (created : bool) (p : Particle) (g : Game) :
  0 < width g → 0 < height g →
  class_of (sub p) = CStar →
  let p' := (Star_reset created p g).1 in
  let g' := (Star_reset created p g).2 in
  (∃ n, sub p' = Star n ∧ (1 ≤ n ≤ 3)%Z ∧ size p' = frac 1 10 * num n)
  ∧ (0 ≤ y p' ∧ y p' < height g)
  ∧ (if created then 0 ≤ x p' ∧ x p' < width g else x p' = width g)
  ∧ base_i p' = base_i p
  ∧ g' = set_cursor (cursor g + if created then 3 else 2)%nat g.
Proof.
  intros Hw Hh Hc. destruct p as [b px py s [n0| | | |]]; try done.
  unfold Star_reset.
  pose proof (randint_range 1 3 g ltac:(lia)) as Hn.
  pose proof (randint_state 1 3 g) as Hg1.
  destruct (randint 1 3 g) as [n g1]. cbn [fst snd] in Hn, Hg1. subst g1.
  destruct created.
  - pose proof (random_range (set_cursor (S (cursor g)) g)) as [Hr0 Hr1].
    destruct (random (set_cursor (S (cursor g)) g)) as [r g2] eqn:Hr.
    pose proof (random_state (set_cursor (S (cursor g)) g)) as Hg2.
    rewrite Hr in Hg2. cbn [fst snd] in Hr0, Hr1, Hg2. subst g2.
    set (g2 := set_cursor _ (set_cursor _ g)).
    pose proof (random_range g2) as [Hq0 Hq1].
    destruct (random g2) as [q g3] eqn:Hq.
    pose proof (random_state g2) as Hg3.
    rewrite Hq in Hg3. cbn [fst snd] in Hq0, Hq1, Hg3. subst g3.
    cbn. split; [by exists n|].
    split; [by apply Qc_scale_range|]. split; [by apply Qc_scale_range|].
    split; [done|]. unfold g2. rewrite !set_cursor_twice. f_equal. lia.
  - set (g2 := set_cursor _ g).
    pose proof (random_range g2) as [Hq0 Hq1].
    destruct (random g2) as [q g3] eqn:Hq.
    pose proof (random_state g2) as Hg3.
    rewrite Hq in Hg3. cbn [fst snd] in Hq0, Hq1, Hg3. subst g3.
    cbn. split; [by exists n|].
    split; [by apply Qc_scale_range|]. split; [done|].
    split; [done|]. unfold g2. rewrite ?set_cursor_twice. f_equal. lia.
Qed.

Lemma Star_reset_ranges_witness :
  let g := mkGame (num 800) (num 600) ∅ [] [] [] [] 0 0 false 0 1
                  (λ n, N.of_nat (7 * n + 5)) 0 in
  let p := mkParticle 0 0 0 1 (Star 1) in
  let p' := (Star_reset true p g).1 in
  let g' := (Star_reset true p g).2 in
  (∃ n, sub p' = Star n ∧ (1 ≤ n ≤ 3)%Z ∧ size p' = frac 1 10 * num n)
  ∧ (0 ≤ y p' ∧ y p' < height g)
  ∧ (0 ≤ x p' ∧ x p' < width g)
  ∧ base_i p' = base_i p
  ∧ g' = set_cursor (cursor g + 3)%nat g.
Proof.
  intros g p. apply (Star_reset_ranges true p g); reflexivity.
Defined.

(** ** [Enemy.advance] *)

(** X2.  An inactive enemy does nothing while the spawn cooldown is
    positive; otherwise it enters at [x = width + 50], at a height within
    the widget and with a vertical speed of [-100 .. 100], consuming two
    draws and no bullet. *)
Theorem Enemy_spawn_ranges (nap : Qc) (p : Particle) (g : Game) (w : Z) :
  sub p = Enemy false w →
  0 < height g →
  (0 < spawn_delay g → Enemy_advance nap p g = Ok (p, g))
  ∧ (spawn_delay g ≤ 0 →
     ∃ p' v,
       Enemy_advance nap p g
       = Ok (p', set_spawn_delay (spawn_delay g + 1)
                   (set_cursor (cursor g + 2)%nat g))
       ∧ sub p' = Enemy true v ∧ (-100 ≤ v ≤ 100)%Z
       ∧ x p' = width g + num 50
       ∧ 0 ≤ y p' ∧ y p' < height g
       ∧ base_i p' = base_i p ∧ size p' = size p).
Proof.
  intros Hs Hh. destruct p as [b px py s sp]. cbn in Hs. subst sp.
  unfold Enemy_advance. cbn [get_active sub mbind result_bind]. split.
  - intros Hpos. rewrite decide_False; [done|]. by apply Qclt_not_le.
  - intros Hle. rewrite decide_True by done.
    pose proof (random_range g) as [Hr0 Hr1].
    pose proof (random_state g) as Hg1.
    destruct (random g) as [r g1]. cbn [fst snd] in Hr0, Hr1, Hg1. subst g1.
    set (g1 := set_cursor _ g).
    pose proof (randint_range (-100) 100 g1 ltac:(lia)) as Hn.
    pose proof (randint_state (-100) 100 g1) as Hg2.
    destruct (randint (-100) 100 g1) as [n g2].
    cbn [fst snd] in Hn, Hg2. subst g2.
    assert (Hg : set_cursor (S (cursor g1)) g1
                 = set_cursor (cursor g + 2)%nat g).
    { unfold g1. rewrite set_cursor_twice. destruct g; cbn. f_equal. lia. }
    rewrite Hg. eexists _, n. split; [reflexivity|].
    cbn. split; [done|]. split; [done|]. split; [done|].
    rewrite Qcmult_comm.
    destruct (Qc_scale_range r (height g) Hr0 Hr1 Hh). done.
Qed.

Lemma Enemy_spawn_ranges_witness :
  let g := mkGame (num 800) (num 600) ∅ [] [] [] [] 0 0 false 0 (frac (-1) 4)
                  (λ n, N.of_nat (7 * n + 5)) 0 in
  let p := mkParticle 0 (num (-100)) (num (-100)) 1 (Enemy false 33) in
  ∃ p' v,
    Enemy_advance (frac 1 60) p g
    = Ok (p', set_spawn_delay (spawn_delay g + 1)
                (set_cursor (cursor g + 2)%nat g))
    ∧ sub p' = Enemy true v ∧ (-100 ≤ v ≤ 100)%Z
    ∧ x p' = width g + num 50
    ∧ 0 ≤ y p' ∧ y p' < height g
    ∧ base_i p' = base_i p ∧ size p' = size p.
Proof.
  intros g p.
  apply (proj2 (Enemy_spawn_ranges (frac 1 60) p g 33 eq_refl eq_refl)).
  qc_cmp.
Defined.

(** ** [Enemy.check_hit] *)

Lemma scan_bullets_first (p : Particle) (bs : list nat) (g : Game)
    (hit : bool) (g' : Game) :
  scan_bullets p bs g = Ok (hit, g') →
  (hit = false ∧ g' = g ∧ ∀ b, b ∈ bs → bullet_missed p g b)
  ∨ (hit = true
     ∧ ∃ pre b post bp,
         bs = pre ++ b :: post
         ∧ (∀ b0, b0 ∈ pre → bullet_missed p g b0)
         ∧ particles g !! b = Some bp ∧ get_active bp = Ok true
         ∧ hypot_lt (x bp - x p) (y bp - y p) (num 30) = true
         ∧ g' = store b (reset false bp g).1 g).
Proof.
  induction bs as [|b bs IH]; cbn [scan_bullets].
  - intros [= <- <-]. left. split; [done|]. split; [done|].
    by intros b ?%elem_of_nil.
  - unfold deref. destruct (particles g !! b) as [bp|] eqn:Hb; [|done].
    cbn [mbind result_bind].
    destruct (get_active bp) as [a|] eqn:Ha; [|done].
    cbn [mbind result_bind].
    assert (Hrec : (a = false
                    ∨ hypot_lt (x bp - x p) (y bp - y p) (num 30) = false) →
      scan_bullets p bs g = Ok (hit, g') →
      (hit = false ∧ g' = g ∧ ∀ b0, b0 ∈ b :: bs → bullet_missed p g b0)
      ∨ (hit = true
         ∧ ∃ pre b0 post bp0,
             b :: bs = pre ++ b0 :: post
             ∧ (∀ b1, b1 ∈ pre → bullet_missed p g b1)
             ∧ particles g !! b0 = Some bp0 ∧ get_active bp0 = Ok true
             ∧ hypot_lt (x bp0 - x p) (y bp0 - y p) (num 30) = true
             ∧ g' = store b0 (reset false bp0 g).1 g)).
    { intros Hmiss Hs.
      assert (Hb0 : bullet_missed p g b) by (by exists bp, a).
      destruct (IH Hs) as [(-> & -> & Hall)
                          | (-> & pre & b0 & post & bp0 & -> & Hpre & Hrest)].
      - left. split; [done|]. split; [done|].
        intros b1 [->|Hin]%elem_of_cons; [done | by apply Hall].
      - right. split; [done|]. exists (b :: pre), b0, post, bp0.
        split; [done|]. split; [|done].
        intros b1 [->|Hin]%elem_of_cons; [done | by apply Hpre]. }
    destruct a; cbn [negb]; [|by apply Hrec; left].
    destruct (hypot_lt (x bp - x p) (y bp - y p) (num 30)) eqn:Hnear;
      [|by apply Hrec; right].
    destruct (reset_active_effect bp g true Ha) as [_ Hg].
    destruct (reset false bp g) as [bp' g1] eqn:Hr.
    cbn [fst snd] in *. subst g1.
    intros [= <- <-]. right. split; [done|]. exists [], b, bs, bp.
    split; [done|]. split; [by intros b0 ?%elem_of_nil|].
    rewrite Hr. done.
Qed.

(** X3.  [check_hit] consumes at most one bullet.  It reports a hit on the
    body collision without touching the pool; otherwise it resets the
    first bullet of [bullets], in order, that is active and within 30 of
    the enemy and nothing else; and it reports no hit, with the widget
    unchanged, exactly when every bullet is inactive or out of range. *)
Theorem check_hit_first_bullet (p : Particle) (g : Game)
    (hit : bool) (g' : Game) :
  Enemy_check_hit p g = Ok (hit, g') →
  (hypot_lt (player_x g - x p) (player_y g - y p) (num 60) = true
   ∧ hit = true ∧ g' = g)
  ∨ (hypot_lt (player_x g - x p) (player_y g - y p) (num 60) = false
     ∧ ((hit = false ∧ g' = g ∧ ∀ b, b ∈ bullets g → bullet_missed p g b)
        ∨ (hit = true
           ∧ ∃ pre b post bp,
               bullets g = pre ++ b :: post
               ∧ (∀ b0, b0 ∈ pre → bullet_missed p g b0)
               ∧ particles g !! b = Some bp ∧ get_active bp = Ok true
               ∧ hypot_lt (x bp - x p) (y bp - y p) (num 30) = true
               ∧ g' = store b (reset false bp g).1 g
               ∧ ∀ i, i ≠ b → particles g' !! i = particles g !! i))).
Proof.
  unfold Enemy_check_hit.
  destruct (hypot_lt (player_x g - x p) _ _).
  - intros [= <- <-]. by left.
  - intros Hs. right. split; [done|].
    destruct (scan_bullets_first _ _ _ _ _ Hs)
      as [? | (-> & pre & b & post & bp & Hbs & Hpre & Hb & Ha & Hn & ->)];
      [by left|].
    right. split; [done|]. exists pre, b, post, bp.
    repeat (split; [done|]).
    intros i Hi. cbn. by rewrite list_lookup_insert_ne.
Qed.

Lemma check_hit_first_bullet_witness :
  let e := mkParticle 0 (num 100) (num 50) 1 (Enemy true 50) in
  let b1 := mkParticle 28 (num 300) (num 50) 1 (Bullet true) in
  let b2 := mkParticle 56 (num 110) (num 50) 1 (Bullet true) in
  let b3 := mkParticle 84 (num 100) (num 50) 1 (Bullet true) in
  let g := mkGame (num 800) (num 600) ∅ [] [] [e; b1; b2; b3]
                  [1%nat; 2%nat; 3%nat]
                  (num 500) (num 500) false 0 1 (λ _, 7%N) 0 in
  let g' := store 2 (reset false b2 g).1 g in
  (hypot_lt (player_x g - x e) (player_y g - y e) (num 60) = true
   ∧ true = true ∧ g' = g)
  ∨ (hypot_lt (player_x g - x e) (player_y g - y e) (num 60) = false
     ∧ ((true = false ∧ g' = g ∧ ∀ b, b ∈ bullets g → bullet_missed e g b)
        ∨ (true = true
           ∧ ∃ pre b post bp,
               bullets g = pre ++ b :: post
               ∧ (∀ b0, b0 ∈ pre → bullet_missed e g b0)
               ∧ particles g !! b = Some bp ∧ get_active bp = Ok true
               ∧ hypot_lt (x bp - x e) (y bp - y e) (num 30) = true
               ∧ g' = store b (reset false bp g).1 g
               ∧ ∀ i, i ≠ b → particles g' !! i = particles g !! i))).
Proof.
  intros e b1 b2 b3 g g'.
  apply (check_hit_first_bullet e g true g'). vm_compute. reflexivity.
Defined.

(** ** [Enemy.advance], active *)

(** X4.  An active enemy that is not hit moves left by [200 * nap]; once
    left of [-50] it is reset; otherwise it moves vertically by
    [v * nap], and its speed keeps its magnitude and points upwards at or
    below the bottom, downwards above the top, and is unchanged in
    between. *)
Theorem Enemy_advance_moves (nap : Qc) (p : Particle) (g : Game) (w : Z) :
  sub p = Enemy true w →
  Enemy_check_hit p g = Ok (false, g) →
  let x' := x p - num 200 * nap in
  let y' := y p + num w * nap in
  (x' < num (-50) →
   Enemy_advance nap p g
   = Ok (mkParticle (base_i p) (num (-100)) (num (-100)) (size p)
                    (Enemy false w), g))
  ∧ (¬ x' < num (-50) →
     ∃ w', Enemy_advance nap p g
           = Ok (mkParticle (base_i p) x' y' (size p) (Enemy true w'), g)
           ∧ Z.abs w' = Z.abs w
           ∧ (y' ≤ 0 → w' = Z.abs w)
           ∧ (0 < y' → height g < y' → w' = (- Z.abs w)%Z)
           ∧ (0 < y' → y' ≤ height g → w' = w)).
Proof.
  intros Hs Hc x' y'. destruct p as [b px py s sp]. cbn in Hs. subst sp.
  unfold Enemy_advance. cbn [get_active sub mbind result_bind].
  rewrite Hc. cbn [mbind result_bind x set_x sub base_i y size set_y get_v].
  fold x' y'. split.
  - intros Hx. by rewrite decide_True.
  - intros Hx. rewrite decide_False by done.
    case_decide as Hy0.
    + exists (Z.abs w). split; [reflexivity|]. split; [lia|].
      split; [done|]. split; intros Hpos; by apply Qclt_not_le in Hpos.
    + case_decide as Hyh.
      * exists (- Z.abs w)%Z. split; [reflexivity|]. split; [lia|].
        split; [done|]. split; [done|].
        intros _ Hle. by apply Qclt_not_le in Hyh.
      * exists w. split; [reflexivity|]. split; [done|].
        split; [done|]. split; [done|]. done.
Qed.

Lemma Enemy_advance_moves_witness :
  let p := mkParticle 0 (num 400) (num 1) 1 (Enemy true (-90)) in
  let g := mkGame (num 800) (num 600) ∅ [] [] [p] []
                  (num 10) (num 500) false 0 1 (λ _, 7%N) 0 in
  let x' := x p - num 200 * frac 1 60 in
  let y' := y p + num (-90) * frac 1 60 in
  ∃ w', Enemy_advance (frac 1 60) p g
        = Ok (mkParticle (base_i p) x' y' (size p) (Enemy true w'), g)
        ∧ Z.abs w' = Z.abs (-90)
        ∧ (y' ≤ 0 → w' = Z.abs (-90))
        ∧ (0 < y' → height g < y' → w' = (- Z.abs (-90))%Z)
        ∧ (0 < y' → y' ≤ height g → w' = (-90)%Z).
Proof.
  intros p g x' y'.
  apply (proj2 (Enemy_advance_moves (frac 1 60) p g (-90) eq_refl eq_refl)).
  qc_cmp.
Defined.

(** ** [Bullet.advance] *)

Lemma Qc_cooldown_positive (d c : Qc) : - c < d → ¬ d + c ≤ 0.
Proof.
  intros H. apply Qclt_not_le. apply Qclt_minus_iff in H.
  by rewrite Qcopp_involutive in H.
Qed.

(** X5.  The fire cooldown limits the rate of fire.  While firing, an
    inactive bullet that finds the cooldown in [(-0.3333, 0]] starts at
    [(player_x + 40, player_y)], and no other inactive bullet starts in
    the state it leaves; but when the cooldown is at or below [-0.3333]
    the next inactive bullet starts in the same frame. *)
Theorem fire_rate_limited (nap : Qc) (p1 p2 : Particle) (g : Game) :
  sub p1 = Bullet false → sub p2 = Bullet false →
  firing g = true → fire_delay g ≤ 0 →
  let g1 := set_fire_delay (fire_delay g + frac 3333 10000) g in
  let p1' := mkParticle (base_i p1) (player_x g + num 40) (player_y g)
                        (size p1) (Bullet true) in
  Bullet_advance nap p1 g = Ok (p1', g1)
  ∧ (- frac 3333 10000 < fire_delay g →
     Bullet_advance nap p2 g1 = Ok (p2, g1))
  ∧ (fire_delay g ≤ - frac 3333 10000 →
     ∃ p2' g2, Bullet_advance nap p2 g1 = Ok (p2', g2)
               ∧ sub p2' = Bullet true).
Proof.
  intros Hs1 Hs2 Hf Hd g1 p1'.
  destruct p1 as [b1 x1 y1 s1 sp1], p2 as [b2 x2 y2 s2 sp2].
  cbn in Hs1, Hs2. subst sp1 sp2.
  unfold Bullet_advance. cbn [get_active sub mbind result_bind].
  rewrite Hf. rewrite bool_decide_true by done. cbn [andb].
  split; [done|]. split.
  - intros Hlag. cbn [firing g1 set_fire_delay fire_delay]. rewrite Hf.
    rewrite bool_decide_false; [done|]. by apply Qc_cooldown_positive.
  - intros Hlag. cbn [firing g1 set_fire_delay fire_delay]. rewrite Hf.
    rewrite bool_decide_true; [by eexists _, _|].
    apply Qcle_minus_iff. rewrite Qcplus_0_l.
    apply Qcle_minus_iff in Hlag. 
    replace (- (fire_delay g + frac 3333 10000))
      with (- frac 3333 10000 + - fire_delay g) by ring. done.
Qed.

Lemma fire_rate_limited_witness :
  let g := mkGame (num 800) (num 600) ∅ [] [] [] [] (num 10) (num 20) true
                  (frac (-1) 60) 1 (λ _, 7%N) 0 in
  let p1 := mkParticle 28 (num (-100)) (num (-100)) 1 (Bullet false) in
  let p2 := mkParticle 56 (num (-100)) (num (-100)) 1 (Bullet false) in
  let g1 := set_fire_delay (fire_delay g + frac 3333 10000) g in
  let p1' := mkParticle (base_i p1) (player_x g + num 40) (player_y g)
                        (size p1) (Bullet true) in
  Bullet_advance (frac 1 60) p1 g = Ok (p1', g1)
  ∧ Bullet_advance (frac 1 60) p2 g1 = Ok (p2, g1).
Proof.
  intros g p1 p2 g1 p1'.
  destruct (fire_rate_limited (frac 1 60) p1 p2 g eq_refl eq_refl eq_refl)
    as (H1 & H2 & _); [qc_cmp|].
  split; [exact H1|]. apply H2. qc_cmp.
Defined.

(** ** Composition of [update] *)

Lemma update_lookup_slot (p : Particle) (g : Game) (j : nat) :
  (base_i p + 4 * vsize ≤ length (vertices g))%nat →
  vertices (update p g) !! j
  = match slot_value p j with
    | Some a => Some a
    | None => vertices g !! j
    end.
Proof.
  intros Hfit. unfold slot_value. case_decide as Hin.
  - assert (Hk : ∃ k, (k < 28 ∧ j = base_i p + k)%nat)
      by (exists (j - base_i p)%nat; unfold vsize in *; lia).
    destruct Hk as (k & Hk & ->).
    replace (base_i p + k - base_i p)%nat with k by lia.
    rewrite update_lookup by done. unfold vsize.
    do 28 (destruct k as [|k];
           [cbn; repeat case_decide; try lia; reflexivity|]).
    lia.
  - rewrite update_other; [done | done |]. unfold vsize in *. lia.
Qed.

Lemma slot_value_disjoint (p q : Particle) (j : nat) :
  (base_i p + 4 * vsize ≤ base_i q ∨ base_i q + 4 * vsize ≤ base_i p)%nat →
  slot_value p j = None ∨ slot_value q j = None.
Proof.
  intros Hd. unfold slot_value.
  destruct (decide (base_i p ≤ j < base_i p + 4 * vsize)%nat);
    destruct (decide (base_i q ≤ j < base_i q + 4 * vsize)%nat);
    auto; lia.
Qed.

Lemma same_but_vertices (g0 g1 g2 : Game) :
  vertices g1 = vertices g2 →
  g1 = set_vertices (vertices g1) g0 →
  g2 = set_vertices (vertices g2) g0 →
  g1 = g2.
Proof. intros Hv -> ->. cbn in Hv. by rewrite Hv. Qed.

(** X6.  Writing a particle twice is writing it once, and the writes of two
    particles with disjoint slices commute. *)
Theorem update_idempotent_commutes :
  (∀ p g,
     (base_i p + 4 * vsize ≤ length (vertices g))%nat →
     update p (update p g) = update p g)
  ∧ (∀ p q g,
       (base_i p + 4 * vsize ≤ length (vertices g))%nat →
       (base_i q + 4 * vsize ≤ length (vertices g))%nat →
       (base_i p + 4 * vsize ≤ base_i q
        ∨ base_i q + 4 * vsize ≤ base_i p)%nat →
       update p (update q g) = update q (update p g)).
Proof.
  split.
  - intros p g Hfit.
    apply (same_but_vertices g); [|by destruct g..].
    apply list_eq. intros j.
    rewrite (update_lookup_slot p (update p g))
      by (by rewrite update_length).
    rewrite update_lookup_slot by done. by destruct (slot_value p j).
  - intros p q g Hp Hq Hd.
    apply (same_but_vertices g); [|by destruct g..].
    apply list_eq. intros j.
    rewrite (update_lookup_slot p (update q g))
      by (by rewrite update_length).
    rewrite (update_lookup_slot q (update p g))
      by (by rewrite update_length).
    rewrite !update_lookup_slot by done.
    destruct (slot_value_disjoint p q j Hd) as [-> | ->];
      by destruct (slot_value _ j).
Qed.

Lemma update_idempotent_commutes_witness :
  let p := mkParticle 0 (num 3) (num 4) (frac 1 5) (Star 2) in
  let q := mkParticle 28 (num 9) (num 8) 1 Player in
  let g := mkGame (num 800) (num 600) ∅ [] (replicate 56 0) [p; q] []
                  0 0 false 0 1 (λ _, 7%N) 0 in
  update p (update p g) = update p g
  ∧ update p (update q g) = update q (update p g).
Proof.
  intros p q g. split.
  - apply (proj1 update_idempotent_commutes p g). vm_compute. lia.
  - apply (proj2 update_idempotent_commutes p q g); vm_compute; lia.
Defined.

(** ** [update] beyond the vertex array *)

Lemma slice_assign_beyond (i : nat) (t l : list Qc) :
  (length l ≤ i)%nat → slice_assign i (i + 3) t l = l ++ t.
Proof.
  intros Hi. unfold slice_assign.
  rewrite take_ge by done. rewrite drop_ge by lia. by rewrite app_nil_r.
Qed.

(** X7.  For a particle whose slice starts at or beyond the end of the vertex
    array, the slice assignments of [update] append: the array grows by
    twelve scalars, and nothing of it is overwritten. *)
Theorem update_beyond_end_appends (p : Particle) (g : Game) :
  (length (vertices g) ≤ base_i p)%nat →
  vertices (update p g)
  = vertices g ++ [x p; y p; size p; x p; y p; size p;
                   x p; y p; size p; x p; y p; size p]
  ∧ length (vertices (update p g)) = (length (vertices g) + 12)%nat.
Proof.
  intros Hb.
  assert (Hv : vertices (update p g)
    = vertices g ++ [x p; y p; size p; x p; y p; size p;
                     x p; y p; size p; x p; y p; size p]).
  { unfold update. rewrite py_range_quad. unfold vsize.
    cbn [foldl vertices set_vertices].
    rewrite (slice_assign_beyond (base_i p)) by done.
    rewrite (slice_assign_beyond (base_i p + 7))
      by (rewrite length_app; cbn; lia).
    rewrite (slice_assign_beyond (base_i p + 2 * 7))
      by (rewrite !length_app; cbn; lia).
    rewrite (slice_assign_beyond (base_i p + 3 * 7))
      by (rewrite !length_app; cbn; lia).
    by rewrite <-!app_assoc. }
  split; [done|]. rewrite Hv, length_app. done.
Qed.

Lemma update_beyond_end_appends_witness :
  let p := mkParticle 28 (num 3) (num 4) (frac 1 5) (Star 2) in
  let g := mkGame (num 800) (num 600) ∅ [] (replicate 28 0) [p] []
                  0 0 false 0 1 (λ _, 7%N) 0 in
  vertices (update p g)
  = vertices g ++ [x p; y p; size p; x p; y p; size p;
                   x p; y p; size p; x p; y p; size p]
  ∧ length (vertices (update p g)) = (length (vertices g) + 12)%nat.
Proof.
  intros p g. apply (update_beyond_end_appends p g). vm_compute. lia.
Defined.

(** ** What a pass does to the pool, in general *)

Lemma advance_pool (nap : Qc) (p : Particle) (g : Game)
    (p' : Particle) (g' : Game) :
  advance nap p g = Ok (p', g') →
  particles g' = particles g
  ∨ ∃ b bp, particles g !! b = Some bp ∧ get_active bp = Ok true
            ∧ particles g' = <[b := (reset false bp g).1]> (particles g).
Proof.
  intros Hadv.
  destruct (advance_effect _ _ _ _ _ Hadv) as (_ & _ & [Hsame | [Hen _]]);
    [by left|].
  revert Hadv. unfold advance. rewrite Hen. unfold Enemy_advance.
  destruct (get_active p) as [a|]; [|done]. cbn [mbind result_bind].
  destruct a.
  - destruct (Enemy_check_hit p g) as [[hit g1]|] eqn:Hc; [|done].
    cbn [mbind result_bind].
    assert (Hg1 : particles g1 = particles g
      ∨ ∃ b bp, particles g !! b = Some bp ∧ get_active bp = Ok true
                ∧ particles g1 = <[b := (reset false bp g).1]> (particles g)).
    { revert Hc. unfold Enemy_check_hit.
      destruct (hypot_lt (player_x g - x p) _ _);
        [intros [= _ <-]; by left|].
      intros Hc.
      destruct (scan_bullets_first _ _ _ _ _ Hc)
        as [(_ & -> & _)
           | (_ & pre & b & post & bp & _ & _ & Hb & Ha & _ & ->)];
        [by left|].
      right. by exists b, bp. }
    destruct hit; [by intros [= <- <-]|].
    repeat case_decide; by intros [= <- <-].
  - case_decide; [|by intros [= <- <-]; left].
    destruct (random g) as [r g1] eqn:Hr.
    pose proof (random_state g) as Hg1. rewrite Hr in Hg1. cbn in Hg1.
    destruct (randint (-100) 100 g1) as [n g2] eqn:Hn.
    pose proof (randint_state (-100) 100 g1) as Hg2. rewrite Hn in Hg2.
    cbn in Hg2. intros [= <- <-]. left. subst g2 g1. by destruct g.
Qed.

Lemma Forall2_insert_r_related {A : Type} (R : A → A → Prop)
    (l k : list A) (i : nat) (a b : A) :
  Forall2 R l k → l !! i = Some a → R a b → Forall2 R l (<[i := b]> k).
Proof.
  intros HF Ha Hab. apply Forall2_same_length_lookup in HF as [Hlen HF].
  apply Forall2_same_length_lookup. split; [by rewrite length_insert|].
  intros j c d Hc Hd. destruct (decide (i = j)) as [<- | Hne].
  - rewrite list_lookup_insert_eq in Hd
      by (rewrite <-Hlen; by eapply lookup_lt_Some).
    injection Hd as <-. rewrite Ha in Hc. by injection Hc as <-.
  - rewrite list_lookup_insert_ne in Hd by done. by eapply HF.
Qed.

Lemma Forall2_related_refl {A : Type} (R : A → A → Prop) (l : list A) :
  (∀ a, R a a) → Forall2 R l l.
Proof. intros HR. induction l; constructor; auto. Qed.

Lemma Forall2_related_trans {A : Type} (R : A → A → Prop)
    (l k m : list A) :
  (∀ a b c, R a b → R b c → R a c) →
  Forall2 R l k → Forall2 R k m → Forall2 R l m.
Proof.
  intros HR Hlk Hkm.
  apply Forall2_same_length_lookup in Hlk as [Hlen1 Hlk].
  apply Forall2_same_length_lookup in Hkm as [Hlen2 Hkm].
  apply Forall2_same_length_lookup. split; [congruence|].
  intros i a c Ha Hc.
  destruct (lookup_lt_is_Some_2 k i) as [b Hb];
    [rewrite <-Hlen1; by eapply lookup_lt_Some|].
  eapply HR; [by eapply Hlk | by eapply Hkm].
Qed.

Section PassRelated.

Variable R : Particle → Particle → Prop.
Variable C : Game → Prop.

Hypothesis R_refl : ∀ p, R p p.
Hypothesis R_trans : ∀ p q r, R p q → R q r → R p r.
Hypothesis C_advance :
  ∀ nap p g p' g', C g → advance nap p g = Ok (p', g') → C g'.
Hypothesis C_store : ∀ i p g, C g → C (store i p g).
Hypothesis C_vertices : ∀ vs g, C g → C (set_vertices vs g).
Hypothesis R_advance :
  ∀ nap p g p' g', C g → advance nap p g = Ok (p', g') → R p p'.
Hypothesis R_reset :
  ∀ bp g, C g → get_active bp = Ok true → R bp (reset false bp g).1.

(** A pass relates every particle to what it leaves of it. *)
Lemma pass_related (nap : Qc) (todo : list nat) :
  ∀ g g', C g → pass nap todo g = Ok g' →
          C g' ∧ Forall2 R (particles g) (particles g').
Proof.
  induction todo as [|i todo IH]; intros g g' HC; cbn [pass].
  - intros [= <-]. split; [done | by apply Forall2_related_refl].
  - unfold deref. destruct (particles g !! i) as [p|] eqn:Hp; [|done].
    cbn [mbind result_bind].
    destruct (advance nap p g) as [[p' g1]|] eqn:Hadv; [|done].
    cbn [mbind result_bind]. intros Hpass.
    assert (HF1 : Forall2 R (particles g) (particles g1)).
    { destruct (advance_pool _ _ _ _ _ Hadv) as [-> | (b & bp & Hb & Ha & ->)].
      - by apply Forall2_related_refl.
      - eapply Forall2_insert_r_related;
          [by apply Forall2_related_refl | done | by apply R_reset]. }
    assert (HC2 : C (update p' (store i p' g1))).
    { rewrite update_rest. apply C_vertices, C_store.
      exact (C_advance _ _ _ _ _ HC Hadv). }
    destruct (IH _ _ HC2 Hpass) as [HC' HF'].
    split; [done|].
    eapply Forall2_related_trans; [done| |done].
    change (particles (update p' (store i p' g1)))
      with (<[i := p']> (particles g1)).
    eapply Forall2_insert_r_related;
      [exact HF1 | exact Hp | exact (R_advance _ _ _ _ _ HC Hadv)].
Qed.

End PassRelated.

Section PassPost.

Variable Q : Particle → Prop.
Variable C : Game → Prop.

Hypothesis C_advance :
  ∀ nap p g p' g', C g → advance nap p g = Ok (p', g') → C g'.
Hypothesis C_store : ∀ i p g, C g → C (store i p g).
Hypothesis C_vertices : ∀ vs g, C g → C (set_vertices vs g).
Hypothesis Q_advance :
  ∀ nap p g p' g', C g → advance nap p g = Ok (p', g') → Q p'.
Hypothesis Q_reset :
  ∀ bp g, C g → Q bp → get_active bp = Ok true → Q (reset false bp g).1.

(** What every [advance] establishes and no [reset] destroys holds of the
    whole pool after a pass. *)
Lemma pass_post (nap : Qc) (n : nat) :
  ∀ (k : nat) (g g' : Game),
    C g →
    (k + n)%nat = length (particles g) →
    (∀ i p, (i < k)%nat → particles g !! i = Some p → Q p) →
    pass nap (seq k n) g = Ok g' →
    C g' ∧ ∀ i p, particles g' !! i = Some p → Q p.
Proof.
  induction n as [|n IH]; intros k g g' HC Hlen Hk; cbn [seq pass].
  - intros [= <-]. split; [done|]. intros i p Hp. apply (Hk i p); [|done].
    apply lookup_lt_Some in Hp. lia.
  - unfold deref. destruct (particles g !! k) as [p|] eqn:Hp; [|done].
    cbn [mbind result_bind].
    destruct (advance nap p g) as [[p' g1]|] eqn:Hadv; [|done].
    cbn [mbind result_bind]. intros Hpass.
    assert (HC2 : C (update p' (store k p' g1))).
    { rewrite update_rest. apply C_vertices, C_store.
      exact (C_advance _ _ _ _ _ HC Hadv). }
    assert (Hl1 : length (particles g1) = length (particles g)).
    { destruct (advance_pool _ _ _ _ _ Hadv) as [-> | (b & bp & _ & _ & ->)];
        [done | by rewrite length_insert]. }
    apply (IH (S k) _ _ HC2); [| |done].
    + change (particles (update p' (store k p' g1)))
        with (<[k := p']> (particles g1)).
      rewrite length_insert. lia.
    + intros i q Hi.
      change (particles (update p' (store k p' g1)))
        with (<[k := p']> (particles g1)).
      destruct (decide (i = k)) as [-> | Hne].
      * rewrite list_lookup_insert_eq by lia. intros [= <-].
        exact (Q_advance _ _ _ _ _ HC Hadv).
      * rewrite list_lookup_insert_ne by done.
        destruct (advance_pool _ _ _ _ _ Hadv)
          as [-> | (b & bp & Hb & Ha & ->)].
        { apply Hk. lia. }
        destruct (decide (b = i)) as [-> | Hbi].
        { rewrite list_lookup_insert_eq by (by eapply lookup_lt_Some).
          intros [= <-]. apply Q_reset; [done| |done]. apply (Hk i); [lia|done]. }
        rewrite list_lookup_insert_ne by done. apply Hk. lia.
Qed.

End PassPost.

(** ** Invariants of the pool *)

Lemma Forall_related (P : Particle → Prop) (l k : list Particle) :
  Forall2 (λ p q, P p → P q) l k → Forall P l → Forall P k.
Proof.
  induction 1 as [|p q l k Hpq HF IH]; [done|].
  intros [Hp Hl]%Forall_cons. constructor; auto.
Qed.

Lemma make_particles_uvmap (c : Cls) (n : nat) (g g' : Game) :
  make_particles c n g = Ok g' → uvmap g' = uvmap g.
Proof.
  unfold make_particles. destruct (uvmap g !! tex_name c) as [uv|]; [|done].
  intros [= <-].
  by destruct (make_particles_loop c uv n (length (particles g)) g)
    as (_ & _ & _ & _ & Hu).
Qed.

Section PoolInvariant.

Variable P : Particle → Prop.

Hypothesis P_init : ∀ c i g, P (Particle_init c i g).1.
Hypothesis P_advance :
  ∀ nap p g p' g', P p → advance nap p g = Ok (p', g') → P p'.
Hypothesis P_reset :
  ∀ bp g, P bp → get_active bp = Ok true → P (reset false bp g).1.

Lemma make_particle_invariant (c : Cls) (uv : UVMapping) (g : Game)
    (i : nat) :
  Forall P (particles g) → Forall P (particles (make_particle c uv g i)).
Proof.
  intros HP. unfold make_particle.
  set (g0 := set_vertices _ _).
  pose proof (P_init c i g0) as Hp.
  assert (Hg : (Particle_init c i g0).2
               = set_cursor (cursor (Particle_init c i g0).2) g0)
    by apply reset_effect.
  destruct (Particle_init c i g0) as [p g1]. cbn [fst snd] in Hp, Hg.
  rewrite Hg. cbn. apply Forall_app. split; [done|]. by constructor.
Qed.

Lemma make_particles_invariant (c : Cls) (n : nat) (g g' : Game) :
  Forall P (particles g) → make_particles c n g = Ok g' →
  Forall P (particles g').
Proof.
  unfold make_particles. intros HP.
  destruct (uvmap g !! tex_name c) as [uv|]; [|done]. intros [= <-].
  generalize (length (particles g)). intros count.
  revert count g HP. induction n as [|n IH]; intros count g HP;
    cbn [seq foldl]; [done|].
  apply IH. by apply make_particle_invariant.
Qed.

Lemma initialize_invariant (g g' : Game) :
  Forall P (particles g) → initialize g = Ok g' → Forall P (particles g').
Proof.
  intros HP. unfold initialize.
  destruct (make_particles CStar 300 g) as [g1|] eqn:H1; [|done].
  cbn [mbind result_bind].
  destruct (make_particles CTrail 200 g1) as [g2|] eqn:H2; [|done].
  cbn [mbind result_bind].
  destruct (make_particles CPlayer 1 g2) as [g3|] eqn:H3; [|done].
  cbn [mbind result_bind].
  destruct (make_particles CEnemy 25 g3) as [g4|] eqn:H4; [|done].
  cbn [mbind result_bind].
  destruct (make_particles CBullet 25 g4) as [g5|] eqn:H5; [|done].
  cbn [mbind result_bind]. intros [= <-]. cbn [particles set_bullets].
  pose proof (make_particles_invariant _ _ _ _ HP H1) as HP1.
  pose proof (make_particles_invariant _ _ _ _ HP1 H2) as HP2.
  pose proof (make_particles_invariant _ _ _ _ HP2 H3) as HP3.
  pose proof (make_particles_invariant _ _ _ _ HP3 H4) as HP4.
  exact (make_particles_invariant _ _ _ _ HP4 H5).
Qed.

Lemma pass_invariant (nap : Qc) (todo : list nat) (g g' : Game) :
  Forall P (particles g) → pass nap todo g = Ok g' → Forall P (particles g').
Proof.
  intros HP Hpass.
  destruct (pass_related (λ p q, P p → P q) (λ _, True)) with
    (nap := nap) (todo := todo) (g := g) (g' := g') as [_ HF]; try done.
  - auto.
  - intros nap' p g0 p' g0' _ Hadv Hp. by eapply P_advance.
  - intros bp g0 _ Ha Hp. by apply P_reset.
  - by eapply Forall_related.
Qed.

Lemma step_invariant (ev : event) (g g' : Game) :
  Forall P (particles g) → step ev g = Ok g' → Forall P (particles g').
Proof.
  intros HP. destruct ev as [nap mouse_pos| |]; cbn [step].
  - unfold Game_update_glsl, PSWidget_update_glsl. apply pass_invariant.
    by destruct (firing _).
  - by intros [= <-].
  - by intros [= <-].
Qed.

Lemma run_invariant (evs : list event) :
  ∀ g g', Forall P (particles g) → run evs g = Ok g' →
          Forall P (particles g').
Proof.
  induction evs as [|ev evs IH]; intros g g' HP; cbn [run].
  - by intros [= <-].
  - destruct (step ev g) as [g1|] eqn:Hs; [|done]. cbn [mbind result_bind].
    apply IH. by eapply step_invariant.
Qed.

(** The invariant along the executions of the application. *)
Lemma execution_invariant :
  (∀ g,
     (∀ c, is_Some (uvmap g !! tex_name c)) → pool_layout g →
     Forall P (particles g) →
     ∃ g', initialize g = Ok g' ∧ well_formed g' ∧ Forall P (particles g'))
  ∧ (∀ evs g,
       well_formed g → Forall P (particles g) →
       ∃ g', run evs g = Ok g' ∧ well_formed g' ∧ Forall P (particles g')).
Proof.
  split.
  - intros g Huv Hl HP. destruct (initialize_total g Huv Hl) as [g' Hi].
    exists g'. split; [done|]. split; [by eapply initialize_well_formed|].
    by eapply initialize_invariant.
  - intros evs g Hwf HP. destruct (run_well_formed evs g Hwf) as (g' & Hr & ?).
    exists g'. split; [done|]. split; [done|]. by eapply run_invariant.
Qed.

End PoolInvariant.

Lemma off_screen_init (c : Cls) (i : nat) (g : Game) :
  off_screen (Particle_init c i g).1.
Proof. destruct c; by intros [=]. Qed.

Lemma off_screen_reset (bp : Particle) (g : Game) :
  get_active bp = Ok true → off_screen (reset false bp g).1.
Proof.
  destruct bp as [b px py s [pl| | |a|a w]]; intros [= ->]; by intros _.
Qed.

Lemma off_screen_advance (nap : Qc) (p : Particle) (g : Game)
    (p' : Particle) (g' : Game) :
  off_screen p → advance nap p g = Ok (p', g') → off_screen p'.
Proof.
  intros HP. unfold advance.
  destruct p as [b px py s [pl| | |a|a w]]; cbn [class_of sub].
  - intros [= Hadv]. revert Hadv. unfold Star_advance, Star_reset.
    case_decide; cbn; intros [= <- <-]; by intros [=].
  - intros [= Hadv]. revert Hadv. unfold Trail_advance, Trail_reset.
    case_decide; cbn; intros [= <- <-]; by intros [=].
  - intros [= <- <-]. by intros [=].
  - unfold Bullet_advance. cbn [get_active sub mbind result_bind].
    destruct a.
    + cbn [x set_x sub base_i y size]. case_decide; intros [= <- <-].
      * by intros _.
      * by intros [=].
    + destruct (_ && _); intros [= <- <-]; [by intros [=] | done].
  - unfold Enemy_advance. cbn [get_active sub mbind result_bind].
    destruct a.
    + destruct (Enemy_check_hit _ g) as [[hit g1]|]; [|done].
      cbn [mbind result_bind]. destruct hit; [by intros [= <- <-] _|].
      repeat case_decide; intros [= <- <-]; first [by intros _ | by intros [=]].
    + case_decide; [|by intros [= <- <-]].
      destruct (random g) as [r g1]. destruct (randint _ _ g1) as [n g2].
      intros [= <- <-]. by intros [=].
Qed.

(** X8.  Inactive bullets and enemies are at [(-100, -100)].  [initialize]
    returns a well-formed widget in which this holds if it held of the
    pool before, and every sequence of ticks and touch events from such a
    widget returns another one. *)
Theorem off_screen_invariant :
  (∀ g,
     (∀ c, is_Some (uvmap g !! tex_name c)) → pool_layout g →
     Forall off_screen (particles g) →
     ∃ g', initialize g = Ok g' ∧ well_formed g'
           ∧ Forall off_screen (particles g'))
  ∧ (∀ evs g,
       well_formed g → Forall off_screen (particles g) →
       ∃ g', run evs g = Ok g' ∧ well_formed g'
             ∧ Forall off_screen (particles g')).
Proof.
  apply execution_invariant.
  - apply off_screen_init.
  - apply off_screen_advance.
  - intros bp g _ Ha. by apply off_screen_reset.
Qed.

Lemma off_screen_invariant_witness :
  let uv := mkUV 0 (frac 9 10) (frac 1 10) 1 (num 5) (num 5) in
  let sprites : gmap string UVMapping :=
    list_to_map [("star", uv); ("trail", uv); ("player", uv);
                 ("ufo", uv); ("bullet", uv)]%string in
  let g0 := mkGame (num 800) (num 600) sprites [] [] [] []
                   0 0 false 0 1 (λ _, 7%N) 0 in
  let e := mkParticle 0 (num (-100)) (num (-100)) 1 (Enemy false 0) in
  let b := mkParticle 28 (num 100) (num 50) 1 (Bullet true) in
  let g := mkGame (num 800) (num 600) sprites [] (replicate 56 0) [e; b]
                  [1%nat] (num 500) (num 500) false 0 1 (λ _, 7%N) 0 in
  (∃ g', initialize g0 = Ok g' ∧ well_formed g'
         ∧ Forall off_screen (particles g'))
  ∧ (∃ g', run [Tick (frac 1 60) (num 5, num 6); TouchDown;
                Tick (frac 1 60) (num 5, num 6); TouchUp] g = Ok g'
           ∧ well_formed g' ∧ Forall off_screen (particles g')).
Proof.
  intros uv sprites g0 e b g. split.
  - apply (proj1 off_screen_invariant g0).
    + intros c. destruct c; vm_compute; eauto.
    + split; [reflexivity|]. intros i p Hp. discriminate Hp.
    + constructor.
  - apply (proj2 off_screen_invariant).
    + split; [split|].
      * reflexivity.
      * intros [|[|i]] p Hp;
          [injection Hp as <-; reflexivity..|discriminate Hp].
      * intros n Hn. apply list_elem_of_singleton in Hn. subst n. split.
        -- exists b. split; reflexivity.
        -- intros [|[|i]] p Hp Hc; [lia| |discriminate Hp].
           injection Hp as <-. discriminate Hc.
    + apply Forall_cons_2; [intros _; split; reflexivity|].
      apply Forall_cons_2; [intros Ha; discriminate Ha|]. apply Forall_nil_2.
Defined.

(** ** Stars *)

Lemma Star_reset_star_ok (created : bool) (p : Particle) (g : Game)
    (n0 : Z) :
  sub p = Star n0 → star_ok (Star_reset created p g).1.
Proof.
  intros Hs. destruct p as [b px py s sp]. cbn in Hs. subst sp.
  unfold Star_reset.
  pose proof (randint_range 1 3 g ltac:(lia)) as Hn.
  destruct (randint 1 3 g) as [n g1]. cbn [fst] in Hn.
  destruct created.
  - destruct (random g1) as [r g2]. destruct (random g2) as [q g3].
    cbn. intros m [= <-]. done.
  - destruct (random g1) as [q g3]. cbn. intros m [= <-]. done.
Qed.

Lemma star_ok_init (c : Cls) (i : nat) (g : Game) :
  star_ok (Particle_init c i g).1.
Proof.
  destruct c; try (by intros n [=]).
  unfold Particle_init, reset. cbn [class_of sub class_defaults].
  by eapply Star_reset_star_ok.
Qed.

Lemma star_ok_reset (bp : Particle) (g : Game) :
  get_active bp = Ok true → star_ok (reset false bp g).1.
Proof.
  destruct bp as [b px py s [pl| | |a|a w]]; intros [= ->]; by intros n [=].
Qed.

Lemma star_ok_advance (nap : Qc) (p : Particle) (g : Game)
    (p' : Particle) (g' : Game) :
  star_ok p → advance nap p g = Ok (p', g') → star_ok p'.
Proof.
  intros HP. unfold advance.
  destruct p as [b px py s [pl| | |a|a w]]; cbn [class_of sub].
  - intros [= Hadv]. revert Hadv. unfold Star_advance.
    cbn [x set_x get_plane sub base_i y size]. case_decide.
    + intros Hr.
      pose proof (Star_reset_star_ok false
        (mkParticle b (px - num (20 * pl) * nap) py s (Star pl)) g pl eq_refl)
        as Hok.
      unfold set_x in Hr. cbn [x y size sub base_i] in Hr.
      rewrite Hr in Hok. done.
    + intros [= <- <-]. intros n [= <-]. by apply (HP pl).
  - intros [= Hadv]. revert Hadv. unfold Trail_advance, Trail_reset.
    case_decide; cbn; intros [= <- <-]; by intros n [=].
  - intros [= <- <-]. by intros n [=].
  - unfold Bullet_advance. cbn [get_active sub mbind result_bind].
    destruct a.
    + cbn [x set_x sub base_i y size].
      case_decide; intros [= <- <-]; by intros n [=].
    + destruct (_ && _); intros [= <- <-]; by intros n [=].
  - unfold Enemy_advance. cbn [get_active sub mbind result_bind].
    destruct a.
    + destruct (Enemy_check_hit _ g) as [[hit g1]|]; [|done].
      cbn [mbind result_bind].
      destruct hit; [by intros [= <- <-] n [=]|].
      repeat case_decide; intros [= <- <-]; by intros n [=].
    + case_decide; [|by intros [= <- <-] n [=]].
      destruct (random g) as [r g1]. destruct (randint _ _ g1) as [n g2].
      intros [= <- <-]. by intros m [=].
Qed.

(** X9.  Every star is on plane 1, 2 or 3 and has the size [0.1 * plane].
    [initialize] returns a well-formed widget in which this holds if it
    held of the pool before, and every sequence of ticks and touch events
    from such a widget returns another one. *)
Theorem star_plane_invariant :
  (∀ g,
     (∀ c, is_Some (uvmap g !! tex_name c)) → pool_layout g →
     Forall star_ok (particles g) →
     ∃ g', initialize g = Ok g' ∧ well_formed g'
           ∧ Forall star_ok (particles g'))
  ∧ (∀ evs g,
       well_formed g → Forall star_ok (particles g) →
       ∃ g', run evs g = Ok g' ∧ well_formed g'
             ∧ Forall star_ok (particles g')).
Proof.
  apply execution_invariant.
  - apply star_ok_init.
  - apply star_ok_advance.
  - intros bp g _ Ha. by apply star_ok_reset.
Qed.

Lemma star_plane_invariant_witness :
  let uv := mkUV 0 (frac 9 10) (frac 1 10) 1 (num 5) (num 5) in
  let sprites : gmap string UVMapping :=
    list_to_map [("star", uv); ("trail", uv); ("player", uv);
                 ("ufo", uv); ("bullet", uv)]%string in
  let g0 := mkGame (num 800) (num 600) sprites [] [] [] []
                   0 0 false 0 1 (λ _, 7%N) 0 in
  let s := mkParticle 0 0 (num 50) (frac 2 10) (Star 2) in
  let g := mkGame (num 800) (num 600) sprites [] (replicate 28 0) [s]
                  [] (num 500) (num 500) false 0 1 (λ _, 7%N) 0 in
  (∃ g', initialize g0 = Ok g' ∧ well_formed g'
         ∧ Forall star_ok (particles g'))
  ∧ (∃ g', run [Tick (frac 1 60) (num 5, num 6);
                Tick (frac 1 60) (num 5, num 6)] g = Ok g'
           ∧ well_formed g' ∧ Forall star_ok (particles g')).
Proof.
  intros uv sprites g0 s g. split.
  - apply (proj1 star_plane_invariant g0).
    + intros c. destruct c; vm_compute; eauto.
    + split; [reflexivity|]. intros i p Hp. discriminate Hp.
    + constructor.
  - apply (proj2 star_plane_invariant).
    + split; [split|].
      * reflexivity.
      * intros [|i] p Hp; [injection Hp as <-; reflexivity|discriminate Hp].
      * intros n Hn. by apply elem_of_nil in Hn.
    + apply Forall_cons_2; [|apply Forall_nil_2].
      intros n Hn. injection Hn as <-. split; [lia|]. qc_eq.
Defined.

(** ** What a frame leaves behind *)

Lemma frame_globals (g g' : Game) :
  frame g g' →
  width g' = width g ∧ height g' = height g
  ∧ player_x g' = player_x g ∧ player_y g' = player_y g
  ∧ firing g' = firing g.
Proof. intros ->. by destruct g. Qed.

(** Only an inactive bullet that is fired changes [fire_delay]. *)
Lemma advance_fire_delay (nap : Qc) (p : Particle) (g : Game)
    (p' : Particle) (g' : Game) :
  advance nap p g = Ok (p', g') →
  firing g = false →
  fire_delay g' = fire_delay g ∧ (sub p = Bullet false → p' = p).
Proof.
  unfold advance.
  destruct p as [b px py s [pl| | |a|a w]]; cbn [class_of sub].
  - intros [= Hadv] _. revert Hadv. unfold Star_advance.
    cbn [x set_x get_plane sub base_i y size].
    case_decide; intros [= <- <-]; destruct g; by split.
  - intros [= Hadv] _. revert Hadv. unfold Trail_advance.
    cbn [x set_x get_plane sub base_i y size set_size].
    case_decide; intros [= <- <-]; destruct g; by split.
  - intros [= <- <-] _. destruct g; by split.
  - unfold Bullet_advance. cbn [get_active sub mbind result_bind].
    destruct a.
    + cbn [x set_x sub base_i y size].
      case_decide; intros [= <- <-] _; destruct g; by split.
    + intros Hadv Hf. rewrite Hf in Hadv. cbn [andb] in Hadv.
      by injection Hadv as <- <-.
  - unfold Enemy_advance. cbn [get_active sub mbind result_bind].
    destruct a.
    + unfold Enemy_check_hit. cbn [x y].
      destruct (hypot_lt (player_x g - px) (player_y g - py) (num 60)).
      { cbn [mbind result_bind]. by intros [= <- <-] _. }
      destruct (scan_bullets _ (bullets g) g) as [[hit g1]|] eqn:Hscan;
        [|done].
      cbn [mbind result_bind].
      apply scan_bullets_effect in Hscan
        as [[-> ->] | (-> & b0 & bp0 & bp' & Hin & Hbp & Hcl & ->)].
      * cbn [x set_x sub base_i y size set_y get_v set_v].
        by repeat case_decide; intros [= <- <-] _.
      * by intros [= <- <-] _.
    + case_decide; intros [= <- <-] _; destruct g; by split.
Qed.

(** X10.  While the player is not firing, a frame activates no bullet.
    For a well-formed widget with [firing] unset, in particular after
    [on_touch_up], [update_glsl] returns a widget with the same
    [fire_delay], [firing] still unset, and every bullet that was inactive
    unchanged. *)
Theorem idle_frame_keeps_bullets (nap : Qc) (mouse_pos : Qc * Qc) :
  (∀ g,
     well_formed g → firing g = false →
     ∃ g', Game_update_glsl nap mouse_pos g = Ok g'
           ∧ firing g' = false ∧ fire_delay g' = fire_delay g
           ∧ Forall2 (λ p q, sub p = Bullet false → q = p)
                     (particles g) (particles g'))
  ∧ (∀ g,
       well_formed g →
       ∃ g', Game_update_glsl nap mouse_pos (on_touch_up g) = Ok g'
             ∧ firing g' = false ∧ fire_delay g' = fire_delay g
             ∧ Forall2 (λ p q, sub p = Bullet false → q = p)
                       (particles g) (particles g')).
Proof.
  assert (Hidle : ∀ g,
     well_formed g → firing g = false →
     ∃ g', Game_update_glsl nap mouse_pos g = Ok g'
           ∧ firing g' = false ∧ fire_delay g' = fire_delay g
           ∧ Forall2 (λ p q, sub p = Bullet false → q = p)
                     (particles g) (particles g')).
  { intros g Hwf Hf.
    destruct (Game_update_glsl_spec nap mouse_pos g Hwf) as (g' & Hg' & _).
    exists g'. split; [done|].
    revert Hg'. unfold Game_update_glsl, PSWidget_update_glsl.
    set (g0 := set_spawn_delay _ _).
    assert (Hp0 : particles g0 = particles g)
      by (unfold g0; by destruct (firing _)).
    assert (Hf0 : firing g0 = false)
      by (unfold g0; cbn [firing set_player]; by rewrite Hf).
    assert (Hd0 : fire_delay g0 = fire_delay g)
      by (unfold g0; cbn [firing set_player]; by rewrite Hf).
    intros Hpass.
    destruct (pass_related
                (λ p q, sub p = Bullet false → q = p)
                (λ h, firing h = false ∧ fire_delay h = fire_delay g))
      with (nap := nap) (todo := seq 0 (length (particles g0)))
           (g := g0) (g' := g')
      as [[Hf' Hd'] HF]; try done.
    - intros p q r Hpq Hqr Hp. pose proof (Hpq Hp) as ->. by apply Hqr.
    - intros nap0 p h p' h' [Hfh Hdh] Hadv.
      destruct (advance_effect _ _ _ _ _ Hadv) as (_ & Hfr & _).
      destruct (frame_globals _ _ Hfr) as (_ & _ & _ & _ & Hff).
      destruct (advance_fire_delay _ _ _ _ _ Hadv Hfh) as [Hfd _].
      split; congruence.
    - intros nap0 p h p' h' [Hfh Hdh] Hadv.
      by destruct (advance_fire_delay _ _ _ _ _ Hadv Hfh) as [_ Hsame].
    - intros bp h _ Ha Hs. destruct bp as [? ? ? ? sb].
      cbn in Hs, Ha. subst sb. discriminate Ha.
    - by rewrite <-Hp0. }
  split; [exact Hidle|].
  intros g Hwf.
  destruct (Hidle (on_touch_up g)) as (g' & ? & ? & ? & ?); [|done|by exists g'].
  apply (well_formed_preserved g); [done| |done|done].
  apply Forall2_same_class_refl.
Qed.

Lemma idle_frame_keeps_bullets_witness :
  let b := mkParticle 0 (num (-100)) (num (-100)) 1 (Bullet false) in
  let g := mkGame (num 800) (num 600) ∅ [] (replicate 28 0) [b]
                  [0%nat] (num 500) (num 500) true (num (-1)) 1
                  (λ _, 7%N) 0 in
  ∃ g', Game_update_glsl (frac 1 60) (num 5, num 6) (on_touch_up g) = Ok g'
        ∧ firing g' = false ∧ fire_delay g' = fire_delay g
        ∧ Forall2 (λ p q, sub p = Bullet false → q = p)
                  (particles g) (particles g').
Proof.
  intros b g.
  apply (proj2 (idle_frame_keeps_bullets (frac 1 60) (num 5, num 6)) g).
  split; [split|].
  - reflexivity.
  - intros [|i] p Hp; [injection Hp as <-; reflexivity|discriminate Hp].
  - intros n Hn. apply list_elem_of_singleton in Hn. subst n. split.
    + exists b. split; reflexivity.
    + intros [|i] p Hp Hc; [|discriminate Hp].
      injection Hp as <-. discriminate Hc.
Defined.

(** What [update_glsl] passes to the loop over the pool. *)
Lemma Game_update_glsl_pass (nap : Qc) (mouse_pos : Qc * Qc) (g g' : Game) :
  Game_update_glsl nap mouse_pos g = Ok g' →
  ∃ g0, pass nap (seq 0 (length (particles g0))) g0 = Ok g'
        ∧ particles g0 = particles g
        ∧ player_x g0 = mouse_pos.1 ∧ player_y g0 = mouse_pos.2
        ∧ width g0 = width g ∧ height g0 = height g.
Proof.
  unfold Game_update_glsl, PSWidget_update_glsl.
  set (g0 := set_spawn_delay _ _). intros Hpass. exists g0.
  split; [done|]. unfold g0. by destruct (firing _).
Qed.

Lemma advance_keeps_class (nap : Qc) (p : Particle) (g : Game)
    (p' : Particle) (g' : Game) :
  advance nap p g = Ok (p', g') → class_of (sub p') = class_of (sub p).
Proof.
  intros Hadv. by destruct (advance_effect _ _ _ _ _ Hadv) as ([_ ?] & _).
Qed.

Lemma reset_active_class (bp : Particle) (g : Game) :
  get_active bp = Ok true →
  class_of (sub (reset false bp g).1) = CBullet
  ∨ class_of (sub (reset false bp g).1) = CEnemy.
Proof.
  destruct bp as [b px py s [pl| | |a|a w]]; intros [=]; by (left + right).
Qed.

(** X11.  The player's sprite follows the mouse.  After [update_glsl] on a
    well-formed widget [player_x, player_y] is the mouse position, every
    [Player] particle is at this position, and so are the four vertex
    records of its quad. *)
Theorem player_follows_mouse (nap : Qc) (mouse_pos : Qc * Qc) (g : Game) :
  well_formed g →
  ∃ g', Game_update_glsl nap mouse_pos g = Ok g'
        ∧ player_x g' = mouse_pos.1 ∧ player_y g' = mouse_pos.2
        ∧ ∀ (i : nat) p,
            particles g' !! i = Some p → sub p = Player →
            x p = mouse_pos.1 ∧ y p = mouse_pos.2
            ∧ ∀ k : nat, (k < 4)%nat →
                vertices g' !! (base_i p + k * vsize)%nat
                = Some mouse_pos.1
                ∧ vertices g' !! (base_i p + k * vsize + 1)%nat
                  = Some mouse_pos.2.
Proof.
  intros Hwf.
  destruct (Game_update_glsl_spec nap mouse_pos g Hwf)
    as (g' & Hg' & _ & Hsync & _).
  exists g'. split; [done|].
  destruct (Game_update_glsl_pass _ _ _ _ Hg')
    as (g0 & Hpass & Hp0 & Hx0 & Hy0 & _).
  destruct (pass_post
              (λ p, sub p = Player → x p = mouse_pos.1 ∧ y p = mouse_pos.2)
              (λ h, player_x h = mouse_pos.1 ∧ player_y h = mouse_pos.2))
    with (nap := nap) (n := length (particles g0)) (k := 0%nat)
         (g := g0) (g' := g')
    as [[Hx' Hy'] HQ]; try done.
  - intros nap0 p h p' h' [Hxh Hyh] Hadv.
    destruct (advance_effect _ _ _ _ _ Hadv) as (_ & Hfr & _).
    destruct (frame_globals _ _ Hfr) as (_ & _ & ? & ? & _).
    split; congruence.
  - intros nap0 p h p' h' [Hxh Hyh] Hadv Hs.
    pose proof (advance_keeps_class _ _ _ _ _ Hadv) as Hc.
    rewrite Hs in Hc. revert Hadv. unfold advance. rewrite <-Hc.
    cbn [class_of]. intros [= <- <-]. done.
  - intros bp h _ _ Ha Hs.
    destruct (reset_active_class bp h Ha) as [Hc | Hc];
      rewrite Hs in Hc; discriminate Hc.
  - intros i p Hi. lia.
  - split; [done|]. split; [done|]. intros i p Hp Hs.
    destruct (HQ i p Hp Hs) as [Hx Hy]. split; [done|]. split; [done|].
    intros k Hk. destruct (Hsync i p Hp k Hk) as (Hvx & Hvy & _).
    by rewrite Hvx, Hvy, Hx, Hy.
Qed.

Lemma player_follows_mouse_witness :
  let pl := mkParticle 0 (num 3) (num 4) 1 Player in
  let g := mkGame (num 800) (num 600) ∅ [] (replicate 28 0) [pl]
                  [] (num 3) (num 4) false 0 1 (λ _, 7%N) 0 in
  ∃ g', Game_update_glsl (frac 1 60) (num 5, num 6) g = Ok g'
        ∧ player_x g' = num 5 ∧ player_y g' = num 6
        ∧ ∀ (i : nat) p,
            particles g' !! i = Some p → sub p = Player →
            x p = num 5 ∧ y p = num 6
            ∧ ∀ k : nat, (k < 4)%nat →
                vertices g' !! (base_i p + k * vsize)%nat = Some (num 5)
                ∧ vertices g' !! (base_i p + k * vsize + 1)%nat
                  = Some (num 6).
Proof.
  intros pl g.
  apply (player_follows_mouse (frac 1 60) (num 5, num 6) g).
  split; [split|].
  - reflexivity.
  - intros [|i] p Hp; [injection Hp as <-; reflexivity|discriminate Hp].
  - intros n Hn. by apply elem_of_nil in Hn.
Defined.

Lemma Star_reset_sub (created : bool) (p : Particle) (g : Game) (n0 : Z) :
  sub p = Star n0 → ∃ n, sub (Star_reset created p g).1 = Star n.
Proof.
  intros Hs. destruct p as [b px py s sp]. cbn in Hs. subst sp.
  unfold Star_reset. destruct (randint 1 3 g) as [n g1].
  destruct created; [destruct (random g1) as [r g2]|];
    destruct (random _) as [q g3]; by exists n.
Qed.

Lemma Trail_reset_sub (p : Particle) (g : Game) :
  sub (Trail_reset false p g).1 = sub p.
Proof.
  unfold Trail_reset. destruct (randint (-30) (-20) g) as [n g1].
  destruct (randint (-10) 10 g1) as [m g2].
  destruct (random g2) as [r g3]. by destruct p.
Qed.

Lemma Trail_reset_size (p : Particle) (g : Game) :
  frac 6 10 ≤ size (Trail_reset false p g).1
  ∧ size (Trail_reset false p g).1 < frac 6 10 + 1.
Proof.
  unfold Trail_reset.
  destruct (randint (-30) (-20) g) as [n g1].
  destruct (randint (-10) 10 g1) as [m g2].
  pose proof (random_range g2) as [Hr0 Hr1].
  destruct (random g2) as [r g3]. cbn [fst snd] in *.
  destruct p as [b px py s sb]. cbn [size set_size set_x set_y fst].
  split.
  - rewrite <-(Qcplus_0_l (frac 6 10)) at 1. by apply Qcplus_le_compat.
  - rewrite (Qcplus_comm r). rewrite (Qcplus_comm (frac 6 10) 1).
    rewrite !(Qcplus_comm _ (frac 6 10)).
    apply Qcplus_lt_mono_l. done.
Qed.

(** X12.  Where a frame leaves the sprites.  After [update_glsl] on a
    well-formed widget of non-negative width no star is left of the
    screen, every trail is larger than 0.1, no active enemy is left of
    [-50], and an active bullet is not right of the screen unless it was
    fired in this frame, [40] right of the mouse position. *)
Theorem frame_leaves_sprites_in_view (nap : Qc) (mouse_pos : Qc * Qc)
    (g : Game) :
  well_formed g → 0 ≤ width g →
  ∃ g', Game_update_glsl nap mouse_pos g = Ok g'
        ∧ ∀ (i : nat) p,
            particles g' !! i = Some p →
            match sub p with
            | Star _ => 0 ≤ x p
            | Trail => frac 1 10 < size p
            | Enemy true _ => num (-50) ≤ x p
            | Bullet true =>
                x p ≤ width g
                ∨ (x p = mouse_pos.1 + num 40 ∧ y p = mouse_pos.2)
            | _ => True
            end.
Proof.
  intros Hwf Hw.
  destruct (Game_update_glsl_spec nap mouse_pos g Hwf) as (g' & Hg' & _).
  exists g'. split; [done|].
  destruct (Game_update_glsl_pass _ _ _ _ Hg')
    as (g0 & Hpass & Hp0 & Hx0 & Hy0 & Hw0 & _).
  destruct (pass_post
              (λ p, match sub p with
                    | Star _ => 0 ≤ x p
                    | Trail => frac 1 10 < size p
                    | Enemy true _ => num (-50) ≤ x p
                    | Bullet true =>
                        x p ≤ width g
                        ∨ (x p = mouse_pos.1 + num 40 ∧ y p = mouse_pos.2)
                    | _ => True
                    end)
              (λ h, width h = width g ∧ player_x h = mouse_pos.1
                    ∧ player_y h = mouse_pos.2))
    with (nap := nap) (n := length (particles g0)) (k := 0%nat)
         (g := g0) (g' := g')
    as [_ HQ]; try done.
  - intros nap0 p h p' h' (Hwh & Hxh & Hyh) Hadv.
    destruct (advance_effect _ _ _ _ _ Hadv) as (_ & Hfr & _).
    destruct (frame_globals _ _ Hfr) as (? & _ & ? & ? & _).
    repeat split; congruence.
  - intros nap0 p h p' h' (Hwh & Hxh & Hyh). unfold advance.
    destruct p as [b px py s [pl| | |a|a w]]; cbn [class_of sub].
    + intros [= Hadv]. revert Hadv. unfold Star_advance.
      cbn [x set_x get_plane sub base_i y size]. case_decide as Hneg.
      * intros Hr.
        pose proof (Star_reset_sub false
          (mkParticle b (px - num (20 * pl) * nap0) py s (Star pl)) h pl
          eq_refl) as [n Hs].
        pose proof (Star_reset_respawn
          (mkParticle b (px - num (20 * pl) * nap0) py s (Star pl)) h) as Hx.
        unfold set_x in Hr. cbn [x y size sub base_i] in Hr.
        rewrite Hr in Hs, Hx. cbn [fst] in Hs, Hx.
        rewrite Hs, Hx, Hwh. done.
      * intros [= <- <-]. cbn. by apply Qcnot_lt_le.
    + intros [= Hadv]. revert Hadv. unfold Trail_advance.
      cbn [x set_x sub base_i y size set_size]. case_decide as Hsmall.
      * intros Hr.
        pose proof (Trail_reset_sub
          (mkParticle b px py (s - nap0) Trail) h) as Hs.
        pose proof (Trail_reset_size
          (mkParticle b px py (s - nap0) Trail) h) as [Hlo _].
        unfold set_size in Hr. cbn [x y size sub base_i] in Hr.
        rewrite Hr in Hs, Hlo. cbn [fst sub] in Hs, Hlo. rewrite Hs.
        eapply Qclt_le_trans; [|exact Hlo]. qc_cmp.
      * intros [= <- <-]. cbn. by apply Qcnot_le_lt.
    + by intros [= <- <-].
    + unfold Bullet_advance. cbn [get_active sub mbind result_bind].
      destruct a.
      * cbn [x set_x sub base_i y size]. case_decide as Hout.
        -- by intros [= <- <-].
        -- intros [= <- <-]. cbn. left. rewrite <-Hwh.
           by apply Qcnot_lt_le.
      * destruct (firing h && bool_decide (fire_delay h ≤ 0)).
        -- intros [= <- <-]. cbn. right. by rewrite Hxh, Hyh.
        -- by intros [= <- <-].
    + unfold Enemy_advance. cbn [get_active sub mbind result_bind].
      destruct a.
      * destruct (Enemy_check_hit _ h) as [[hit h1]|]; [|done].
        cbn [mbind result_bind]. destruct hit; [by intros [= <- <-]|].
        cbn [x set_x sub base_i y size set_y get_v set_v].
        case_decide as Hleft; [by intros [= <- <-]|].
        apply Qcnot_lt_le in Hleft.
        by repeat case_decide; intros [= <- <-].
      * case_decide; [|by intros [= <- <-]].
        destruct (random h) as [r h1] eqn:Hrd.
        pose proof (random_state h) as Hst. rewrite Hrd in Hst.
        cbn [snd] in Hst.
        destruct (randint _ _ h1) as [n h2]. intros [= <- <-]. cbn.
        rewrite Hwh. eapply Qcle_trans; [|apply Qcplus_le_compat;
          [exact Hw | apply Qcle_refl]].
        qc_cmp.
  - intros bp h _ _ Ha.
    destruct bp as [b px py s [pl| | |a|a w]]; try discriminate Ha;
      by injection Ha as ->.
  - intros i p Hi. lia.
Qed.

Lemma frame_leaves_sprites_in_view_witness :
  let s := mkParticle 0 (frac 1 10) (num 50) (frac 2 10) (Star 2) in
  let t := mkParticle 28 (num 3) (num 4) (frac 1 10) Trail in
  let g := mkGame (num 800) (num 600) ∅ [] (replicate 56 0) [s; t]
                  [] (num 500) (num 500) false 0 1 (λ _, 7%N) 0 in
  ∃ g', Game_update_glsl (frac 1 60) (num 5, num 6) g = Ok g'
        ∧ ∀ (i : nat) p,
            particles g' !! i = Some p →
            match sub p with
            | Star _ => 0 ≤ x p
            | Trail => frac 1 10 < size p
            | Enemy true _ => num (-50) ≤ x p
            | Bullet true =>
                x p ≤ width g ∨ (x p = num 5 + num 40 ∧ y p = num 6)
            | _ => True
            end.
Proof.
  intros s t g.
  apply (frame_leaves_sprites_in_view (frac 1 60) (num 5, num 6) g).
  - split; [split|].
    + reflexivity.
    + intros [|[|i]] p Hp;
        [injection Hp as <-; reflexivity..|discriminate Hp].
    + intros n Hn. by apply elem_of_nil in Hn.
  - qc_cmp.
Defined.

(** ** Populating the pool *)

Lemma make_particles_shape (c : Cls) (n : nat) (g g' : Game) :
  make_particles c n g = Ok g' →
  (∃ ps, particles g' = particles g ++ ps ∧ length ps = n
         ∧ ∀ (k : nat) p, ps !! k = Some p →
             base_i p = (4 * (length (particles g) + k) * vsize)%nat
             ∧ class_of (sub p) = c)
  ∧ length (vertices g') = (length (vertices g) + 4 * vsize * n)%nat
  ∧ length (indices g') = (length (indices g) + 6 * n)%nat
  ∧ uvmap g' = uvmap g.
Proof.
  unfold make_particles. destruct (uvmap g !! tex_name c) as [uv|]; [|done].
  intros [= <-].
  destruct (make_particles_loop c uv n (length (particles g)) g)
    as (Hi & Hv & Hps & _ & Hu).
  cbn zeta in *. split; [done|]. split; [|split; [|done]].
  - rewrite Hv, length_app, length_concat_replicate. cbn. unfold vsize. lia.
  - by rewrite Hi, length_app, length_quad_indices.
Qed.

Lemma make_particles_raise (c : Cls) (n : nat) (g : Game) (e : exn) :
  make_particles c n g = Raise e →
  e = KeyError ∧ uvmap g !! tex_name c = None.
Proof.
  unfold make_particles. destruct (uvmap g !! tex_name c) as [uv|]; [done|].
  by intros [= <-].
Qed.

Lemma make_particles_Ok (c : Cls) (n : nat) (g g' : Game) :
  make_particles c n g = Ok g' → is_Some (uvmap g !! tex_name c).
Proof.
  unfold make_particles. destruct (uvmap g !! tex_name c) as [uv|]; [|done].
  by eexists.
Qed.

Lemma initialize_raises (g : Game) (c : Cls) :
  uvmap g !! tex_name c = None → initialize g = Raise KeyError.
Proof.
  intros Hc. unfold initialize.
  destruct (make_particles CStar 300 g) as [g1|e] eqn:H1;
    [|by apply make_particles_raise in H1 as [-> _]].
  pose proof (make_particles_uvmap _ _ _ _ H1) as Hu1.
  cbn [mbind result_bind].
  destruct (make_particles CTrail 200 g1) as [g2|e] eqn:H2;
    [|by apply make_particles_raise in H2 as [-> _]].
  pose proof (make_particles_uvmap _ _ _ _ H2) as Hu2.
  cbn [mbind result_bind].
  destruct (make_particles CPlayer 1 g2) as [g3|e] eqn:H3;
    [|by apply make_particles_raise in H3 as [-> _]].
  pose proof (make_particles_uvmap _ _ _ _ H3) as Hu3.
  cbn [mbind result_bind].
  destruct (make_particles CEnemy 25 g3) as [g4|e] eqn:H4;
    [|by apply make_particles_raise in H4 as [-> _]].
  pose proof (make_particles_uvmap _ _ _ _ H4) as Hu4.
  cbn [mbind result_bind].
  destruct (make_particles CBullet 25 g4) as [g5|e] eqn:H5;
    [|by apply make_particles_raise in H5 as [-> _]].
  apply make_particles_Ok in H1, H2, H3, H4, H5.
  rewrite Hu4, Hu3, Hu2, Hu1 in H5. rewrite Hu3, Hu2, Hu1 in H4.
  rewrite Hu2, Hu1 in H3. rewrite Hu1 in H2.
  destruct c; rewrite Hc in *;
    by first [destruct H1 | destruct H2 | destruct H3 | destruct H4
             | destruct H5].
Qed.

Lemma initialize_shape (g : Game) :
  (∀ c, is_Some (uvmap g !! tex_name c)) →
  ∃ g' ps,
    initialize g = Ok g'
    ∧ particles g' = particles g ++ ps ∧ length ps = 551%nat
    ∧ (∀ (k : nat) p, ps !! k = Some p →
         base_i p = (4 * (length (particles g) + k) * vsize)%nat
         ∧ class_of (sub p)
           = if decide (k < 300)%nat then CStar
             else if decide (k < 500)%nat then CTrail
             else if decide (k < 501)%nat then CPlayer
             else if decide (k < 526)%nat then CEnemy
             else CBullet)
    ∧ bullets g' = seq (length (particles g) + 526) 25
    ∧ length (vertices g') = (length (vertices g) + 551 * 28)%nat
    ∧ length (indices g') = (length (indices g) + 551 * 6)%nat.
Proof.
  intros Huv. unfold initialize.
  destruct (make_particles_total CStar 300 g (Huv _)) as [g1 H1].
  destruct (make_particles_shape _ _ _ _ H1)
    as ((ps1 & Hp1 & Hn1 & Ha1) & Hv1 & Hi1 & Hu1).
  rewrite H1. cbn [mbind result_bind].
  destruct (make_particles_total CTrail 200 g1) as [g2 H2];
    [rewrite Hu1; apply Huv|].
  destruct (make_particles_shape _ _ _ _ H2)
    as ((ps2 & Hp2 & Hn2 & Ha2) & Hv2 & Hi2 & Hu2).
  rewrite H2. cbn [mbind result_bind].
  destruct (make_particles_total CPlayer 1 g2) as [g3 H3];
    [rewrite Hu2, Hu1; apply Huv|].
  destruct (make_particles_shape _ _ _ _ H3)
    as ((ps3 & Hp3 & Hn3 & Ha3) & Hv3 & Hi3 & Hu3).
  rewrite H3. cbn [mbind result_bind].
  destruct (make_particles_total CEnemy 25 g3) as [g4 H4];
    [rewrite Hu3, Hu2, Hu1; apply Huv|].
  destruct (make_particles_shape _ _ _ _ H4)
    as ((ps4 & Hp4 & Hn4 & Ha4) & Hv4 & Hi4 & Hu4).
  rewrite H4. cbn [mbind result_bind].
  destruct (make_particles_total CBullet 25 g4) as [g5 H5];
    [rewrite Hu4, Hu3, Hu2, Hu1; apply Huv|].
  destruct (make_particles_shape _ _ _ _ H5)
    as ((ps5 & Hp5 & Hn5 & Ha5) & Hv5 & Hi5 & Hu5).
  rewrite H5. cbn [mbind result_bind].
  assert (Hl1 : length (particles g1) = (length (particles g) + 300)%nat)
    by (rewrite Hp1, length_app; lia).
  assert (Hl2 : length (particles g2) = (length (particles g) + 500)%nat)
    by (rewrite Hp2, length_app; lia).
  assert (Hl3 : length (particles g3) = (length (particles g) + 501)%nat)
    by (rewrite Hp3, length_app; lia).
  assert (Hl4 : length (particles g4) = (length (particles g) + 526)%nat)
    by (rewrite Hp4, length_app; lia).
  assert (Hl5 : length (particles g5) = (length (particles g) + 551)%nat)
    by (rewrite Hp5, length_app; lia).
  eexists _, (ps1 ++ ps2 ++ ps3 ++ ps4 ++ ps5). split; [reflexivity|].
  cbn [particles set_bullets bullets vertices indices].
  split; [by rewrite Hp5, Hp4, Hp3, Hp2, Hp1, <-!app_assoc|].
  split; [rewrite !length_app; lia|].
  split.
  { intros k p Hk.
    apply lookup_app_Some in Hk as [Hk | [Hge1 Hk]].
    { pose proof (lookup_lt_Some _ _ _ Hk).
      destruct (Ha1 _ _ Hk) as [-> ->]. split; [done|].
      by rewrite decide_True by lia. }
    apply lookup_app_Some in Hk as [Hk | [Hge2 Hk]].
    { pose proof (lookup_lt_Some _ _ _ Hk).
      destruct (Ha2 _ _ Hk) as [-> ->]. split; [f_equal; lia|].
      rewrite decide_False by lia. by rewrite decide_True by lia. }
    apply lookup_app_Some in Hk as [Hk | [Hge3 Hk]].
    { pose proof (lookup_lt_Some _ _ _ Hk).
      destruct (Ha3 _ _ Hk) as [-> ->]. split; [f_equal; lia|].
      rewrite !decide_False by lia. by rewrite decide_True by lia. }
    apply lookup_app_Some in Hk as [Hk | [Hge4 Hk]].
    { pose proof (lookup_lt_Some _ _ _ Hk).
      destruct (Ha4 _ _ Hk) as [-> ->]. split; [f_equal; lia|].
      rewrite !decide_False by lia. by rewrite decide_True by lia. }
    pose proof (lookup_lt_Some _ _ _ Hk).
    destruct (Ha5 _ _ Hk) as [-> ->]. split; [f_equal; lia|].
    by rewrite !decide_False by lia. }
  split.
  { unfold last_positions. rewrite Hl5. f_equal; lia. }
  split; [rewrite Hv5, Hv4, Hv3, Hv2, Hv1; unfold vsize; lia|].
  rewrite Hi5, Hi4, Hi3, Hi2, Hi1. lia.
Qed.

(** X13.  What [initialize] makes of the pool.  With the five sprite names
    in the table it appends 551 particles, in this order 300 stars, 200
    trails, the player, 25 enemies and 25 bullets, each owning the next
    four vertex records; [bullets] becomes the positions of the 25
    bullets, and the vertex and index arrays grow by 28 and 6 scalars per
    particle.  If one of the five names is missing it raises [KeyError]. *)
Theorem initialize_populates :
  (∀ g,
     (∀ c, is_Some (uvmap g !! tex_name c)) →
     ∃ g' ps,
       initialize g = Ok g'
       ∧ particles g' = particles g ++ ps ∧ length ps = 551%nat
       ∧ (∀ (k : nat) p, ps !! k = Some p →
            base_i p = (4 * (length (particles g) + k) * vsize)%nat
            ∧ class_of (sub p)
              = if decide (k < 300)%nat then CStar
                else if decide (k < 500)%nat then CTrail
                else if decide (k < 501)%nat then CPlayer
                else if decide (k < 526)%nat then CEnemy
                else CBullet)
       ∧ bullets g' = seq (length (particles g) + 526) 25
       ∧ length (vertices g') = (length (vertices g) + 551 * 28)%nat
       ∧ length (indices g') = (length (indices g) + 551 * 6)%nat)
  ∧ (∀ g c, uvmap g !! tex_name c = None → initialize g = Raise KeyError).
Proof. split; [exact initialize_shape | exact initialize_raises]. Qed.

Lemma initialize_populates_witness :
  let uv := mkUV 0 (frac 9 10) (frac 1 10) 1 (num 5) (num 5) in
  let sprites : gmap string UVMapping :=
    list_to_map [("star", uv); ("trail", uv); ("player", uv);
                 ("ufo", uv); ("bullet", uv)]%string in
  let g := mkGame (num 800) (num 600) sprites [] [] [] []
                  0 0 false 0 1 (λ _, 7%N) 0 in
  let h := mkGame (num 800) (num 600) (delete "ufo"%string sprites)
                  [] [] [] [] 0 0 false 0 1 (λ _, 7%N) 0 in
  (∃ g' ps,
     initialize g = Ok g'
     ∧ particles g' = particles g ++ ps ∧ length ps = 551%nat
     ∧ (∀ (k : nat) p, ps !! k = Some p →
          base_i p = (4 * (length (particles g) + k) * vsize)%nat
          ∧ class_of (sub p)
            = if decide (k < 300)%nat then CStar
              else if decide (k < 500)%nat then CTrail
              else if decide (k < 501)%nat then CPlayer
              else if decide (k < 526)%nat then CEnemy
              else CBullet)
     ∧ bullets g' = seq (length (particles g) + 526) 25
     ∧ length (vertices g') = (length (vertices g) + 551 * 28)%nat
     ∧ length (indices g') = (length (indices g) + 551 * 6)%nat)
  ∧ initialize h = Raise KeyError.
Proof.
  intros uv sprites g h. split.
  - apply (proj1 initialize_populates g).
    intros c. destruct c; vm_compute; eauto.
  - apply (proj2 initialize_populates h CEnemy). reflexivity.
Defined.

(** X14.  From the manifest to the pool.  With a texture of non-zero
    width and height the first [Game()] of a process succeeds; on the
    widget it returns [initialize] succeeds, with a well-formed pool of 551
    particles, when the last entry of the manifest names the sprites
    [star], [trail], [player], [ufo] and [bullet], and raises [KeyError]
    when it lacks one of them. *)
Theorem Game_start (rest : atlas_dict) (tex : string)
    (mapping : sprite_dict) (Image : string → Texture)
    (size mouse_pos : Qc * Qc) (rnd : nat → N) (W H : Qc) :
  tex_size (Image ("assets/images/" +:+ tex)) = (W, H) →
  W ≠ 0 → H ≠ 0 →
  ((∀ c, tex_name c ∈ mapping.*1) →
   ∃ g g',
     Game_new (rest ++ [(tex, mapping)]) Image size mouse_pos rnd
              PSWidget_class = Ok g
     ∧ initialize g = Ok g' ∧ well_formed g'
     ∧ length (particles g') = 551%nat)
  ∧ (∀ c, tex_name c ∉ mapping.*1 →
     ∃ g,
       Game_new (rest ++ [(tex, mapping)]) Image size mouse_pos rnd
                PSWidget_class = Ok g
       ∧ initialize g = Raise KeyError).
Proof.
  intros Hsz HW HH.
  destruct (load_items_total mapping W H ∅ HW HH) as [m Hm].
  pose proof (load_items_keys _ _ _ _ _ Hm) as Hkeys.
  unfold Game_new, load_atlas, PSWidget_class. rewrite popitem_snoc.
  cbn [mbind result_bind]. rewrite Hsz, Hm. cbn [mbind result_bind].
  set (g := mkGame _ _ _ _ _ _ _ _ _ _ _ _ _ _).
  split.
  - intros Hall.
    assert (Huv : ∀ c, is_Some (uvmap g !! tex_name c)).
    { intros c. apply Hkeys. left. apply Hall. }
    destruct (initialize_shape g Huv)
      as (g' & ps & Hi & Hp & Hlen & _).
    exists g, g'. split; [done|]. split; [done|]. split.
    + apply (initialize_well_formed g); [|done].
      split; [done|]. intros i p Hp'. discriminate Hp'.
    + by rewrite Hp.
  - intros c Hc. exists g. split; [done|].
    apply (initialize_raises _ c). cbn [uvmap g].
    apply eq_None_not_Some. intros Hs. apply Hkeys in Hs as [Hs | Hs]; [done|].
    rewrite lookup_empty in Hs. by destruct Hs.
Qed.

Lemma Game_start_witness :
  let r := (0, 0, num 10, num 10) in
  let complete : sprite_dict :=
    [("star", r); ("trail", r); ("player", r); ("ufo", r);
     ("bullet", r)]%string in
  let lacking : sprite_dict :=
    [("star", r); ("trail", r); ("player", r); ("bullet", r)]%string in
  let Image := λ path, mkTexture path (num 100, num 100) in
  (∃ g g',
     Game_new [("shmup.png"%string, complete)] Image
              (num 800, num 600) (num 5, num 6) (λ _, 7%N) PSWidget_class
     = Ok g
     ∧ initialize g = Ok g' ∧ well_formed g'
     ∧ length (particles g') = 551%nat)
  ∧ (∃ g,
       Game_new [("shmup.png"%string, lacking)] Image
                (num 800, num 600) (num 5, num 6) (λ _, 7%N) PSWidget_class
       = Ok g
       ∧ initialize g = Raise KeyError).
Proof.
  intros r complete lacking Image. split.
  - destruct (Game_start [] "shmup.png" complete Image
                (num 800, num 600) (num 5, num 6) (λ _, 7%N)
                (num 100) (num 100)) as [Hok _];
      [reflexivity | qc_neq | qc_neq |].
    apply Hok. intros c.
    destruct c; cbn [tex_name fmap list_fmap fst complete];
      repeat (first [by apply list_elem_of_here
                    | apply list_elem_of_further]).
  - destruct (Game_start [] "shmup.png" lacking Image
                (num 800, num 600) (num 5, num 6) (λ _, 7%N)
                (num 100) (num 100)) as [_ Hko];
      [reflexivity | qc_neq | qc_neq |].
    apply (Hko CEnemy). cbn [tex_name fmap list_fmap fst lacking].
    intros Hin.
    repeat (apply elem_of_cons in Hin as [Heq | Hin]; [discriminate Heq|]).
    by apply elem_of_nil in Hin.
Defined.

(** ** Texture coordinates *)

Lemma Qc_inv_pos (a : Qc) : 0 < a → 0 < / a.
Proof.
  intros Ha. unfold Qclt, Qcinv. cbn [this Q2Qc]. rewrite !Qred_correct.
  apply Qinv_lt_0_compat. exact Ha.
Qed.

Lemma Qc_div_nonneg (a b : Qc) : 0 ≤ a → 0 < b → 0 ≤ a / b.
Proof.
  intros Ha Hb. unfold Qcdiv. apply Qcmult_nonneg_nonneg; [done|].
  by apply Qclt_le_weak, Qc_inv_pos.
Qed.

Lemma Qc_div_le_1 (a b : Qc) : a ≤ b → 0 < b → a / b ≤ 1.
Proof.
  intros Hab Hb. unfold Qcdiv.
  rewrite <-(Qcmult_inv_r b) by (by apply Qc_pos_ne_0).
  apply Qcmult_le_compat_r; [done|]. by apply Qclt_le_weak, Qc_inv_pos.
Qed.

Lemma Qc_div_lt (a b c : Qc) : a < b → 0 < c → a / c < b / c.
Proof.
  intros Hab Hc. unfold Qcdiv. apply Qcmult_lt_compat_r; [|done].
  by apply Qc_inv_pos.
Qed.

Lemma Qc_lt_add_pos (a w : Qc) : 0 < w → a < a + w.
Proof.
  intros Hw. apply Qclt_minus_iff.
  by replace (a + w + - a) with w by ring.
Qed.

Lemma Qc_half_pos (w : Qc) : 0 < w → 0 < w / 2.
Proof.
  intros Hw. unfold Qcdiv. rewrite <-(Qcmult_0_l (/ 2)).
  apply Qcmult_lt_compat_r; [qc_cmp | done].
Qed.

Lemma uv_of_rect_bounds (x0 y0 w h W H : Qc) :
  0 ≤ x0 → 0 ≤ y0 → 0 < w → 0 < h → x0 + w ≤ W → y0 + h ≤ H →
  ∃ uv, uv_of_rect (x0, y0, w, h) W H = Ok uv
        ∧ 0 ≤ u0 uv ∧ u0 uv < u1 uv ∧ u1 uv ≤ 1
        ∧ 0 ≤ v0 uv ∧ v0 uv < v1 uv ∧ v1 uv ≤ 1
        ∧ 0 < su uv ∧ 0 < sv uv.
Proof.
  intros Hx Hy Hw Hh HxW HyH.
  assert (HW : 0 < W).
  { eapply Qclt_le_trans; [|exact HxW].
    eapply Qcle_lt_trans; [exact Hx|]. by apply Qc_lt_add_pos. }
  assert (HH : 0 < H).
  { eapply Qclt_le_trans; [|exact HyH].
    eapply Qcle_lt_trans; [exact Hy|]. by apply Qc_lt_add_pos. }
  pose proof (Qc_pos_ne_0 _ HW) as HW0. pose proof (Qc_pos_ne_0 _ HH) as HH0.
  eexists. split; [by apply uv_of_rect_ok|]. cbn [u0 u1 v0 v1 su sv].
  split; [by apply Qc_div_nonneg|].
  split; [apply Qc_div_lt; [by apply Qc_lt_add_pos | done]|].
  split; [by apply Qc_div_le_1|].
  split.
  { apply (proj1 (Qcle_minus_iff ((y0 + h) / H) 1)). by apply Qc_div_le_1. }
  split.
  { apply Qclt_minus_iff.
    replace (1 - y0 / H + - (1 - (y0 + h) / H))
      with ((y0 + h) / H + - (y0 / H)) by ring.
    apply (proj1 (Qclt_minus_iff (y0 / H) ((y0 + h) / H))).
    apply Qc_div_lt; [by apply Qc_lt_add_pos | done]. }
  split.
  { apply Qcle_minus_iff.
    replace (1 + - (1 - y0 / H)) with (y0 / H) by ring.
    by apply Qc_div_nonneg. }
  split; by apply Qc_half_pos.
Qed.

(** X15.  The texture coordinates of a sprite inside the texture.  When
    every rectangle [(x0, y0, w, h)] of the last entry of the manifest has
    [0 <= x0], [0 <= y0], [0 < w], [0 < h] and lies inside the texture,
    [load_atlas] returns a table of exactly the sprite names, each with
    [0 <= u0 < u1 <= 1], [0 <= v0 < v1 <= 1] and positive half
    extents. *)
Theorem load_atlas_unit_square (rest : atlas_dict) (tex : string)
    (mapping : sprite_dict) (Image : string → Texture) (W H : Qc) :
  NoDup mapping.*1 →
  tex_size (Image ("assets/images/" +:+ tex)) = (W, H) →
  (∀ name x0 y0 w h,
     (name, (x0, y0, w, h)) ∈ mapping →
     0 ≤ x0 ∧ 0 ≤ y0 ∧ 0 < w ∧ 0 < h ∧ x0 + w ≤ W ∧ y0 + h ≤ H) →
  ∃ uvmap,
    load_atlas (rest ++ [(tex, mapping)]) Image
    = Ok (Image ("assets/images/" +:+ tex), uvmap)
    ∧ (∀ name, is_Some (uvmap !! name) ↔ name ∈ mapping.*1)
    ∧ ∀ name uv,
        uvmap !! name = Some uv →
        0 ≤ u0 uv ∧ u0 uv < u1 uv ∧ u1 uv ≤ 1
        ∧ 0 ≤ v0 uv ∧ v0 uv < v1 uv ∧ v1 uv ≤ 1
        ∧ 0 < su uv ∧ 0 < sv uv.
Proof.
  intros Hnd Hsz Hin.
  unfold load_atlas. rewrite popitem_snoc. cbn [mbind result_bind].
  rewrite Hsz.
  destruct mapping as [|[n0 [[[a0 b0] w0] h0]] items] eqn:Hmap.
  { eexists. split; [reflexivity|]. split.
    - intros name. rewrite lookup_empty, fmap_nil, elem_of_nil.
      split; [by intros [] | done].
    - intros name uv. by rewrite lookup_empty. }
  rewrite <-Hmap in *.
  assert (HWH : 0 < W ∧ 0 < H).
  { destruct (Hin n0 a0 b0 w0 h0) as (Hx & Hy & Hw & Hh & HxW & HyH);
      [rewrite Hmap; by apply elem_of_cons; left|].
    destruct (uv_of_rect_bounds a0 b0 w0 h0 W H) as (_ & _ & _);
      try done.
    split.
    - eapply Qclt_le_trans; [|exact HxW].
      eapply Qcle_lt_trans; [exact Hx|]. by apply Qc_lt_add_pos.
    - eapply Qclt_le_trans; [|exact HyH].
      eapply Qcle_lt_trans; [exact Hy|]. by apply Qc_lt_add_pos. }
  destruct HWH as [HW HH].
  pose proof (Qc_pos_ne_0 _ HW) as HW0. pose proof (Qc_pos_ne_0 _ HH) as HH0.
  destruct (load_items_total mapping W H ∅ HW0 HH0) as [m Hm].
  rewrite Hm. cbn [mbind result_bind]. exists m. split; [done|].
  pose proof (load_items_keys _ _ _ _ _ Hm) as Hkeys.
  assert (Hk : ∀ name, is_Some (m !! name) ↔ name ∈ mapping.*1).
  { intros name. rewrite Hkeys, lookup_empty. split; [|by left].
    intros [? | []%is_Some_None]; done. }
  split; [done|]. intros name uv Huv.
  assert (Hn : name ∈ mapping.*1) by (apply Hk; by eexists).
  apply list_elem_of_fmap in Hn as ([n [[[x0 y0] w] h]] & -> & Hel).
  cbn [fst] in Huv.
  destruct (Hin n x0 y0 w h Hel) as (Hx & Hy & Hw & Hh & HxW & HyH).
  destruct (uv_of_rect_bounds x0 y0 w h W H Hx Hy Hw Hh HxW HyH)
    as (uv' & Huv' & Hb).
  rewrite uv_of_rect_ok in Huv' by done. injection Huv' as <-.
  rewrite (load_items_lookup mapping W H ∅ m n x0 y0 w h) in Huv by done.
  by injection Huv as <-.
Qed.

Lemma load_atlas_unit_square_witness :
  let mapping : sprite_dict :=
    [("star", (0, 0, num 10, num 10));
     ("ufo", (num 90, num 50, num 10, num 50))]%string in
  let Image := λ path, mkTexture path (num 100, num 100) in
  ∃ uvmap,
    load_atlas [("shmup.png"%string, mapping)] Image
    = Ok (Image "assets/images/shmup.png"%string, uvmap)
    ∧ (∀ name, is_Some (uvmap !! name) ↔ name ∈ mapping.*1)
    ∧ ∀ name uv,
        uvmap !! name = Some uv →
        0 ≤ u0 uv ∧ u0 uv < u1 uv ∧ u1 uv ≤ 1
        ∧ 0 ≤ v0 uv ∧ v0 uv < v1 uv ∧ v1 uv ≤ 1
        ∧ 0 < su uv ∧ 0 < sv uv.
Proof.
  intros mapping Image.
  apply (load_atlas_unit_square [] "shmup.png" mapping Image
           (num 100) (num 100)).
  - apply NoDup_cons. split.
    + intros Hin. apply list_elem_of_singleton in Hin. discriminate Hin.
    + apply NoDup_singleton.
  - reflexivity.
  - intros name x0 y0 w h Hin.
    apply elem_of_cons in Hin as [Heq | Hin].
    { injection Heq as -> -> -> -> ->. repeat split; qc_cmp. }
    apply list_elem_of_singleton in Hin.
    injection Hin as -> -> -> -> ->. repeat split; qc_cmp.
Defined.

(** ** The speed of the enemies *)

Lemma speed_ok_init (c : Cls) (i : nat) (g : Game) :
  speed_ok (Particle_init c i g).1.
Proof.
  destruct c; unfold Particle_init, reset; cbn [class_of sub class_defaults].
  - destruct (Star_reset_sub true (mkParticle (4 * i * vsize) 0 0 1 (Star 1))
                g 1 eq_refl) as [n Hn].
    intros a v Hs. rewrite Hn in Hs. discriminate Hs.
  - unfold Trail_reset. destruct (randint _ _ g) as [n g1].
    destruct (randint _ _ g1) as [m g2]. by intros a v [=].
  - by intros a v [=].
  - by intros a v [=].
  - intros a v [= <- <-]. lia.
Qed.

Lemma speed_ok_reset (bp : Particle) (g : Game) :
  speed_ok bp → get_active bp = Ok true → speed_ok (reset false bp g).1.
Proof.
  destruct bp as [b px py s [pl| | |a|a w]]; intros HP [= ->].
  - by intros a v [=].
  - intros a v [= <- <-]. by apply (HP true w).
Qed.

Lemma speed_ok_advance (nap : Qc) (p : Particle) (g : Game)
    (p' : Particle) (g' : Game) :
  speed_ok p → advance nap p g = Ok (p', g') → speed_ok p'.
Proof.
  intros HP Hadv.
  pose proof (advance_keeps_class _ _ _ _ _ Hadv) as Hc.
  destruct p as [b px py s [pl| | |a|a w]]; cbn [class_of sub] in Hc;
    try (intros a' v' Hs; rewrite Hs in Hc; discriminate Hc).
  revert Hadv. unfold advance. cbn [class_of sub].
  unfold Enemy_advance. cbn [get_active sub mbind result_bind].
  pose proof (HP a w eq_refl) as Hw.
  destruct a.
  - destruct (Enemy_check_hit _ g) as [[hit g1]|]; [|done].
    cbn [mbind result_bind].
    destruct hit; [intros [= <- <-] a v [= <- <-]; done|].
    cbn [x set_x sub base_i y size set_y get_v set_v].
    repeat case_decide; intros [= <- <-] a v [= <- <-]; lia.
  - case_decide; [|intros [= <- <-] a v [= <- <-]; done].
    destruct (random g) as [r g1].
    pose proof (randint_range (-100) 100 g1 ltac:(lia)) as Hn.
    destruct (randint _ _ g1) as [n g2]. cbn [fst] in Hn.
    intros [= <- <-] a v [= <- <-]. done.
Qed.

(** X16.  The vertical speed of every enemy stays within [-100 .. 100].
    [initialize] returns a well-formed widget in which this holds if it
    held of the pool before, and every sequence of ticks and touch events
    from such a widget returns another one. *)
Theorem enemy_speed_invariant :
  (∀ g,
     (∀ c, is_Some (uvmap g !! tex_name c)) → pool_layout g →
     Forall speed_ok (particles g) →
     ∃ g', initialize g = Ok g' ∧ well_formed g'
           ∧ Forall speed_ok (particles g'))
  ∧ (∀ evs g,
       well_formed g → Forall speed_ok (particles g) →
       ∃ g', run evs g = Ok g' ∧ well_formed g'
             ∧ Forall speed_ok (particles g')).
Proof.
  apply execution_invariant.
  - apply speed_ok_init.
  - apply speed_ok_advance.
  - apply speed_ok_reset.
Qed.

Lemma enemy_speed_invariant_witness :
  let e := mkParticle 0 (num 400) (num 1) 1 (Enemy true (-90)) in
  let g := mkGame (num 800) (num 600) ∅ [] (replicate 28 0) [e]
                  [] (num 500) (num 500) false 0 1 (λ _, 7%N) 0 in
  ∃ g', run [Tick (frac 1 60) (num 5, num 6); TouchDown;
             Tick (frac 1 60) (num 5, num 6)] g = Ok g'
        ∧ well_formed g' ∧ Forall speed_ok (particles g').
Proof.
  intros e g. apply (proj2 enemy_speed_invariant).
  - split; [split|].
    + reflexivity.
    + intros [|i] p Hp; [injection Hp as <-; reflexivity|discriminate Hp].
    + intros n Hn. by apply elem_of_nil in Hn.
  - apply Forall_cons_2; [|apply Forall_nil_2].
    intros a v [= <- <-]. lia.
Defined.

(** ** The pool that [initialize] leaves *)

Lemma dormant_init (c : Cls) (i : nat) (g : Game) :
  dormant (Particle_init c i g).1.
Proof.
  destruct c; unfold Particle_init, reset, dormant;
    cbn [class_of sub class_defaults].
  - destruct (Star_reset_sub true (mkParticle (4 * i * vsize) 0 0 1 (Star 1))
                g 1 eq_refl) as [n ->]. done.
  - unfold Trail_reset. destruct (randint _ _ g) as [n g1].
    destruct (randint _ _ g1) as [m g2]. done.
  - done.
  - done.
  - done.
Qed.

(** X17.  What the pool looks like before the first frame.  In the widget
    that [initialize] returns every trail has size 0 and every bullet and
    enemy is inactive at [(-100, -100)], the enemies with speed 0, given
    this of the particles pooled before. *)
Theorem initialize_leaves_dormant (g : Game) :
  (∀ c, is_Some (uvmap g !! tex_name c)) →
  Forall dormant (particles g) →
  ∃ g', initialize g = Ok g' ∧ Forall dormant (particles g').
Proof.
  intros Huv HP.
  destruct (initialize_shape g Huv) as (g' & ps & Hi & _).
  exists g'. split; [done|].
  exact (initialize_invariant dormant dormant_init g g' HP Hi).
Qed.

Lemma initialize_leaves_dormant_witness :
  let uv := mkUV 0 (frac 9 10) (frac 1 10) 1 (num 5) (num 5) in
  let sprites : gmap string UVMapping :=
    list_to_map [("star", uv); ("trail", uv); ("player", uv);
                 ("ufo", uv); ("bullet", uv)]%string in
  let g := mkGame (num 800) (num 600) sprites [] [] [] []
                  0 0 false 0 1 (λ _, 7%N) 0 in
  ∃ g', initialize g = Ok g' ∧ Forall dormant (particles g').
Proof.
  intros uv sprites g. apply (initialize_leaves_dormant g).
  - intros c. destruct c; vm_compute; eauto.
  - apply Forall_nil_2.
Defined.

(** ** [Trail.advance] *)

(** X18.  A trail shrinks by [nap] and drifts left by [120 * nap] while it
    stays larger than 0.1; otherwise it respawns behind the player, at an
    integral offset of [-30 .. -20] and [-10 .. 10] from the player's
    position, with a size in [[0.6, 1.6)], consuming three draws. *)
Theorem Trail_advance_cases (nap : Qc) (p : Particle) (g : Game) :
  sub p = Trail →
  (frac 1 10 < size p - nap →
   Trail_advance nap p g
   = (mkParticle (base_i p) (x p - num 120 * nap) (y p) (size p - nap)
                 Trail, g))
  ∧ (size p - nap ≤ frac 1 10 →
     ∃ (n m : Z) (s : Qc),
       Trail_advance nap p g
       = (mkParticle (base_i p) (player_x g + num n) (player_y g + num m)
                     s Trail,
          set_cursor (cursor g + 3)%nat g)
       ∧ (-30 ≤ n ≤ -20)%Z ∧ (-10 ≤ m ≤ 10)%Z
       ∧ frac 6 10 ≤ s ∧ s < frac 6 10 + 1).
Proof.
  intros Hs. destruct p as [b px py sz sp]. cbn in Hs. subst sp.
  unfold Trail_advance. cbn [size set_size x y sub base_i set_x]. split.
  - intros Hbig. rewrite decide_False; [done|]. by apply Qclt_not_le.
  - intros Hsmall. rewrite decide_True by done. unfold Trail_reset.
    pose proof (randint_range (-30) (-20) g ltac:(lia)) as Hn.
    pose proof (randint_state (-30) (-20) g) as Hg1.
    destruct (randint (-30) (-20) g) as [n g1].
    cbn [fst snd] in Hn, Hg1. subst g1.
    set (g1 := set_cursor _ g).
    pose proof (randint_range (-10) 10 g1 ltac:(lia)) as Hm.
    pose proof (randint_state (-10) 10 g1) as Hg2.
    destruct (randint (-10) 10 g1) as [m g2].
    cbn [fst snd] in Hm, Hg2. subst g2.
    set (g2 := set_cursor _ g1).
    pose proof (random_range g2) as [Hr0 Hr1].
    pose proof (random_state g2) as Hg3.
    destruct (random g2) as [r g3]. cbn [fst snd] in Hr0, Hr1, Hg3. subst g3.
    exists n, m, (r + frac 6 10).
    split.
    { cbn [set_x set_y set_size x y size sub base_i].
      f_equal. unfold g2, g1. rewrite !set_cursor_twice.
      destruct g; cbn. f_equal. lia. }
    split; [done|]. split; [done|]. split.
    + rewrite <-(Qcplus_0_l (frac 6 10)) at 1.
      apply Qcplus_le_compat; [done | apply Qcle_refl].
    + rewrite (Qcplus_comm r). by apply Qcplus_lt_mono_l.
Qed.

Lemma Trail_advance_cases_witness :
  let p := mkParticle 28 (num 3) (num 4) 0 Trail in
  let g := mkGame (num 800) (num 600) ∅ [] [] [] [] (num 500) (num 300)
                  false 0 1 (λ n, N.of_nat (7 * n + 5)) 0 in
  ∃ (n m : Z) (s : Qc),
    Trail_advance (frac 1 60) p g
    = (mkParticle (base_i p) (player_x g + num n) (player_y g + num m)
                  s Trail,
       set_cursor (cursor g + 3)%nat g)
    ∧ (-30 ≤ n ≤ -20)%Z ∧ (-10 ≤ m ≤ 10)%Z
    ∧ frac 6 10 ≤ s ∧ s < frac 6 10 + 1.
Proof.
  intros p g.
  apply (proj2 (Trail_advance_cases (frac 1 60) p g eq_refl)). qc_cmp.
Defined.

(** ** The first frame after a touch *)

Lemma advance_other_fire_delay (nap : Qc) (p : Particle) (g : Game)
    (p' : Particle) (g' : Game) :
  advance nap p g = Ok (p', g') →
  sub p ≠ Bullet false →
  fire_delay g' = fire_delay g.
Proof.
  unfold advance.
  destruct p as [b px py s [pl| | |a|a w]]; cbn [class_of sub].
  - intros [= Hadv] _. revert Hadv. unfold Star_advance.
    cbn [x set_x get_plane sub base_i y size].
    case_decide; intros [= <- <-]; by destruct g.
  - intros [= Hadv] _. revert Hadv. unfold Trail_advance.
    cbn [x set_x get_plane sub base_i y size set_size].
    case_decide; intros [= <- <-]; by destruct g.
  - intros [= <- <-] _. by destruct g.
  - unfold Bullet_advance. cbn [get_active sub mbind result_bind].
    destruct a; [|done].
    cbn [x set_x sub base_i y size].
    case_decide; intros [= <- <-] _; by destruct g.
  - unfold Enemy_advance. cbn [get_active sub mbind result_bind].
    destruct a.
    + unfold Enemy_check_hit. cbn [x y].
      destruct (hypot_lt (player_x g - px) (player_y g - py) (num 60)).
      { cbn [mbind result_bind]. by intros [= <- <-] _. }
      destruct (scan_bullets _ (bullets g) g) as [[hit g1]|] eqn:Hscan;
        [|done].
      cbn [mbind result_bind].
      apply scan_bullets_effect in Hscan
        as [[-> ->] | (-> & b0 & bp0 & bp' & Hin & Hbp & Hcl & ->)].
      * cbn [x set_x sub base_i y size set_y get_v set_v].
        by repeat case_decide; intros [= <- <-] _.
      * by intros [= <- <-] _.
    + case_decide; intros [= <- <-] _; by destruct g.
Qed.

Lemma Bullet_advance_fires (nap : Qc) (p : Particle) (g : Game)
    (p' : Particle) (g' : Game) :
  sub p = Bullet false → firing g = true → fire_delay g ≤ 0 →
  advance nap p g = Ok (p', g') →
  sub p' = Bullet true ∧ x p' = player_x g + num 40 ∧ y p' = player_y g.
Proof.
  intros Hs Hf Hd. destruct p as [b px py s sp]. cbn in Hs. subst sp.
  unfold advance. cbn [class_of sub]. unfold Bullet_advance.
  cbn [get_active sub mbind result_bind].
  rewrite Hf, bool_decide_true by done. cbn [andb].
  by intros [= <- <-].
Qed.

(** The loop from position [k] on: a bullet fired at an earlier position
    stays as it is, and while none is fired an inactive bullet still to
    come finds the cooldown expired. *)
Lemma pass_fires (nap mx my : Qc) (n : nat) :
  ∀ (k : nat) (g g' : Game),
    well_formed g →
    (k + n)%nat = length (particles g) →
    player_x g = mx → player_y g = my →
    (∃ (j : nat) q, (j < k)%nat ∧ particles g !! j = Some q
                    ∧ sub q = Bullet true
                    ∧ x q = mx + num 40 ∧ y q = my)
    ∨ (firing g = true ∧ fire_delay g ≤ 0
       ∧ ∃ (i : nat) bp, (k ≤ i)%nat ∧ particles g !! i = Some bp
                         ∧ sub bp = Bullet false) →
    pass nap (seq k n) g = Ok g' →
    ∃ (j : nat) q, particles g' !! j = Some q ∧ sub q = Bullet true
                   ∧ x q = mx + num 40 ∧ y q = my.
Proof.
  induction n as [|n IH]; intros k g g' Hwf Hlen Hx Hy Hcase;
    cbn [seq pass].
  - intros [= <-].
    destruct Hcase as [(j & q & _ & Hq & Hrest)
                      | (_ & _ & i & bp & Hi & Hbp & _)].
    + by exists j, q.
    + apply lookup_lt_Some in Hbp. lia.
  - unfold deref. destruct (particles g !! k) as [p|] eqn:Hp; [|done].
    cbn [mbind result_bind].
    destruct (advance nap p g) as [[p' g1]|] eqn:Hadv; [|done].
    cbn [mbind result_bind]. intros Hpass.
    destruct (pass_step nap k p p' g g1 Hwf Hp Hadv)
      as (Hwf2 & HF2 & _ & _ & _ & Hk2 & _ & Hbefore & _).
    cbn zeta in *. set (g2 := update p' (store k p' g1)) in *.
    destruct (advance_effect _ _ _ _ _ Hadv) as (_ & Hfr & _).
    destruct (frame_globals _ _ Hfr) as (_ & _ & Hx1 & Hy1 & Hf1).
    assert (Hx2 : player_x g2 = mx) by (rewrite <-Hx, <-Hx1; done).
    assert (Hy2 : player_y g2 = my) by (rewrite <-Hy, <-Hy1; done).
    assert (Hlen2 : (S k + n)%nat = length (particles g2)).
    { rewrite <-(Forall2_length _ _ _ HF2). lia. }
    apply (IH (S k) g2 g' Hwf2 Hlen2 Hx2 Hy2); [|done].
    destruct Hcase as [(j & q & Hj & Hq & Hrest)
                      | (Hf & Hd & i & bp & Hi & Hbp & Hs)].
    + left. exists j, q. split; [lia|]. split; [|done].
      by rewrite Hbefore.
    + assert (Hdec : sub p = Bullet false ∨ sub p ≠ Bullet false)
        by (destruct (sub p) as [?| | |[]|[] ?]; by (left + right)).
      destruct Hdec as [Hsp | Hsp].
      * left. exists k, p'. split; [lia|]. split; [done|].
        destruct (Bullet_advance_fires _ _ _ _ _ Hsp Hf Hd Hadv)
          as (? & ? & ?).
        split; [done|]. split; congruence.
      * right.
        assert (Hik : i ≠ k).
        { intros ->. rewrite Hp in Hbp. injection Hbp as ->. done. }
        split; [by rewrite <-Hf1 in Hf|]. split.
        { change (fire_delay g2) with (fire_delay g1).
          by rewrite (advance_other_fire_delay _ _ _ _ _ Hadv Hsp). }
        exists i, bp. split; [lia|]. split; [|done].
        change (particles g2) with (<[k := p']> (particles g1)).
        rewrite list_lookup_insert_ne by done.
        destruct (advance_pool _ _ _ _ _ Hadv)
          as [-> | (b0 & bp0 & Hb0 & Ha0 & ->)]; [done|].
        rewrite list_lookup_insert_ne; [done|].
        intros ->. rewrite Hb0 in Hbp. injection Hbp as ->.
        destruct bp as [? ? ? ? sb]. cbn in Hs, Ha0. subst sb.
        discriminate Ha0.
Qed.

(** X19.  A touch fires a bullet in the next frame, whatever the cooldown
    was.  After [on_touch_down] on a well-formed widget that has an
    inactive bullet, [update_glsl] with [nap >= 0] returns a widget with an
    active bullet [40] right of the mouse position. *)
Theorem touch_down_fires (nap : Qc) (mouse_pos : Qc * Qc) (g : Game) :
  well_formed g → 0 ≤ nap →
  (∃ (i : nat) bp, particles g !! i = Some bp ∧ sub bp = Bullet false) →
  ∃ g', Game_update_glsl nap mouse_pos (on_touch_down g) = Ok g'
        ∧ ∃ (j : nat) q,
            particles g' !! j = Some q ∧ sub q = Bullet true
            ∧ x q = mouse_pos.1 + num 40 ∧ y q = mouse_pos.2.
Proof.
  intros Hwf Hnap (i & bp & Hbp & Hs).
  assert (Hwf1 : well_formed (on_touch_down g)).
  { apply (well_formed_preserved g); [done| |done|done].
    apply Forall2_same_class_refl. }
  destruct (Game_update_glsl_spec nap mouse_pos _ Hwf1) as (g' & Hg' & _).
  exists g'. split; [done|].
  revert Hg'. unfold Game_update_glsl, PSWidget_update_glsl.
  cbn [firing on_touch_down set_fire_delay set_firing set_player
       fire_delay].
  set (g0 := set_spawn_delay _ _). intros Hpass.
  assert (Hwf0 : well_formed g0).
  { apply (well_formed_preserved g); [done| |done|done].
    apply Forall2_same_class_refl. }
  apply (pass_fires nap mouse_pos.1 mouse_pos.2
           (length (particles g0)) 0 g0 g' Hwf0); try done.
  right. split; [done|]. split.
  - change (fire_delay g0) with (0 - nap).
    apply Qcle_minus_iff. by replace (0 + - (0 - nap)) with nap by ring.
  - exists i, bp. split; [lia|]. done.
Qed.

Lemma touch_down_fires_witness :
  let b := mkParticle 0 (num (-100)) (num (-100)) 1 (Bullet false) in
  let g := mkGame (num 800) (num 600) ∅ [] (replicate 28 0) [b]
                  [0%nat] (num 500) (num 500) false (num 7) 1
                  (λ _, 7%N) 0 in
  ∃ g', Game_update_glsl (frac 1 60) (num 5, num 6) (on_touch_down g)
        = Ok g'
        ∧ ∃ (j : nat) q,
            particles g' !! j = Some q ∧ sub q = Bullet true
            ∧ x q = num 5 + num 40 ∧ y q = num 6.
Proof.
  intros b g.
  apply (touch_down_fires (frac 1 60) (num 5, num 6) g).
  - split; [split|].
    + reflexivity.
    + intros [|i] p Hp; [injection Hp as <-; reflexivity|discriminate Hp].
    + intros n Hn. apply list_elem_of_singleton in Hn. subst n. split.
      * exists b. split; reflexivity.
      * intros [|i] p Hp Hc; [|discriminate Hp].
        injection Hp as <-. discriminate Hc.
  - qc_cmp.
  - exists 0%nat, b. split; reflexivity.
Defined.

(** ** The demo widget *)

Lemma getitem_Some (uvmap : gmap string UVMapping) (name : string)
    (uv : UVMapping) :
  uvmap !! name = Some uv → Demo.getitem uvmap name = Ok uv.
Proof. unfold Demo.getitem. by intros ->. Qed.

Lemma getitem_None (uvmap : gmap string UVMapping) (name : string) :
  uvmap !! name = None → Demo.getitem uvmap name = Raise KeyError.
Proof. unfold Demo.getitem. by intros ->. Qed.

Lemma load_items_names (items : sprite_dict) (W H : Qc)
    (m : gmap string UVMapping) (name : string) :
  load_items items W H ∅ = Ok m →
  (name ∈ items.*1 → is_Some (m !! name))
  ∧ (name ∉ items.*1 → m !! name = None).
Proof.
  intros Hm. pose proof (load_items_keys _ _ _ _ _ Hm name) as Hk.
  split.
  - intros Hin. apply Hk. by left.
  - intros Hnin. apply eq_None_not_Some. intros Hs.
    apply Hk in Hs as [? | Hs]; [done|].
    rewrite lookup_empty in Hs. by destruct Hs.
Qed.

(** X20.  How the demo widget starts or fails.  [GlslAtlas()] raises
    [KeyError] for an empty manifest; with the last entry of the manifest
    it raises [ZeroDivisionError] when that names a sprite and the texture
    has a zero width or height, and [KeyError] when no division fails but
    [clock_icon] or [pencil_icon] is missing; otherwise it draws a mesh of
    8 vertex records of 6 scalars, the first four centred at [(128, 128)]
    and the other four at [(256, 256)], whose indices all refer to these
    records and whose offsets and texture coordinates are those of the
    quads that [make_particles] builds for the two sprites. *)
Theorem GlslAtlas_outcomes :
  (∀ Image, Demo.GlslAtlas_init [] Image = Raise KeyError)
  ∧ (∀ (rest : atlas_dict) (tex : string) (mapping : sprite_dict)
       (Image : string → Texture) (W H : Qc),
       tex_size (Image tex) = (W, H) →
       let r := Demo.GlslAtlas_init (rest ++ [(tex, mapping)]) Image in
       (mapping ≠ [] → W = 0 ∨ H = 0 → r = Raise ZeroDivisionError)
       ∧ (mapping = [] ∨ (W ≠ 0 ∧ H ≠ 0) →
          ("clock_icon" ∉ mapping.*1 ∨ "pencil_icon" ∉ mapping.*1)%string →
          r = Raise KeyError)
       ∧ (W ≠ 0 → H ≠ 0 →
          ("clock_icon" ∈ mapping.*1)%string →
          ("pencil_icon" ∈ mapping.*1)%string →
          ∃ m uvmap a b,
            r = Ok m
            ∧ Demo.load_atlas (rest ++ [(tex, mapping)]) Image
              = Ok (Image tex, uvmap)
            ∧ uvmap !! "clock_icon"%string = Some a
            ∧ uvmap !! "pencil_icon"%string = Some b
            ∧ Demo.mesh_texture m = Image tex
            ∧ length (Demo.mesh_vertices m) = 48%nat
            ∧ (∀ i : nat, i ∈ Demo.mesh_indices m →
                 (6 * i + 6 ≤ length (Demo.mesh_vertices m))%nat)
            ∧ (∀ k : nat, (k < 4)%nat →
                 Demo.mesh_vertices m !! (6 * k)%nat = Some (num 128)
                 ∧ Demo.mesh_vertices m !! (6 * k + 1)%nat = Some (num 128)
                 ∧ Demo.mesh_vertices m !! (24 + 6 * k)%nat
                   = Some (num 256)
                 ∧ Demo.mesh_vertices m !! (24 + 6 * k + 1)%nat
                   = Some (num 256)
                 ∧ ∀ c : nat, (c < 4)%nat →
                     Demo.mesh_vertices m !! (6 * k + 2 + c)%nat
                     = quad_vertices a !! (7 * k + 3 + c)%nat
                     ∧ Demo.mesh_vertices m !! (24 + 6 * k + 2 + c)%nat
                       = quad_vertices b !! (7 * k + 3 + c)%nat))).
Proof.
  split; [done|].
  intros rest tex mapping Image W H Hsz r. subst r.
  unfold Demo.GlslAtlas_init, Demo.load_atlas. rewrite popitem_snoc.
  cbn [mbind result_bind]. rewrite Hsz.
  split; [|split].
  - intros Hne Hz. destruct mapping as [|[n val] items]; [done|].
    cbn [load_items]. by rewrite uv_of_rect_raise.
  - intros Hcase Hmiss.
    assert (Hm : ∃ m, load_items mapping W H ∅ = Ok m).
    { destruct Hcase as [-> | [HW HH]]; [by eexists|].
      by apply load_items_total. }
    destruct Hm as [m Hm]. rewrite Hm. cbn [mbind result_bind].
    destruct (decide ("clock_icon"%string ∈ mapping.*1)) as [Hc | Hc].
    + destruct (proj1 (load_items_names _ _ _ _ "clock_icon"%string Hm) Hc)
        as [a Ha].
      rewrite (getitem_Some _ _ _ Ha). cbn [mbind result_bind].
      destruct Hmiss as [? | Hp]; [done|].
      by rewrite (getitem_None _ _
        (proj2 (load_items_names _ _ _ _ "pencil_icon"%string Hm) Hp)).
    + by rewrite (getitem_None _ _
        (proj2 (load_items_names _ _ _ _ "clock_icon"%string Hm) Hc)).
  - intros HW HH Hc Hp.
    destruct (load_items_total mapping W H ∅ HW HH) as [m Hm].
    rewrite Hm. cbn [mbind result_bind].
    destruct (proj1 (load_items_names _ _ _ _ "clock_icon"%string Hm) Hc)
      as [a Ha].
    destruct (proj1 (load_items_names _ _ _ _ "pencil_icon"%string Hm) Hp)
      as [b Hb].
    rewrite (getitem_Some _ _ _ Ha). cbn [mbind result_bind].
    rewrite (getitem_Some _ _ _ Hb). cbn [mbind result_bind].
    eexists _, m, a, b. split; [reflexivity|].
    split; [done|]. split; [done|]. split; [done|]. split; [done|].
    split; [done|]. split.
    { intros i Hi. cbn in Hi. cbn [Demo.mesh_vertices length app].
      repeat (apply elem_of_cons in Hi as [-> | Hi]; [lia|]).
      by apply elem_of_nil in Hi. }
    intros k Hk.
    destruct k as [|[|[|[|k]]]]; [| | |  |lia];
      (repeat (split; [reflexivity|]));
      intros c Hcl;
      (destruct c as [|[|[|[|c]]]]; [| | | |lia]); by split.
Qed.

Lemma GlslAtlas_outcomes_witness :
  let mapping : sprite_dict :=
    [("clock_icon", (0, 0, num 64, num 64));
     ("pencil_icon", (num 64, 0, num 64, num 64))]%string in
  let Image := λ path, mkTexture path (num 128, num 64) in
  let r := Demo.GlslAtlas_init [("icons.png"%string, mapping)] Image in
  ∃ m uvmap a b,
    r = Ok m
    ∧ Demo.load_atlas [("icons.png"%string, mapping)] Image
      = Ok (Image "icons.png"%string, uvmap)
    ∧ uvmap !! "clock_icon"%string = Some a
    ∧ uvmap !! "pencil_icon"%string = Some b
    ∧ Demo.mesh_texture m = Image "icons.png"%string
    ∧ length (Demo.mesh_vertices m) = 48%nat
    ∧ (∀ i : nat, i ∈ Demo.mesh_indices m →
         (6 * i + 6 ≤ length (Demo.mesh_vertices m))%nat)
    ∧ (∀ k : nat, (k < 4)%nat →
         Demo.mesh_vertices m !! (6 * k)%nat = Some (num 128)
         ∧ Demo.mesh_vertices m !! (6 * k + 1)%nat = Some (num 128)
         ∧ Demo.mesh_vertices m !! (24 + 6 * k)%nat = Some (num 256)
         ∧ Demo.mesh_vertices m !! (24 + 6 * k + 1)%nat = Some (num 256)
         ∧ ∀ c : nat, (c < 4)%nat →
             Demo.mesh_vertices m !! (6 * k + 2 + c)%nat
             = quad_vertices a !! (7 * k + 3 + c)%nat
             ∧ Demo.mesh_vertices m !! (24 + 6 * k + 2 + c)%nat
               = quad_vertices b !! (7 * k + 3 + c)%nat).
Proof.
  intros mapping Image r.
  apply (proj2 GlslAtlas_outcomes [] "icons.png"%string mapping Image
           (num 128) (num 64) eq_refl).
  - qc_neq.
  - qc_neq.
  - apply elem_of_cons. by left.
  - apply elem_of_cons. right. apply elem_of_cons. by left.
Defined.

(** ** The application as a whole *)

Lemma Forall2_same_class_trans (l k m : list Particle) :
  Forall2 same_class l k → Forall2 same_class k m → Forall2 same_class l m.
Proof.
  apply Forall2_related_trans. intros p q r. apply same_class_trans.
Qed.

Lemma step_shape (ev : event) (g : Game) :
  well_formed g →
  ∃ g', step ev g = Ok g' ∧ well_formed g'
        ∧ Forall2 same_class (particles g) (particles g')
        ∧ bullets g' = bullets g ∧ indices g' = indices g
        ∧ length (vertices g') = length (vertices g).
Proof.
  intros Hwf. destruct ev as [nap mouse_pos| |]; cbn [step].
  - destruct (Game_update_glsl_spec nap mouse_pos g Hwf)
      as (g' & ? & ? & _ & ? & ? & ? & ?).
    by exists g'.
  - eexists. split; [done|].
    assert (HF : Forall2 same_class (particles g) (particles g))
      by apply Forall2_same_class_refl.
    split; [by apply (well_formed_preserved g)|]. done.
  - eexists. split; [done|].
    assert (HF : Forall2 same_class (particles g) (particles g))
      by apply Forall2_same_class_refl.
    split; [by apply (well_formed_preserved g)|]. done.
Qed.

Lemma run_shape (evs : list event) :
  ∀ g, well_formed g →
       ∃ g', run evs g = Ok g' ∧ well_formed g'
             ∧ Forall2 same_class (particles g) (particles g')
             ∧ bullets g' = bullets g ∧ indices g' = indices g
             ∧ length (vertices g') = length (vertices g).
Proof.
  induction evs as [|ev evs IH]; intros g Hwf; cbn [run].
  - exists g. split; [done|]. split; [done|].
    split; [apply Forall2_same_class_refl | done].
  - destruct (step_shape ev g Hwf) as (g1 & -> & Hwf1 & HF1 & Hb1 & Hi1 & Hv1).
    cbn [mbind result_bind].
    destruct (IH g1 Hwf1) as (g' & Hr & Hwf' & HF' & Hb' & Hi' & Hv').
    exists g'. split; [done|]. split; [done|].
    split; [by eapply Forall2_same_class_trans|].
    split; [congruence|]. split; congruence.
Qed.

(** X21.  The application runs without an exception and without growing its
    buffers.  With a texture of non-zero size and a manifest whose last
    entry names the five sprites, the first [Game()] of the process and
    [initialize] succeed, and every sequence of frames and touch events
    after them succeeds and leaves a well-formed widget with the same 551
    particles by class and slice, the same 25 bullets, the same indices
    and a vertex array of the same length [551 * 28]. *)
Theorem GameApp_runs (rest : atlas_dict) (tex : string)
    (mapping : sprite_dict) (Image : string → Texture)
    (size mouse_pos : Qc * Qc) (rnd : nat → N) (W H : Qc)
    (evs : list event) :
  tex_size (Image ("assets/images/" +:+ tex)) = (W, H) →
  W ≠ 0 → H ≠ 0 →
  (∀ c, tex_name c ∈ mapping.*1) →
  ∃ g0 g1 g',
    Game_new (rest ++ [(tex, mapping)]) Image size mouse_pos rnd
             PSWidget_class = Ok g0
    ∧ initialize g0 = Ok g1
    ∧ run evs g1 = Ok g'
    ∧ well_formed g'
    ∧ length (particles g') = 551%nat
    ∧ Forall2 same_class (particles g1) (particles g')
    ∧ bullets g' = seq 526 25
    ∧ indices g' = indices g1
    ∧ length (indices g') = (551 * 6)%nat
    ∧ length (vertices g') = (551 * 28)%nat.
Proof.
  intros Hsz HW HH Hall.
  destruct (load_items_total mapping W H ∅ HW HH) as [m Hm].
  pose proof (load_items_keys _ _ _ _ _ Hm) as Hkeys.
  unfold Game_new, load_atlas, PSWidget_class. rewrite popitem_snoc.
  cbn [mbind result_bind]. rewrite Hsz, Hm. cbn [mbind result_bind].
  set (g0 := mkGame _ _ _ _ _ _ _ _ _ _ _ _ _ _).
  assert (Huv : ∀ c, is_Some (uvmap g0 !! tex_name c)).
  { intros c. apply Hkeys. left. apply Hall. }
  destruct (initialize_shape g0 Huv)
    as (g1 & ps & Hi & Hp & Hlen & _ & Hb & Hv & Hix).
  assert (Hwf1 : well_formed g1).
  { apply (initialize_well_formed g0); [|done].
    split; [done|]. intros i p Hp'. discriminate Hp'. }
  destruct (run_shape evs g1 Hwf1) as (g' & Hr & Hwf' & HF & Hb' & Hi' & Hv').
  exists g0, g1, g'. split; [done|]. split; [done|]. split; [done|].
  split; [done|].
  split; [by rewrite <-(Forall2_length _ _ _ HF), Hp|].
  split; [done|]. split; [by rewrite Hb', Hb|]. split; [done|].
  split; [by rewrite Hi', Hix|]. by rewrite Hv', Hv.
Qed.

Lemma GameApp_runs_witness :
  let r := (0, 0, num 10, num 10) in
  let manifest : atlas_dict :=
    [("shmup.png",
      [("star", r); ("trail", r); ("player", r); ("ufo", r);
       ("bullet", r)])]%string in
  let Image := λ path, mkTexture path (num 100, num 100) in
  let evs := [Tick (frac 1 60) (num 5, num 6); TouchDown;
              Tick (frac 1 60) (num 7, num 6); TouchUp] in
  ∃ g0 g1 g',
    Game_new manifest Image (num 800, num 600) (num 5, num 6) (λ _, 7%N)
             PSWidget_class
    = Ok g0
    ∧ initialize g0 = Ok g1
    ∧ run evs g1 = Ok g'
    ∧ well_formed g'
    ∧ length (particles g') = 551%nat
    ∧ Forall2 same_class (particles g1) (particles g')
    ∧ bullets g' = seq 526 25
    ∧ indices g' = indices g1
    ∧ length (indices g') = (551 * 6)%nat
    ∧ length (vertices g') = (551 * 28)%nat.
Proof.
  intros r manifest Image evs.
  apply (GameApp_runs [] "shmup.png"
           [("star", r); ("trail", r); ("player", r); ("ufo", r);
            ("bullet", r)]%string
           Image (num 800, num 600) (num 5, num 6) (λ _, 7%N)
           (num 100) (num 100) evs).
  - reflexivity.
  - qc_neq.
  - qc_neq.
  - intros c. destruct c; cbn [tex_name fmap list_fmap fst];
      repeat (first [by apply list_elem_of_here | apply list_elem_of_further]).
Defined.
